(** * BabelGPU: the device-resident vector engine of [my_gpu.h]

    A shallow embedding of the two generations of the header
    ([gpu_src/my_gpu.h], templated over the element type, and
    [MyThrust/my_gpu.h], macro-generated per element type) together with
    the properties of the elementwise transforms, the reductions, the
    softmax family, sorting and the row/column matrix utilities.

    Element type.  The templates are generic in [T]; the embedding is
    generic in a [Scalar] structure that supplies the arithmetic and the
    math library the header calls.  Algebraic facts (softmax sums to one,
    the two softmax-minus-indicator routines agree, ...) are stated at the
    instance of real numbers, which is the exact arithmetic that the
    floating-point code approximates; rounding, NaN and infinities are not
    part of that instance.  A second instance, [Binary32], rounds every
    result to the nearest binary32 number; it shows where a routine that
    is declared for [float] leaves the exact result behind.

    Functors with state.  The functor of the random fill advances its
    engine when it is called.  Thrust runs a transform on copies of the
    functor, and which indices a copy serves is Thrust's choice; the
    embedding takes that choice, the schedule, as a parameter.

    Device memory.  A [device_ptr<T>] is an address (an integer); device
    memory is a total map from addresses to elements, since the header
    never checks a bound.  [int] values are integers; signed overflow is
    undefined in the source and is not modelled.  Every Thrust algorithm
    and every kernel launch is recorded in a launch counter, so that
    "nothing is launched" is a statement about the state. *)

From Stdlib Require Import ZArith List Bool Lia Arith Znumtheory Zpow_facts.
From Stdlib Require Import Reals Lra.
From Stdlib Require Import Permutation Sorted.
Import ListNotations.

Set Implicit Arguments.
Local Open Scope Z_scope.

(* ================================================================== *)
(** ** Scalars: the arithmetic and math library used by the header    *)
(* ================================================================== *)

Declare Scope scalar_scope.
Delimit Scope scalar_scope with S.

(** What the templates require of [T]: literals, the four operations,
    the comparisons, and the [<cmath>] functions that the macros are
    instantiated with. *)
Class Scalar (T : Type) : Type := {
  s_of_Z : Z -> T;              (* integer literals and int-to-T conversion *)
  s_half : T;                   (* the literal 0.5 *)
  s_pi : T;                     (* M_PI *)
  s_add : T -> T -> T;
  s_sub : T -> T -> T;
  s_mul : T -> T -> T;
  s_div : T -> T -> T;
  s_neg : T -> T;
  s_ltb : T -> T -> bool;       (* x < y *)
  s_eqb : T -> T -> bool;       (* x == y *)
  m_exp : T -> T;
  m_log : T -> T;
  m_log10 : T -> T;
  m_sqrt : T -> T;
  m_cos : T -> T;
  m_sin : T -> T;
  m_tan : T -> T;
  m_acos : T -> T;
  m_asin : T -> T;
  m_atan : T -> T;
  m_cosh : T -> T;
  m_sinh : T -> T;
  m_tanh : T -> T;
  m_fabs : T -> T;
  m_floor : T -> T;
  m_ceil : T -> T;
  m_pow : T -> T -> T;
  m_fmod : T -> T -> T
}.

Notation "x + y" := (s_add x y) : scalar_scope.
Notation "x - y" := (s_sub x y) : scalar_scope.
Notation "x * y" := (s_mul x y) : scalar_scope.
Notation "x / y" := (s_div x y) : scalar_scope.
Notation "- x" := (s_neg x) : scalar_scope.
Notation "0" := (s_of_Z 0%Z) : scalar_scope.
Notation "1" := (s_of_Z 1%Z) : scalar_scope.
Notation "2" := (s_of_Z 2%Z) : scalar_scope.

(** A defaulted C++ parameter: [None] is an omitted argument. *)
Definition dflt {A : Type} (d : A) (o : option A) : A :=
  match o with Some v => v | None => d end.

Definition b2z (b : bool) : Z := if b then 1 else 0.

(* ================================================================== *)
(** ** The non-standard elementary functions ([_HD_ T name(T x)])     *)
(* ================================================================== *)

Section Elementary.
Context {T : Type} `{Scalar T}.

Definition sigmoid (x : T) : T := (1 / (1 + m_exp (- x)))%S.
Definition sigmoid_deriv (x : T) : T := (x * (1 - x))%S.
Definition square (x : T) : T := (x * x)%S.
Definition cube (x : T) : T := (x * x * x)%S.
Definition reciprocal (x : T) : T := (1 / x)%S.
Definition cauchy (x : T) : T := m_tan (s_pi * (x - s_half))%S.
(** [(0 < val) - (val < 0)]: two [bool]s subtracted as [int]s. *)
Definition signum (val : T) : T :=
  s_of_Z (b2z (s_ltb 0%S val) - b2z (s_ltb val 0%S)).
Definition laplacian (x : T) : T :=
  let x := (x - s_half)%S in
  (- signum x * m_log (1 - 2 * m_fabs x))%S.
Definition triangular_wave (x : T) : T :=
  (2 * m_fabs (m_fmod (m_fabs x) 2 - 1) - 1)%S.
Definition triangular_wave_positive (x : T) : T :=
  m_fabs (m_fmod (m_fabs x) 2 - 1)%S.
Definition rectified_linear (x : T) : T :=
  if s_ltb 0%S x then x else 0%S.
Definition rectified_linear_deriv (x : T) : T :=
  if s_ltb 0%S x then 1%S else 0%S.

(** The names [GEN_transf] is instantiated with in [gpu_src/my_gpu.h]. *)
Inductive unary_name : Type :=
| N_exp | N_log | N_log10 | N_sqrt
| N_cos | N_sin | N_tan | N_acos | N_asin | N_atan
| N_cosh | N_sinh | N_tanh
| N_fabs | N_floor | N_ceil
| N_sigmoid | N_sigmoid_deriv | N_square | N_cube | N_reciprocal
| N_cauchy | N_laplacian | N_signum
| N_triangular_wave | N_triangular_wave_positive
| N_rectified_linear | N_rectified_linear_deriv.

(** The names [GEN_transf_2] is instantiated with. *)
Inductive binary_name : Type := N_pow | N_fmod.

(** [name(x)] for a unary name. *)
Definition call1 (name : unary_name) : T -> T :=
  match name with
  | N_exp => m_exp | N_log => m_log | N_log10 => m_log10 | N_sqrt => m_sqrt
  | N_cos => m_cos | N_sin => m_sin | N_tan => m_tan
  | N_acos => m_acos | N_asin => m_asin | N_atan => m_atan
  | N_cosh => m_cosh | N_sinh => m_sinh | N_tanh => m_tanh
  | N_fabs => m_fabs | N_floor => m_floor | N_ceil => m_ceil
  | N_sigmoid => sigmoid | N_sigmoid_deriv => sigmoid_deriv
  | N_square => square | N_cube => cube | N_reciprocal => reciprocal
  | N_cauchy => cauchy | N_laplacian => laplacian | N_signum => signum
  | N_triangular_wave => triangular_wave
  | N_triangular_wave_positive => triangular_wave_positive
  | N_rectified_linear => rectified_linear
  | N_rectified_linear_deriv => rectified_linear_deriv
  end.

(** [name(x, p)] for a binary name. *)
Definition call2 (name : binary_name) : T -> T -> T :=
  match name with N_pow => m_pow | N_fmod => m_fmod end.
End Elementary.

(* ================================================================== *)
(** ** Device state and the Thrust algorithms the header calls        *)
(* ================================================================== *)

Section Device.
Context {T : Type}.

Record device : Type := Device {
  mem : Z -> T;          (* device memory, by address *)
  launches : nat         (* Thrust algorithms and kernels launched so far *)
}.

(** Device computations: state passing over [device]. *)
Definition Dev (A : Type) : Type := device -> A * device.

Definition ret {A} (a : A) : Dev A := fun d => (a, d).
Definition bind {A B} (c : Dev A) (k : A -> Dev B) : Dev B :=
  fun d => let (a, d') := c d in k a d'.
Definition exec {A} (c : Dev A) (d : device) : device := snd (c d).
Definition eval {A} (c : Dev A) (d : device) : A := fst (c d).

Definition upd (m : Z -> T) (p : Z) (v : T) : Z -> T :=
  fun q => if q =? p then v else m q.

(** A read through a [device_ptr]. *)
Definition load (p : Z) : Dev T := fun d => (mem d p, d).
(** A write through a [device_ptr]. *)
Definition store (p : Z) (v : T) : Dev unit :=
  fun d => (tt, {| mem := upd (mem d) p v; launches := launches d |}).
(** One more algorithm or kernel handed to the device. *)
Definition launch : Dev unit :=
  fun d => (tt, {| mem := mem d; launches := S (launches d) |}).

(** Elements [p[0 .. n-1]] of a memory. *)
Definition read_array (m : Z -> T) (p : Z) (n : nat) : list T :=
  map (fun i => m (p + Z.of_nat i)) (seq 0 n).
End Device.

Arguments device T : clear implicits.
Arguments Dev T A : clear implicits.

Notation "x <- c ;; k" := (bind c (fun x => k))
  (at level 61, c at next level, right associativity).
Notation "c ;; k" := (bind c (fun _ => k))
  (at level 61, right associativity).

Section Thrust.
Context {T : Type}.

(** [for (i = from; i < from + n; ++i) body(i)] *)
Fixpoint for_loop (n : nat) (from : Z) (body : Z -> Dev T unit) : Dev T unit :=
  match n with
  | O => ret tt
  | S k => body from ;; for_loop k (from + 1) body
  end.

(** [thrust::transform(first, last, out, op)], in the order of the
    sequential reference implementation: each output element in turn
    receives [op] of the input element at the same offset. *)
Definition thrust_transform (first last out : Z) (op : T -> T) : Dev T unit :=
  launch ;;
  for_loop (Z.to_nat (last - first)) 0
    (fun i => x <- load (first + i) ;; store (out + i) (op x)).

(** [thrust::transform(first1, last1, first2, out, op)]. *)
Definition thrust_transform2 (first1 last1 first2 out : Z) (op : T -> T -> T)
  : Dev T unit :=
  launch ;;
  for_loop (Z.to_nat (last1 - first1)) 0
    (fun i => x <- load (first1 + i) ;; y <- load (first2 + i) ;;
              store (out + i) (op x y)).

(** [thrust::transform] over a counting iterator [first, last) with a
    functor whose [operator()] changes the functor's members.  Thrust
    takes the functor by value and its threads work on copies of it; a
    copy serves the indices that Thrust gives to its thread one after
    the other, and each call starts from the members as the previous
    call on the same copy left them.  Which indices a copy serves is
    Thrust's launch tuning, not the header's: [schedule first last]
    lists them, copy by copy. *)
Fixpoint serve_copy {F : Type} (op : F -> Z -> T * F) (f : F)
    (first out : Z) (idxs : list Z) : Dev T unit :=
  match idxs with
  | [] => ret tt
  | i :: rest =>
      let (x, f') := op f i in
      store (out + (i - first)) x ;; serve_copy op f' first out rest
  end.

Fixpoint serve_copies {F : Type} (op : F -> Z -> T * F) (f : F)
    (first out : Z) (copies : list (list Z)) : Dev T unit :=
  match copies with
  | [] => ret tt
  | idxs :: rest =>
      serve_copy op f first out idxs ;; serve_copies op f first out rest
  end.

Definition thrust_transform_counting {F : Type}
    (schedule : Z -> Z -> list (list Z)) (first last out : Z)
    (op : F -> Z -> T * F) (f : F) : Dev T unit :=
  launch ;; serve_copies op f first out (schedule first last).

(** [thrust::copy_n(first, n, out)] *)
Definition thrust_copy_n (first n out : Z) : Dev T unit :=
  launch ;;
  for_loop (Z.to_nat n) 0 (fun i => x <- load (first + i) ;; store (out + i) x).

(** [thrust::copy(first, last, out)] *)
Definition thrust_copy (first last out : Z) : Dev T unit :=
  launch ;;
  for_loop (Z.to_nat (last - first)) 0
    (fun i => x <- load (first + i) ;; store (out + i) x).

(** [thrust::swap_ranges(first1, last1, first2)]: the elements at the
    same offset of the two ranges are exchanged, one offset after the
    other. *)
Definition thrust_swap_ranges (first1 last1 first2 : Z) : Dev T unit :=
  launch ;;
  for_loop (Z.to_nat (last1 - first1)) 0
    (fun i => x <- load (first1 + i) ;; y <- load (first2 + i) ;;
              store (first1 + i) y ;; store (first2 + i) x).

(** [thrust::fill_n(first, n, val)] *)
Definition thrust_fill_n (first n : Z) (val : T) : Dev T unit :=
  launch ;;
  for_loop (Z.to_nat n) 0 (fun i => store (first + i) val).

(** The scan of [thrust::max_element] / [min_element]: [largest] moves
    to [cur] when [comp] holds of the element at [largest] and the one
    at [cur]. *)
Fixpoint extremum_scan (comp : T -> T -> bool) (n : nat) (cur largest : Z)
  : Dev T Z :=
  match n with
  | O => ret largest
  | S k =>
      l <- load largest ;; c <- load cur ;;
      extremum_scan comp k (cur + 1) (if comp l c then cur else largest)
  end.

(** [thrust::max_element(first, last)] with comparison [lt]: the first
    largest element; [last] when the range is empty. *)
Definition thrust_max_element (lt : T -> T -> bool) (first last : Z) : Dev T Z :=
  launch ;;
  if first =? last then ret last
  else extremum_scan lt (Z.to_nat (last - first - 1)) (first + 1) first.

(** [thrust::min_element(first, last)]: the first smallest element. *)
Definition thrust_min_element (lt : T -> T -> bool) (first last : Z) : Dev T Z :=
  launch ;;
  if first =? last then ret last
  else extremum_scan (fun l c => lt c l) (Z.to_nat (last - first - 1)) (first + 1) first.

Fixpoint reduce_scan (op : T -> T -> T) (f : T -> T) (n : nat) (cur : Z) (acc : T)
  : Dev T T :=
  match n with
  | O => ret acc
  | S k => x <- load cur ;; reduce_scan op f k (cur + 1) (op acc (f x))
  end.

(** [thrust::reduce(first, last, init, op)], left to right. *)
Definition thrust_reduce (first last : Z) (init : T) (op : T -> T -> T) : Dev T T :=
  launch ;;
  reduce_scan op (fun x => x) (Z.to_nat (last - first)) first init.

(** [thrust::transform_reduce(first, last, f, init, op)]: one pass, the
    mapped array is never stored. *)
Definition thrust_transform_reduce (first last : Z) (f : T -> T) (init : T)
    (op : T -> T -> T) : Dev T T :=
  launch ;;
  reduce_scan op f (Z.to_nat (last - first)) first init.

(** Write a list back to [p[0 ..]]. *)
Fixpoint write_array (p : Z) (l : list T) : Dev T unit :=
  match l with
  | [] => ret tt
  | x :: r => store p x ;; write_array (p + 1) r
  end.

(** Insertion into a list ordered by [comp] (after the elements that
    do not have to follow [x]). *)
Fixpoint sort_insert (comp : T -> T -> bool) (x : T) (l : list T) : list T :=
  match l with
  | [] => [x]
  | y :: r => if comp x y then x :: y :: r else y :: sort_insert comp x r
  end.

Definition sort_list (comp : T -> T -> bool) (l : list T) : list T :=
  fold_right (sort_insert comp) [] l.

(** The order of a sorted range: [x] may stand before [y] when [comp]
    does not put [y] before [x]. *)
Definition may_precede (comp : T -> T -> bool) (x y : T) : Prop :=
  comp y x = false.

(** [thrust::sort(first, last, comp)]: the range is replaced by its
    elements in an order where no element is followed by one that
    [comp] puts before it. *)
Definition thrust_sort (first last : Z) (comp : T -> T -> bool) : Dev T unit :=
  launch ;;
  fun d =>
    write_array first
      (sort_list comp (read_array (mem d) first (Z.to_nat (last - first)))) d.
End Thrust.

(* ================================================================== *)
(** ** [gpu_src/my_gpu.h]: the templated generation                   *)
(* ================================================================== *)

Module GpuSrc.
Section WithScalar.
Context {T : Type} `{Scalar T}.

(** *** [GEN_linear_functor(name)]: [m * name(a * x + b)] *)

Record functor1 : Type := Functor1 { f1_a : T; f1_b : T; f1_m : T }.

(** [functor_##name(T _a = 1, T _b = 0, T _m = 1)] *)
Definition functor_ (_a _b _m : option T) : functor1 :=
  {| f1_a := dflt 1%S _a; f1_b := dflt 0%S _b; f1_m := dflt 1%S _m |}.

(** [operator()(const T& x)] of [functor_##name] *)
Definition functor_call (name : unary_name) (f : functor1) (x : T) : T :=
  (f1_m f * call1 name (f1_a f * x + f1_b f))%S.

(** *** [GEN_transf(name)] *)

(** [gpu_##name(begin, size, out, T a = 1, T b = 0, T m = 1)] *)
Definition gpu_ (name : unary_name) (begin size out : Z) (a b m : option T)
  : Dev T unit :=
  let a := dflt 1%S a in let b := dflt 0%S b in let m := dflt 1%S m in
  thrust_transform begin (begin + size) out
    (functor_call name (functor_ (Some a) (Some b) (Some m))).

(** Overload in == out: [gpu_##name(begin, size, T a = 1, T b = 0, T m = 1)] *)
Definition gpu_inplace (name : unary_name) (begin size : Z) (a b m : option T)
  : Dev T unit :=
  let a := dflt 1%S a in let b := dflt 0%S b in let m := dflt 1%S m in
  gpu_ name begin size begin (Some a) (Some b) (Some m).

(** *** [GEN_linear_functor_2(name)]: [m * name(a * x + b, p)] *)

Record functor2 : Type := Functor2 { f2_p : T; f2_a : T; f2_b : T; f2_m : T }.

(** [functor_##name(T _p, T _a = 1, T _b = 0, T _m = 0)] *)
Definition functor_2 (_p : T) (_a _b _m : option T) : functor2 :=
  {| f2_p := _p; f2_a := dflt 1%S _a; f2_b := dflt 0%S _b; f2_m := dflt 0%S _m |}.

Definition functor_2_call (name : binary_name) (f : functor2) (x : T) : T :=
  (f2_m f * call2 name (f2_a f * x + f2_b f) (f2_p f))%S.

(** *** [GEN_transf_2(name)] *)

(** [gpu_##name(begin, size, out, T p, T a = 1, T b = 0, T m = 1)] *)
Definition gpu_2 (name : binary_name) (begin size out : Z) (p : T)
    (a b m : option T) : Dev T unit :=
  let a := dflt 1%S a in let b := dflt 0%S b in let m := dflt 1%S m in
  thrust_transform begin (begin + size) out
    (functor_2_call name (functor_2 p (Some a) (Some b) (Some m))).

Definition gpu_2_inplace (name : binary_name) (begin size : Z) (p : T)
    (a b m : option T) : Dev T unit :=
  let a := dflt 1%S a in let b := dflt 0%S b in let m := dflt 1%S m in
  gpu_2 name begin size begin p (Some a) (Some b) (Some m).

(** *** Special case: the linear functor *)

Record functor_linear : Type := FunctorLinear { fl_a : T; fl_b : T }.

Definition functor_linear_ (_a _b : option T) : functor_linear :=
  {| fl_a := dflt 1%S _a; fl_b := dflt 0%S _b |}.

Definition functor_linear_call (f : functor_linear) (x : T) : T :=
  (fl_a f * x + fl_b f)%S.

(** [gpu_linear(begin, size, out, T a = 1, T b = 0)] *)
Definition gpu_linear (begin size out : Z) (a b : option T) : Dev T unit :=
  let a := dflt 1%S a in let b := dflt 0%S b in
  if s_eqb a 1%S && s_eqb b 0%S then   (* trivial linear, don't launch anything *)
    if negb (begin =? out) then          (* simply copy *)
      thrust_copy_n begin size out
    else ret tt                          (* else do nothing *)
  else
    thrust_transform begin (begin + size) out
      (functor_linear_call (functor_linear_ (Some a) (Some b))).

(** Overload in == out *)
Definition gpu_linear_inplace (begin size : Z) (a b : option T) : Dev T unit :=
  let a := dflt 1%S a in let b := dflt 0%S b in
  gpu_linear begin size begin (Some a) (Some b).

(** *** Correct all infinity to 0 *)

Record correct_inf_struct : Type := CorrectInfStruct { replaceVal : T }.

(** [operator()(T x)]: [fabs(x) > 1e5 ? replaceVal : x] *)
Definition correct_inf_struct_call (f : correct_inf_struct) (x : T) : T :=
  if s_ltb (s_of_Z 100000) (m_fabs x) then replaceVal f else x.

(** [gpu_correct_inf(begin, size, T replaceVal = 0)] *)
Definition gpu_correct_inf (begin size : Z) (replaceVal : option T) : Dev T unit :=
  let replaceVal := dflt 0%S replaceVal in
  thrust_transform begin (begin + size) begin
    (correct_inf_struct_call {| replaceVal := replaceVal |}).

(** *** Reductions and order statistics *)

Definition gpu_min (begin size : Z) : Dev T T :=
  m <- thrust_min_element s_ltb begin (begin + size) ;; load m.

Definition gpu_max (begin size : Z) : Dev T T :=
  m <- thrust_max_element s_ltb begin (begin + size) ;; load m.

(** [greater<T>] *)
Definition greater (x y : T) : bool := s_ltb y x.

(** [gpu_sort(begin, size, int dir = 1)] *)
Definition gpu_sort (begin size : Z) (dir : option Z) : Dev T unit :=
  let dir := dflt 1 dir in
  if dir >? 0 then thrust_sort begin (begin + size) s_ltb
  else (* descending sort *) thrust_sort begin (begin + size) greater.

(** [functor_scale_mult]: [s * x * y] *)
Record functor_scale_mult : Type := FunctorScaleMult { fsm_s : T }.

Definition functor_scale_mult_ (_s : option T) : functor_scale_mult :=
  {| fsm_s := dflt 1%S _s |}.

Definition functor_scale_mult_call (f : functor_scale_mult) (x y : T) : T :=
  (fsm_s f * x * y)%S.

(** [begin2 = begin1 .* begin2]:
    [gpu_dot_mult(begin1, size, begin2, float scalor = 1)].  The scale is
    a [float] that the functor stores as a [T]; it is taken here as the
    [T] it becomes. *)
Definition gpu_dot_mult_inplace (begin1 size begin2 : Z) (scalor : option T)
  : Dev T unit :=
  let scalor := dflt 1%S scalor in
  thrust_transform2 begin1 (begin1 + size) begin2 begin2
    (functor_scale_mult_call (functor_scale_mult_ (Some scalor))).

(** [out = begin1 .* begin2]:
    [gpu_dot_mult(begin1, size, begin2, out, float scalor = 1)] *)
Definition gpu_dot_mult (begin1 size begin2 out : Z) (scalor : option T)
  : Dev T unit :=
  let scalor := dflt 1%S scalor in
  thrust_transform2 begin1 (begin1 + size) begin2 out
    (functor_scale_mult_call (functor_scale_mult_ (Some scalor))).

Definition gpu_sum (begin size : Z) : Dev T T :=
  thrust_reduce begin (begin + size) 0%S s_add.

Definition gpu_product (begin size : Z) : Dev T T :=
  thrust_reduce begin (begin + size) 1%S s_mul.

Definition gpu_fill (begin size : Z) (val : T) : Dev T unit :=
  thrust_fill_n begin size val.

Definition gpu_copy (begin size out : Z) : Dev T unit :=
  thrust_copy begin (begin + size) out.

(** Swap two arrays *)
Definition gpu_swap (begin size out : Z) : Dev T unit :=
  thrust_swap_ranges begin (begin + size) out.

Definition gpu_set_single (begin offset : Z) (newVal : T) : Dev T unit :=
  store (begin + offset) newVal.

Definition gpu_incr_single (begin offset : Z) (incrVal : T) : Dev T unit :=
  x <- load (begin + offset) ;; store (begin + offset) (x + incrVal)%S.

(** *** Composite kernels *)

(** [gpu_softmax(begin, size, out)] *)
Definition gpu_softmax (begin size out : Z) : Dev T unit :=
  mx <- gpu_max begin size ;;
  gpu_ N_exp begin size out (Some 1%S) (Some (- mx)%S) None ;;
  s <- gpu_sum out size ;;
  gpu_linear_inplace out size (Some (1 / s)%S) (Some 0%S).

(** Overload: in == out *)
Definition gpu_softmax_inplace (begin size : Z) : Dev T unit :=
  gpu_softmax begin size begin.

(** [gpu_softmax_minus_id(begin, size, out, label)] *)
Definition gpu_softmax_minus_id (begin size out label : Z) : Dev T unit :=
  gpu_softmax begin size out ;;
  x <- load (out + label) ;; store (out + label) (x - 1)%S.

(** Overload: in == out *)
Definition gpu_softmax_minus_id_inplace (begin size label : Z) : Dev T unit :=
  gpu_softmax_minus_id begin size begin label.

(** [gpu_softmax_at_label(begin, size, label, outLogProb)] *)
Definition gpu_softmax_at_label (begin size label outLogProb : Z) : Dev T T :=
  mx <- gpu_max begin size ;;
  expSum <- thrust_transform_reduce begin (begin + size)
              (functor_call N_exp (functor_ (Some 1%S) (Some (- mx)%S) None))
              0%S s_add ;;
  xl <- load (begin + label) ;;
  let sumLogProb := ((xl - mx) - m_log expSum)%S in
  store (outLogProb + 0) sumLogProb ;;
  ret sumLogProb.

Definition gpu_log_sum (begin size : Z) : Dev T T :=
  thrust_transform_reduce begin (begin + size)
    (functor_call N_log (functor_ None None None)) 0%S s_add.

Definition gpu_square_sum (begin size : Z) : Dev T T :=
  thrust_transform_reduce begin (begin + size)
    (functor_call N_square (functor_ None None None)) 0%S s_add.

Definition gpu_abs_sum (begin size : Z) : Dev T T :=
  thrust_transform_reduce begin (begin + size)
    (functor_call N_fabs (functor_ None None None)) 0%S s_add.

(** [gpu_softmax_minus_id_2(begin, size, id)], deprecated:
    [A = exp(A - (mx + log(sum(exp(A - mx)))))], then one less at [id].
    The source declares it for [float] arrays only; the element type is
    kept a parameter here so that the routine can be run on the
    binary32 numbers and, for what it computes in exact arithmetic, on
    the reals. *)
Definition gpu_softmax_minus_id_2 (begin size id : Z) : Dev T unit :=
  mx <- gpu_max begin size ;;
  s <- thrust_transform_reduce begin (begin + size)
         (functor_call N_exp (functor_ (Some 1%S) (Some (- mx)%S) None))
         0%S s_add ;;
  let logsum := m_log s in
  gpu_inplace N_exp begin size (Some 1%S) (Some (- (mx + logsum))%S) None ;;
  x <- load (begin + id) ;; store (begin + id) (x - 1)%S.

(** *** Random normal fill *)

(** [thrust::minstd_rand]: the Lehmer generator
    [x <- 48271 * x mod (2^31 - 1)], default seed 1. *)
Record minstd_rand : Type := MinstdRand { rng_x : Z }.

Definition minstd_rand_ : minstd_rand := {| rng_x := 1 |}.

Definition minstd_step (x : Z) : Z := (48271 * x) mod 2147483647.

(** [rng()] *)
Definition rng_next (e : minstd_rand) : Z * minstd_rand :=
  let x := minstd_step (rng_x e) in
  (x, {| rng_x := x |}).

(** [rng.discard(z)] *)
Fixpoint rng_discard (z : nat) (e : minstd_rand) : minstd_rand :=
  match z with
  | O => e
  | S k => rng_discard k (snd (rng_next e))
  end.

(** [thrust::random::normal_distribution<T>]: device code draws one
    engine value and maps it through the inverse error function; that
    map, [normal_deviate], belongs to Thrust and is a parameter. *)
Variable normal_deviate : Z -> T.

Record normal_distribution : Type :=
  NormalDistribution { nd_mean : T; nd_stddev : T }.

(** [dist(rng)] *)
Definition normal_distribution_call (dist : normal_distribution)
    (e : minstd_rand) : T * minstd_rand :=
  let (u, e') := rng_next e in
  ((nd_mean dist + nd_stddev dist * normal_deviate u)%S, e').

Record rand_normal_struct : Type :=
  RandNormalStruct { rns_rng : minstd_rand; rns_dist : normal_distribution }.

(** [rand_normal_struct(T mean, T stddev) : dist(mean, stddev)] *)
Definition rand_normal_struct_ (mean stddev : T) : rand_normal_struct :=
  {| rns_rng := minstd_rand_;
     rns_dist := {| nd_mean := mean; nd_stddev := stddev |} |}.

(** [operator()(uint64_t index)]: skip past numbers used in previous
    threads, then sample.  Both act on the member [rng]: the functor
    returned is the functor as the call leaves it. *)
Definition rand_normal_struct_call (f : rand_normal_struct) (index : Z)
  : T * rand_normal_struct :=
  let rng := rng_discard (Z.to_nat index) (rns_rng f) in
  let (x, rng') := normal_distribution_call (rns_dist f) rng in
  (x, {| rns_rng := rng'; rns_dist := rns_dist f |}).

(** [gpu_fill_rand_normal(begin, size, mean, stddev)]: one functor is
    constructed and handed to [transform] over the indices
    [0 .. size - 1]; [schedule] is the way Thrust divides them among the
    copies of the functor. *)
Definition gpu_fill_rand_normal (schedule : Z -> Z -> list (list Z))
    (begin size : Z) (mean stddev : T) : Dev T unit :=
  thrust_transform_counting schedule 0 size begin
    rand_normal_struct_call (rand_normal_struct_ mean stddev).
End WithScalar.
End GpuSrc.

(* ================================================================== *)
(** ** [MyThrust/my_gpu.h]: the macro-generated generation            *)
(* ================================================================== *)

Module MyThrust.

(** The names [GEN_transf] is instantiated with in [MyThrust/my_gpu.h]:
    sixteen functions of [<cmath>], which are overloaded for [float] and
    [double], and eight helpers that the header declares itself. *)
Inductive name : Type :=
| M_exp | M_log | M_log10 | M_sqrt
| M_cos | M_sin | M_tan | M_acos | M_asin | M_atan
| M_cosh | M_sinh | M_tanh
| M_fabs | M_floor | M_ceil
| M_sigmoid | M_sigmoid_deriv | M_square | M_cube | M_reciprocal
| M_cauchy | M_laplacian | M_signum.

(** [Ftype], the macro argument: [float] or [double].  The helpers of
    this header are declared as [inline float name(float x)] whatever
    [Ftype] is, so a generated functor converts its [Ftype] argument to
    [float] on the way in and the [float] result to [Ftype] on the way
    out.  For [Ftype = float] the two conversions are the identity. *)
Class Ftype (T : Type) : Type := {
  float : Type;
  float_scalar : Scalar float;
  to_float : T -> float;        (* an [Ftype] argument to a [float] parameter *)
  of_float : float -> T         (* a [float] result to the [Ftype] result *)
}.

Section WithScalar.
Context {T : Type} `{Scalar T} `{Ftype T}.
Local Existing Instance float_scalar.

(** *** The helpers, on [float] *)

Definition sigmoid (x : float) : float := (1 / (1 + m_exp (- x)))%S.
Definition sigmoid_deriv (x : float) : float := (x * (1 - x))%S.
Definition square (x : float) : float := (x * x)%S.
Definition cube (x : float) : float := (x * x * x)%S.
Definition reciprocal (x : float) : float := (1 / x)%S.
Definition cauchy (x : float) : float := m_tan (s_pi * (x - s_half))%S.
Definition signum (val : float) : float :=
  s_of_Z (b2z (s_ltb 0%S val) - b2z (s_ltb val 0%S)).
Definition laplacian (x : float) : float :=
  let x := (x - s_half)%S in
  (- signum x * m_log (1 - 2 * m_fabs x))%S.

(** A [float] helper called on an [Ftype] argument inside a functor
    that returns [Ftype]. *)
Definition call_helper (h : float -> float) (x : T) : T :=
  of_float (h (to_float x)).

(** The macro argument [name]; [None] is the empty argument of
    [GEN_transf()], for which [name(x)] is just [(x)]. *)
Definition call_name (name : option name) : T -> T :=
  match name with
  | None => fun x => x
  | Some M_exp => m_exp | Some M_log => m_log
  | Some M_log10 => m_log10 | Some M_sqrt => m_sqrt
  | Some M_cos => m_cos | Some M_sin => m_sin | Some M_tan => m_tan
  | Some M_acos => m_acos | Some M_asin => m_asin | Some M_atan => m_atan
  | Some M_cosh => m_cosh | Some M_sinh => m_sinh | Some M_tanh => m_tanh
  | Some M_fabs => m_fabs | Some M_floor => m_floor | Some M_ceil => m_ceil
  | Some M_sigmoid => call_helper sigmoid
  | Some M_sigmoid_deriv => call_helper sigmoid_deriv
  | Some M_square => call_helper square
  | Some M_cube => call_helper cube
  | Some M_reciprocal => call_helper reciprocal
  | Some M_cauchy => call_helper cauchy
  | Some M_laplacian => call_helper laplacian
  | Some M_signum => call_helper signum
  end.

(** *** [GEN_linear_functor(name, Ftype)] *)
Definition functor_0 (name : option name) (x : T) : T := call_name name x.
Definition functor_1 (name : option name) (b : T) (x : T) : T :=
  call_name name (x + b)%S.
Definition functor_2 (name : option name) (a : T) (x : T) : T :=
  call_name name (a * x)%S.
Definition functor_3 (name : option name) (a b : T) (x : T) : T :=
  call_name name (a * x + b)%S.

(** *** [GEN_transf_ftype(name, Ftype)] *)

(** [gpu_##name##_##Ftype(begin, size, out, Ftype a = 1, Ftype b = 0)] *)
Definition gpu_ (name : option name) (begin size out : Z) (a b : option T)
  : Dev T unit :=
  let a := dflt 1%S a in let b := dflt 0%S b in
  if s_eqb a 1%S && s_eqb b 0%S then
    thrust_transform begin (begin + size) out (functor_0 name)
  else if s_eqb a 1%S then
    thrust_transform begin (begin + size) out (functor_1 name b)
  else if s_eqb b 0%S then
    thrust_transform begin (begin + size) out (functor_2 name a)
  else
    thrust_transform begin (begin + size) out (functor_3 name a b).

(** [gpu_##name##_##Ftype(begin, size, Ftype a = 1, Ftype b = 0)] *)
Definition gpu_inplace (name : option name) (begin size : Z) (a b : option T)
  : Dev T unit :=
  let a := dflt 1%S a in let b := dflt 0%S b in
  if s_eqb a 1%S && s_eqb b 0%S then
    thrust_transform begin (begin + size) begin (functor_0 name)
  else if s_eqb a 1%S then
    thrust_transform begin (begin + size) begin (functor_1 name b)
  else if s_eqb b 0%S then
    thrust_transform begin (begin + size) begin (functor_2 name a)
  else
    thrust_transform begin (begin + size) begin (functor_3 name a b).

(** *** [GEN_sort(Ftype)] *)
Definition gpu_sort (begin size : Z) (dir : option Z) : Dev T unit :=
  let dir := dflt 1 dir in
  if dir >? 0 then thrust_sort begin (begin + size) s_ltb
  else thrust_sort begin (begin + size) (fun x y => s_ltb y x).

(** *** [GEN_linear_functor_2(name, Ftype)] *)
Definition functor2_0 (name : binary_name) (p : T) (x : T) : T := call2 name x p.
Definition functor2_1 (name : binary_name) (p b : T) (x : T) : T :=
  call2 name (x + b)%S p.
Definition functor2_2 (name : binary_name) (p a : T) (x : T) : T :=
  call2 name (a * x)%S p.
Definition functor2_3 (name : binary_name) (p a b : T) (x : T) : T :=
  call2 name (a * x + b)%S p.

(** *** [GEN_transf_ftype_2(name, Ftype)] *)

(** [gpu_##name##_##Ftype(begin, size, out, Ftype p, Ftype a = 1, Ftype b = 0)] *)
Definition gpu_2 (name : binary_name) (begin size out : Z) (p : T) (a b : option T)
  : Dev T unit :=
  let a := dflt 1%S a in let b := dflt 0%S b in
  if s_eqb a 1%S && s_eqb b 0%S then
    thrust_transform begin (begin + size) out (functor2_0 name p)
  else if s_eqb a 1%S then
    thrust_transform begin (begin + size) out (functor2_1 name p b)
  else if s_eqb b 0%S then
    thrust_transform begin (begin + size) out (functor2_2 name p a)
  else
    thrust_transform begin (begin + size) out (functor2_3 name p a b).

(** [gpu_##name##_##Ftype(begin, size, Ftype p, Ftype a = 1, Ftype b = 0)] *)
Definition gpu_2_inplace (name : binary_name) (begin size : Z) (p : T) (a b : option T)
  : Dev T unit :=
  let a := dflt 1%S a in let b := dflt 0%S b in
  if s_eqb a 1%S && s_eqb b 0%S then
    thrust_transform begin (begin + size) begin (functor2_0 name p)
  else if s_eqb a 1%S then
    thrust_transform begin (begin + size) begin (functor2_1 name p b)
  else if s_eqb b 0%S then
    thrust_transform begin (begin + size) begin (functor2_2 name p a)
  else
    thrust_transform begin (begin + size) begin (functor2_3 name p a b).

(** *** [GEN_dot_mult(Ftype)] *)

(** [begin2 = begin1 .* begin2] *)
Definition gpu_dot_mult_inplace (begin1 size begin2 : Z) : Dev T unit :=
  thrust_transform2 begin1 (begin1 + size) begin2 begin2 s_mul.

(** [out = begin1 .* begin2] *)
Definition gpu_dot_mult (begin1 size begin2 out : Z) : Dev T unit :=
  thrust_transform2 begin1 (begin1 + size) begin2 out s_mul.

(** *** Kernel launch shapes *)

Record dim3 : Type := Dim3 { dx : Z; dy : Z; dz : Z }.
Definition dim3_ (x y z : option Z) : dim3 :=
  {| dx := dflt 1 x; dy := dflt 1 y; dz := dflt 1 z |}.

(** [setKernelDim1D(threads, gridDim, blockDim)]: the two output
    parameters are returned. *)
Definition setKernelDim1D (threads : Z) (gridDim blockDim : dim3) : dim3 * dim3 :=
  if threads >? 1024 then
    ({| dx := Z.quot threads 1024 + 1; dy := dy gridDim; dz := dz gridDim |},
     {| dx := 1024; dy := dy blockDim; dz := dz blockDim |})
  else if Z.rem threads 32 =? 0 then
    (gridDim, {| dx := threads; dy := dy blockDim; dz := dz blockDim |})
  else
    (gridDim,
     {| dx := (Z.quot threads 32 + 1) * 32; dy := dy blockDim; dz := dz blockDim |}).

(** *** Fill a column / a row of a column-major matrix *)

(** [gpu_fill_col_float(begin, row, col, colIdx, val)] *)
Definition gpu_fill_col_float (begin row col colIdx : Z) (val : T) : Dev T unit :=
  let colIdx := if colIdx <? 0 then colIdx + col else colIdx in
  thrust_fill_n (begin + row * colIdx) row val.

(** [gpu_fill_row_float_kernel], one thread; [ThreadIndex1D(idx, col)]
    returns when [idx >= col]. *)
Definition gpu_fill_row_float_kernel (begin row col rowIdx : Z) (val : T)
    (blockIdx blockDim threadIdx : dim3) : Dev T unit :=
  let idx := dx blockIdx * dx blockDim + dx threadIdx in
  if idx >=? col then ret tt   (* out of bound *)
  else store (begin + (row * idx + rowIdx)) val.

(** [kernel<<<gridDim, blockDim>>>] for a one-dimensional shape: every
    thread of every block runs the body. *)
Definition launch_1D (gridDim blockDim : dim3)
    (kernel : dim3 -> dim3 -> dim3 -> Dev T unit) : Dev T unit :=
  launch ;;
  for_loop (Z.to_nat (dx gridDim)) 0 (fun bx =>
    for_loop (Z.to_nat (dx blockDim)) 0 (fun tx =>
      kernel (dim3_ (Some bx) None None) blockDim (dim3_ (Some tx) None None))).

(** [gpu_fill_row_float(begin, row, col, rowIdx, val)] *)
Definition gpu_fill_row_float (begin row col rowIdx : Z) (val : T) : Dev T unit :=
  let (gridDim, blockDim) :=
    setKernelDim1D col (dim3_ None None None) (dim3_ None None None) in
  let rowIdx := if rowIdx <? 0 then rowIdx + row else rowIdx in
  launch_1D gridDim blockDim (gpu_fill_row_float_kernel begin row col rowIdx val).

(** *** Matrix transposition *)

Definition BLOCK_DIM : Z := 16.

(** [unsigned int]: values wrap modulo [2^32]. *)
Definition u32 (z : Z) : Z := z mod 4294967296.

(** [__shared__ float block[BLOCK_DIM][BLOCK_DIM + 1]] of one thread block. *)
Definition tile : Type := Z -> Z -> T.
Definition tile_set (block : tile) (i j : Z) (v : T) : tile :=
  fun i' j' => if (i' =? i) && (j' =? j) then v else block i' j'.

(** What shared memory holds when a block starts. *)
Variable shared_garbage : T.

(** [gpu_transpose_float_kernel], one thread, up to [__syncthreads()]:
    read the matrix tile into shared memory. *)
Definition transpose_read (in_ width height : Z) (blockIdx threadIdx : dim3)
    (m : Z -> T) (block : tile) : tile :=
  let xIndex := u32 (dx blockIdx * BLOCK_DIM + dx threadIdx) in
  let yIndex := u32 (dy blockIdx * BLOCK_DIM + dy threadIdx) in
  if (xIndex <? u32 width) && (yIndex <? u32 height) then
    let index_in := u32 (yIndex * u32 width + xIndex) in
    tile_set block (dy threadIdx) (dx threadIdx) (m (in_ + index_in))
  else block.

(** [gpu_transpose_float_kernel], one thread, after [__syncthreads()]:
    write the transposed matrix tile to global memory. *)
Definition transpose_write (width height out : Z) (blockIdx threadIdx : dim3)
    (block : tile) : Dev T unit :=
  let xIndex := u32 (dy blockIdx * BLOCK_DIM + dx threadIdx) in
  let yIndex := u32 (dx blockIdx * BLOCK_DIM + dy threadIdx) in
  if (xIndex <? u32 height) && (yIndex <? u32 width) then
    let index_out := u32 (yIndex * u32 height + xIndex) in
    store (out + index_out) (block (dx threadIdx) (dy threadIdx))
  else ret tt.

(** The threads of a [blockDim.x] by [blockDim.y] block. *)
Definition block_threads (blockDim : dim3) : list dim3 :=
  flat_map (fun ty =>
    map (fun tx => dim3_ (Some (Z.of_nat tx)) (Some (Z.of_nat ty)) None)
        (seq 0 (Z.to_nat (dx blockDim))))
    (seq 0 (Z.to_nat (dy blockDim))).

(** One thread block of [gpu_transpose_float_kernel]: all its threads
    reach the barrier, then all go on. *)
Definition gpu_transpose_float_kernel_block (in_ width height out : Z)
    (blockDim blockIdx : dim3) : Dev T unit :=
  fun d =>
    let block :=
      fold_left (fun b t => transpose_read in_ width height blockIdx t (mem d) b)
                (block_threads blockDim) (fun _ _ => shared_garbage) in
    fold_left (fun c t => c ;; transpose_write width height out blockIdx t block)
              (block_threads blockDim) (ret tt) d.

(** [kernel<<<gridDim, blockDim>>>] for a two-dimensional shape. *)
Definition launch_2D (gridDim : dim3) (block_body : dim3 -> Dev T unit)
  : Dev T unit :=
  launch ;;
  for_loop (Z.to_nat (dy gridDim)) 0 (fun by_ =>
    for_loop (Z.to_nat (dx gridDim)) 0 (fun bx =>
      block_body (dim3_ (Some bx) (Some by_) None))).

(** [gpu_transpose_float(in, row, col, out)]: transposes [in] and
    fills [out]. *)
Definition gpu_transpose_float (in_ row col out : Z) : Dev T unit :=
  let gridDim :=
    dim3_ (Some (Z.max (Z.quot row BLOCK_DIM) 1))
          (Some (Z.max (Z.quot col BLOCK_DIM) 1)) None in
  let blockDim := dim3_ (Some BLOCK_DIM) (Some BLOCK_DIM) None in
  launch_2D gridDim
    (gpu_transpose_float_kernel_block in_ row col out blockDim).
End WithScalar.
End MyThrust.

(* ================================================================== *)
(** ** The scalar structure of real numbers                           *)
(* ================================================================== *)

(** Exact arithmetic and the mathematical functions that [<cmath>]
    approximates. *)
Module RealScalar.
Local Open Scope R_scope.

Definition Rltb (x y : R) : bool := if Rlt_dec x y then true else false.
Definition Reqb (x y : R) : bool := if Req_dec_T x y then true else false.

Definition Rfloor (x : R) : R := IZR (Int_part x).
Definition Rceil (x : R) : R := - IZR (Int_part (- x)).
(** Rounding toward zero. *)
Definition Rtrunc (x : R) : R := if Rle_dec 0 x then Rfloor x else Rceil x.
Definition Rlog10 (x : R) : R := ln x / ln 10.
(** [pow(x, y)]: an integer exponent by repeated multiplication; another
    exponent through [exp(y * ln x)] when the base is positive, and
    [pow(0, y) = 0] for [y > 0].  Where [<cmath>] has no finite result
    (a zero base with a negative exponent, a negative base with an
    exponent that is not an integer) the reals have none either, and 0
    stands there. *)
Definition Rpow (x y : R) : R :=
  if Req_dec_T y (Rfloor y) then powerRZ x (Int_part y)
  else if Rlt_dec 0 x then Rpower x y
  else 0.
(** [fmod(x, y) = x - trunc(x / y) * y] *)
Definition Rfmod (x y : R) : R := x - Rtrunc (x / y) * y.

#[export] Instance R_Scalar : Scalar R := {|
  s_of_Z := IZR;
  s_half := / 2;
  s_pi := PI;
  s_add := Rplus;
  s_sub := Rminus;
  s_mul := Rmult;
  s_div := Rdiv;
  s_neg := Ropp;
  s_ltb := Rltb;
  s_eqb := Reqb;
  m_exp := exp;
  m_log := ln;
  m_log10 := Rlog10;
  m_sqrt := sqrt;
  m_cos := cos;
  m_sin := sin;
  m_tan := tan;
  m_acos := acos;
  m_asin := asin;
  m_atan := atan;
  m_cosh := cosh;
  m_sinh := sinh;
  m_tanh := tanh;
  m_fabs := Rabs;
  m_floor := Rfloor;
  m_ceil := Rceil;
  m_pow := Rpow;
  m_fmod := Rfmod
|}.

(** In exact arithmetic [float] and [Ftype] are the same reals and the
    conversions between them change nothing. *)
#[export] Instance R_Ftype : MyThrust.Ftype R := {|
  MyThrust.float := R;
  MyThrust.float_scalar := R_Scalar;
  MyThrust.to_float := fun x => x;
  MyThrust.of_float := fun x => x
|}.

(** Sum of a list of reals. *)
Definition Rsum (l : list R) : R := fold_right Rplus 0 l.

(** Product of a list of reals. *)
Definition Rprod (l : list R) : R := fold_right Rmult 1 l.

(** The distribution functions that the quantile transforms [cauchy] and
    [laplacian] invert: the standard Cauchy and the standard Laplace
    distribution. *)
Definition cauchy_cdf (x : R) : R := / 2 + atan x / PI.
Definition laplace_cdf (x : R) : R :=
  if Rlt_dec x 0 then exp x / 2 else 1 - exp (- x) / 2.
End RealScalar.
Import RealScalar.

(* ================================================================== *)
(** ** The scalar structure of binary32 numbers                       *)
(* ================================================================== *)

(** [float] as the real numbers that IEEE 754 binary32 represents, with
    every operation and every function of the math library returning
    the representable number nearest to the exact result (ties to the
    even significand).  The CUDA math library is accurate to a few units
    in the last place and not always correctly rounded; what is shown on
    this instance uses bounds that are a factor of two wide.  Infinities
    and NaN are not numbers of the instance: a result beyond the finite
    range is not treated apart. *)
Module Binary32.
Local Open Scope R_scope.

(** The nearest integer, the even one of two nearest. *)
Definition rne (y : R) : Z :=
  let n := Int_part y in
  let r := y - IZR n in
  if Rlt_dec r (/ 2) then n
  else if Rlt_dec (/ 2) r then (n + 1)%Z
  else if Z.even n then n else (n + 1)%Z.

(** The exponent [e] with [2^e <= |x| < 2^(e+1)], not below the least
    exponent of a normal number. *)
Definition binade (x : R) : Z :=
  Z.max (-126) (Int_part (ln (Rabs x) / ln 2)).

(** The distance between neighbouring binary32 numbers around [x]: the
    significand has 24 bits. *)
Definition ulp (x : R) : R := powerRZ 2 (binade x - 23).

(** Rounding to binary32. *)
Definition RN (x : R) : R := IZR (rne (x / ulp x)) * ulp x.

Definition F32_Scalar : Scalar R := {|
  s_of_Z := fun z => RN (IZR z);
  s_half := / 2;
  s_pi := RN PI;
  s_add := fun x y => RN (x + y);
  s_sub := fun x y => RN (x - y);
  s_mul := fun x y => RN (x * y);
  s_div := fun x y => RN (x / y);
  s_neg := Ropp;
  s_ltb := Rltb;
  s_eqb := Reqb;
  m_exp := fun x => RN (exp x);
  m_log := fun x => RN (ln x);
  m_log10 := fun x => RN (Rlog10 x);
  m_sqrt := fun x => RN (sqrt x);
  m_cos := fun x => RN (cos x);
  m_sin := fun x => RN (sin x);
  m_tan := fun x => RN (tan x);
  m_acos := fun x => RN (acos x);
  m_asin := fun x => RN (asin x);
  m_atan := fun x => RN (atan x);
  m_cosh := fun x => RN (cosh x);
  m_sinh := fun x => RN (sinh x);
  m_tanh := fun x => RN (tanh x);
  m_fabs := Rabs;
  m_floor := Rfloor;
  m_ceil := Rceil;
  m_pow := fun x y => RN (Rpow x y);
  m_fmod := Rfmod
|}.
End Binary32.

(* ================================================================== *)
(** ** Sample inputs                                                  *)
(* ================================================================== *)

(** A device whose memory holds, at each address, that address as a
    real number; nothing launched yet. *)
Definition ramp_device : device R := {| mem := IZR; launches := 0 |}.

(** A device whose memory holds the given list from address 0 on, and
    zero elsewhere. *)
Definition list_device (l : list R) : device R :=
  {| mem := fun q => if q <? 0 then 0%R else nth (Z.to_nat q) l 0%R;
     launches := 0 |}.

(* ================================================================== *)
(** ** Names of the two generations                                   *)
(* ================================================================== *)

(** The name of [gpu_src/my_gpu.h] that is spelled like a name of
    [MyThrust/my_gpu.h]. *)
Definition templated_name (n : MyThrust.name) : unary_name :=
  match n with
  | MyThrust.M_exp => N_exp | MyThrust.M_log => N_log
  | MyThrust.M_log10 => N_log10 | MyThrust.M_sqrt => N_sqrt
  | MyThrust.M_cos => N_cos | MyThrust.M_sin => N_sin | MyThrust.M_tan => N_tan
  | MyThrust.M_acos => N_acos | MyThrust.M_asin => N_asin
  | MyThrust.M_atan => N_atan
  | MyThrust.M_cosh => N_cosh | MyThrust.M_sinh => N_sinh
  | MyThrust.M_tanh => N_tanh
  | MyThrust.M_fabs => N_fabs | MyThrust.M_floor => N_floor
  | MyThrust.M_ceil => N_ceil
  | MyThrust.M_sigmoid => N_sigmoid
  | MyThrust.M_sigmoid_deriv => N_sigmoid_deriv
  | MyThrust.M_square => N_square | MyThrust.M_cube => N_cube
  | MyThrust.M_reciprocal => N_reciprocal
  | MyThrust.M_cauchy => N_cauchy | MyThrust.M_laplacian => N_laplacian
  | MyThrust.M_signum => N_signum
  end.

(* ================================================================== *)
(** ** Stream positions of the random fill                            *)
(* ================================================================== *)

(** Two ways of dividing the indices [first .. last - 1] among copies
    of a functor. *)

(** One copy per index. *)
Definition one_index_per_copy (first last : Z) : list (list Z) :=
  map (fun k => [first + Z.of_nat k]) (seq 0 (Z.to_nat (last - first))).

(** Tiles of [threads * items] consecutive indices, one block of
    [threads] threads per tile: thread [t] of a tile serves the indices
    [tile_base + threads * k + t], [k = 0 .. items - 1], that are inside
    the range.  This is the shape of the parallel loop of Thrust's CUDA
    back end, which runs blocks of 256 threads with 2 items per thread. *)
Definition tile_thread (threads items : nat) (tile_base last : Z) (t : nat)
  : list Z :=
  filter (fun i => i <? last)
    (map (fun k => tile_base + Z.of_nat (threads * k + t)) (seq 0 items)).

Definition tiled (threads items : nat) (first last : Z) : list (list Z) :=
  let tile := (threads * items)%nat in
  let n := Z.to_nat (last - first) in
  flat_map
    (fun b => map (tile_thread threads items (first + Z.of_nat (b * tile)) last)
                  (seq 0 threads))
    (seq 0 ((n + tile - 1) / tile)).

(** Every index of the list occurs once. *)
Fixpoint distinctb (l : list Z) : bool :=
  match l with
  | [] => true
  | x :: r => negb (existsb (Z.eqb x) r) && distinctb r
  end.

(** The value that a default-seeded engine produces on its draw number
    [p], counting from 0: its stream position [p]. *)
Definition stream_value (p : nat) : Z :=
  GpuSrc.rng_x (GpuSrc.rng_discard (S p) GpuSrc.minstd_rand_).

(** The stream position that a copy of the random functor samples for
    index [i], when the copy's engine stands at position [pos] and the
    copy serves [idxs]: the call for [j] skips [j] positions and samples
    the next one. *)
Fixpoint copy_position (pos : nat) (idxs : list Z) (i : Z) : option nat :=
  match idxs with
  | [] => None
  | j :: rest =>
      let p := (pos + Z.to_nat j)%nat in
      if j =? i then Some p else copy_position (S p) rest i
  end.

(** The stream position sampled for index [i] under a schedule: every
    copy starts at position 0. *)
Fixpoint sampled_position (copies : list (list Z)) (i : Z) : option nat :=
  match copies with
  | [] => None
  | idxs :: rest =>
      match copy_position 0 idxs i with
      | Some p => Some p
      | None => sampled_position rest i
      end
  end.

(* ================================================================== *)
(** ** Computations that set the elements of a set of addresses        *)
(* ================================================================== *)

(** [writes c A F]: running [c] leaves [F q] at every address [q] of
    [A] and leaves every other address as it was. *)
Definition writes {T : Type} (c : Dev T unit) (A : Z -> Prop) (F : Z -> T) : Prop :=
  forall (d : device T) (q : Z),
    (A q /\ mem (exec c d) q = F q) \/ (~ A q /\ mem (exec c d) q = mem d q).

(** [fills c A val]: running [c] leaves [val] at the addresses in [A]
    and leaves every other address as it was. *)
Definition fills {T : Type} (c : Dev T unit) (A : Z -> Prop) (val : T) : Prop :=
  writes c A (fun _ => val).

(* ================================================================== *)
(** * Properties                                                      *)
(* ================================================================== *)

(** ** Running device computations *)

(** Case analysis on the integer comparisons of the goal. *)
Ltac zcases :=
  repeat match goal with
    | |- context [?a <=? ?b] => destruct (Z.leb_spec a b)
    | |- context [?a <? ?b] => destruct (Z.ltb_spec a b)
    | |- context [?a =? ?b] => destruct (Z.eqb_spec a b)
    end;
  cbn [andb orb negb]; try reflexivity; try lia.

Section DevFacts.
Context {T : Type}.
Implicit Types (d : device T) (q p : Z).

Lemma exec_bind {A B} (c : Dev T A) (k : A -> Dev T B) d :
  exec (bind c k) d = exec (k (eval c d)) (exec c d).
Proof. unfold exec, eval, bind. destruct (c d); reflexivity. Qed.

Lemma eval_bind {A B} (c : Dev T A) (k : A -> Dev T B) d :
  eval (bind c k) d = eval (k (eval c d)) (exec c d).
Proof. unfold exec, eval, bind. destruct (c d); reflexivity. Qed.

Lemma exec_ret {A} (a : A) d : exec (ret a) d = d.
Proof. reflexivity. Qed.

Lemma eval_ret {A} (a : A) d : eval (ret a) d = a.
Proof. reflexivity. Qed.

Lemma exec_load p d : exec (load p) d = d.
Proof. reflexivity. Qed.

Lemma eval_load p d : eval (load p) d = mem d p.
Proof. reflexivity. Qed.

Lemma mem_store p v d q :
  mem (exec (store p v) d) q = if q =? p then v else mem d q.
Proof. reflexivity. Qed.

Lemma launches_store p v d : launches (exec (store p v) d) = launches d.
Proof. reflexivity. Qed.

Lemma mem_launch d : mem (exec launch d) = mem d.
Proof. reflexivity. Qed.

Lemma launches_launch d : launches (exec launch d) = S (launches d).
Proof. reflexivity. Qed.

Lemma upd_same (m : Z -> T) p v : upd m p v p = v.
Proof. unfold upd. now rewrite Z.eqb_refl. Qed.

Lemma upd_other (m : Z -> T) p v q : q <> p -> upd m p v q = m q.
Proof. unfold upd. intros Hq. now apply Z.eqb_neq in Hq as ->. Qed.

(** *** Arrays read from a memory *)

Lemma read_array_length (m : Z -> T) p n : length (read_array m p n) = n.
Proof. unfold read_array. now rewrite length_map, length_seq. Qed.

Lemma read_array_S (m : Z -> T) p n :
  read_array m p (S n) = m p :: read_array m (p + 1) n.
Proof.
  unfold read_array. simpl. rewrite Z.add_0_r. f_equal.
  rewrite <- seq_shift, map_map. apply map_ext. intros i. f_equal. lia.
Qed.

Lemma read_array_ext (m1 m2 : Z -> T) p n :
  (forall i, 0 <= i < Z.of_nat n -> m1 (p + i) = m2 (p + i)) ->
  read_array m1 p n = read_array m2 p n.
Proof.
  intros E. unfold read_array. apply map_ext_in. intros i Hi.
  apply in_seq in Hi. apply E. lia.
Qed.

Lemma read_array_nth (m : Z -> T) p n i dflt_ :
  (i < n)%nat -> nth i (read_array m p n) dflt_ = m (p + Z.of_nat i).
Proof.
  intros Hi. unfold read_array.
  rewrite nth_indep with (d' := m (p + Z.of_nat 0))
    by (now rewrite length_map, length_seq).
  rewrite (map_nth (fun i => m (p + Z.of_nat i)) (seq 0 n) 0%nat i).
  now rewrite seq_nth.
Qed.

Lemma read_array_map (m : Z -> T) (f : T -> T) p n :
  read_array (fun q => f (m q)) p n = map f (read_array m p n).
Proof. unfold read_array. now rewrite map_map. Qed.

(** *** Loops of stores *)

(** A loop that stores, at [w + i], a value that does not depend on the
    memory. *)
Lemma for_loop_store_mem (g : Z -> T) w n : forall from d q,
  mem (exec (for_loop n from (fun i => store (w + i) (g i))) d) q =
  if (w + from <=? q) && (q <? w + from + Z.of_nat n)
  then g (q - w) else mem d q.
Proof.
  induction n as [|n IH]; intros from d q.
  - simpl. rewrite exec_ret. zcases.
  - cbn [for_loop]. rewrite exec_bind, IH, mem_store.
    zcases. subst q. f_equal. lia.
Qed.

Lemma for_loop_store_launches (g : Z -> T) w n : forall from d,
  launches (exec (for_loop n from (fun i => store (w + i) (g i))) d) = launches d.
Proof.
  induction n as [|n IH]; intros from d; [reflexivity|].
  cbn [for_loop]. now rewrite exec_bind, IH.
Qed.

(** A loop that stores, at [out + i], [op] of what it loads at
    [first + i]; in place, or with input and output apart. *)
Lemma for_loop_map_mem (op : T -> T) first out n : forall from d q,
  out = first \/ out + from + Z.of_nat n <= first + from
              \/ first + from + Z.of_nat n <= out + from ->
  mem (exec (for_loop n from
               (fun i => x <- load (first + i) ;; store (out + i) (op x))) d) q =
  if (out + from <=? q) && (q <? out + from + Z.of_nat n)
  then op (mem d (first + (q - out))) else mem d q.
Proof.
  induction n as [|n IH]; intros from d q Hal.
  - simpl. rewrite exec_ret. zcases.
  - cbn [for_loop]. rewrite exec_bind, IH by lia.
    rewrite !exec_bind, exec_load, eval_load, !mem_store.
    zcases. all: do 2 f_equal; lia.
Qed.

Lemma for_loop_map_launches (op : T -> T) first out n : forall from d,
  launches (exec (for_loop n from
               (fun i => x <- load (first + i) ;; store (out + i) (op x))) d)
  = launches d.
Proof.
  induction n as [|n IH]; intros from d; [reflexivity|].
  cbn [for_loop]. now rewrite exec_bind, IH.
Qed.
End DevFacts.

(** ** The Thrust algorithms *)

Lemma of_nat_to_nat (z : Z) : Z.of_nat (Z.to_nat z) = Z.max 0 z.
Proof. lia. Qed.

Section ThrustFacts.
Context {T : Type}.
Implicit Types (d : device T) (q p : Z).

(** [thrust::transform], in place or with input and output apart: the
    output range holds [op] of the input, everything else is kept. *)
Lemma thrust_transform_mem (op : T -> T) first last out d q :
  out = first \/ out + (last - first) <= first \/ last <= out ->
  mem (exec (thrust_transform first last out op) d) q =
  if (out <=? q) && (q <? out + Z.max 0 (last - first))
  then op (mem d (first + (q - out))) else mem d q.
Proof.
  intros Hal. unfold thrust_transform.
  rewrite exec_bind, for_loop_map_mem, mem_launch by lia.
  rewrite of_nat_to_nat, Z.add_0_r. reflexivity.
Qed.

Lemma thrust_transform_launches (op : T -> T) first last out d :
  launches (exec (thrust_transform first last out op) d) = S (launches d).
Proof.
  unfold thrust_transform. now rewrite exec_bind, for_loop_map_launches.
Qed.

Lemma thrust_copy_n_mem first n out d q :
  out = first \/ out + n <= first \/ first + n <= out ->
  mem (exec (thrust_copy_n first n out) d) q =
  if (out <=? q) && (q <? out + Z.max 0 n)
  then mem d (first + (q - out)) else mem d q.
Proof.
  intros Hal. unfold thrust_copy_n.
  rewrite exec_bind, (for_loop_map_mem (fun x => x)), mem_launch by lia.
  rewrite of_nat_to_nat, Z.add_0_r. reflexivity.
Qed.

Lemma thrust_copy_n_launches first n out d :
  launches (exec (thrust_copy_n first n out) d) = S (launches d).
Proof.
  unfold thrust_copy_n.
  now rewrite exec_bind, (for_loop_map_launches (fun x => x)).
Qed.

Lemma thrust_fill_n_mem first n (val : T) d q :
  mem (exec (thrust_fill_n first n val) d) q =
  if (first <=? q) && (q <? first + Z.max 0 n) then val else mem d q.
Proof.
  unfold thrust_fill_n.
  rewrite exec_bind, (for_loop_store_mem (fun _ => val)), mem_launch.
  rewrite of_nat_to_nat, Z.add_0_r. reflexivity.
Qed.

(** Reductions read and leave the state as it is. *)
Lemma reduce_scan_run (op : T -> T -> T) (f : T -> T) n : forall cur acc d,
  reduce_scan op f n cur acc d =
  (fold_left (fun a x => op a (f x)) (read_array (mem d) cur n) acc, d).
Proof.
  induction n as [|n IH]; intros cur acc d; [reflexivity|].
  cbn [reduce_scan]. unfold bind at 1. unfold load at 1.
  rewrite IH, read_array_S. reflexivity.
Qed.

Lemma thrust_reduce_eval first last init (op : T -> T -> T) d :
  eval (thrust_reduce first last init op) d =
  fold_left op (read_array (mem d) first (Z.to_nat (last - first))) init.
Proof.
  unfold thrust_reduce. rewrite eval_bind. unfold eval at 1.
  rewrite reduce_scan_run. reflexivity.
Qed.

Lemma thrust_reduce_exec first last init (op : T -> T -> T) d :
  exec (thrust_reduce first last init op) d = exec launch d.
Proof.
  unfold thrust_reduce. rewrite exec_bind. unfold exec at 1.
  rewrite reduce_scan_run. reflexivity.
Qed.

Lemma thrust_transform_reduce_eval first last (f : T -> T) init
    (op : T -> T -> T) d :
  eval (thrust_transform_reduce first last f init op) d =
  fold_left (fun a x => op a (f x))
    (read_array (mem d) first (Z.to_nat (last - first))) init.
Proof.
  unfold thrust_transform_reduce. rewrite eval_bind. unfold eval at 1.
  rewrite reduce_scan_run. reflexivity.
Qed.

Lemma thrust_transform_reduce_exec first last (f : T -> T) init
    (op : T -> T -> T) d :
  exec (thrust_transform_reduce first last f init op) d = exec launch d.
Proof.
  unfold thrust_transform_reduce. rewrite exec_bind. unfold exec at 1.
  rewrite reduce_scan_run. reflexivity.
Qed.

(** The extremum scan reads only. *)
Lemma extremum_scan_exec (comp : T -> T -> bool) n : forall cur largest d,
  exec (extremum_scan comp n cur largest) d = d.
Proof.
  induction n as [|n IH]; intros cur largest d; [reflexivity|].
  cbn [extremum_scan]. now rewrite !exec_bind, IH.
Qed.

(** It answers [largest] or an address of the scanned range. *)
Lemma extremum_scan_range (comp : T -> T -> bool) n : forall cur largest d,
  let r := eval (extremum_scan comp n cur largest) d in
  r = largest \/ cur <= r < cur + Z.of_nat n.
Proof.
  induction n as [|n IH]; intros cur largest d; [left; reflexivity|].
  cbn [extremum_scan]. rewrite !eval_bind, !exec_load, !eval_load.
  cbv zeta.
  destruct (IH (cur + 1) (if comp (mem d largest) (mem d cur) then cur else largest) d)
    as [E|E].
  - rewrite E. destruct (comp _ _); [right; lia | left; reflexivity].
  - right. lia.
Qed.

(** Two memories whose elements compare alike are scanned alike. *)
Lemma extremum_scan_ext (comp comp' : T -> T -> bool) n : forall cur largest d d',
  (forall x y, (x = largest \/ cur <= x < cur + Z.of_nat n) ->
               (y = largest \/ cur <= y < cur + Z.of_nat n) ->
               comp (mem d x) (mem d y) = comp' (mem d' x) (mem d' y)) ->
  eval (extremum_scan comp n cur largest) d =
  eval (extremum_scan comp' n cur largest) d'.
Proof.
  induction n as [|n IH]; intros cur largest d d' E; [reflexivity|].
  cbn [extremum_scan]. rewrite !eval_bind, !exec_load, !eval_load.
  rewrite <- (E largest cur) by lia.
  apply IH. intros x y Hx Hy. apply E.
  - destruct (comp _ _); lia.
  - destruct (comp _ _); lia.
Qed.

Lemma thrust_max_element_exec (lt : T -> T -> bool) first last d :
  exec (thrust_max_element lt first last) d = exec launch d.
Proof.
  unfold thrust_max_element. rewrite exec_bind.
  destruct (first =? last); [reflexivity|]. apply extremum_scan_exec.
Qed.

Lemma thrust_max_element_range (lt : T -> T -> bool) first last d :
  first < last ->
  first <= eval (thrust_max_element lt first last) d < last.
Proof.
  intros Hlt. unfold thrust_max_element. rewrite eval_bind.
  destruct (Z.eqb_spec first last); [lia|].
  pose proof (extremum_scan_range lt (Z.to_nat (last - first - 1)) (first + 1)
                first (exec launch d)) as R.
  cbv zeta in R. lia.
Qed.
End ThrustFacts.

(* ================================================================== *)
(** ** The affine-fused transforms                                    *)
(* ================================================================== *)

Lemma in_range_offset (out size i : Z) :
  0 <= i < size ->
  (out <=? out + i) && (out + i <? out + Z.max 0 size) = true.
Proof. intros Hi. zcases. Qed.


(** The transform touches nothing outside the output range and is one
    launch. *)
Lemma gpu_transform_frame {T : Type} `{Scalar T}
    (d : device T) (name : unary_name) (begin size out : Z) (a b m : option T) (q : Z) :
  out = begin \/ out + size <= begin \/ begin + size <= out ->
  q < out \/ out + size <= q ->
  mem (exec (GpuSrc.gpu_ name begin size out a b m) d) q = mem d q.
Proof.
  intros Hal Hq. unfold GpuSrc.gpu_. cbv zeta.
  rewrite thrust_transform_mem by lia.
  replace (begin + size - begin) with size by lia. zcases.
Qed.

(** Facts on the comparisons of the real scalars. *)
Lemma Reqb_true (x y : R) : Reqb x y = true <-> x = y.
Proof. unfold Reqb. destruct (Req_dec_T x y); split; congruence. Qed.

Lemma Reqb_false (x y : R) : Reqb x y = false <-> x <> y.
Proof. unfold Reqb. destruct (Req_dec_T x y); split; congruence. Qed.

Lemma Rltb_true (x y : R) : Rltb x y = true <-> (x < y)%R.
Proof. unfold Rltb. destruct (Rlt_dec x y); split; intros; congruence. Qed.

Lemma Rltb_false (x y : R) : Rltb x y = false <-> (y <= x)%R.
Proof.
  unfold Rltb. destruct (Rlt_dec x y); split; intros; try congruence; lra.
Qed.

(** The macro-generated generation has no post-scale [m]: in exact
    arithmetic its four functor shapes all give [name(a * x + b)]. *)
Lemma mythrust_transform_elementwise
    (d : device R) (name : option MyThrust.name) (begin size out : Z) (a b : R) (i : Z) :
  0 <= i < size ->
  out = begin \/ out + size <= begin \/ begin + size <= out ->
  let x := mem d (begin + i) in
  mem (exec (MyThrust.gpu_ name begin size out (Some a) (Some b)) d) (out + i)
    = MyThrust.call_name name (a * x + b)%R /\
  mem (exec (MyThrust.gpu_inplace name begin size (Some a) (Some b)) d) (begin + i)
    = MyThrust.call_name name (a * x + b)%R.
Proof.
  intros Hi Hal x.
  unfold MyThrust.gpu_, MyThrust.gpu_inplace. cbn [dflt].
  change (@s_eqb R R_Scalar) with Reqb. change (@s_of_Z R R_Scalar) with IZR.
  destruct (Reqb a 1) eqn:Ea, (Reqb b 0) eqn:Eb; cbn [andb];
    try apply Reqb_true in Ea; try apply Reqb_true in Eb; subst;
    split; rewrite thrust_transform_mem by lia;
    replace (begin + size - begin) with size by lia;
    rewrite in_range_offset by assumption;
    unfold MyThrust.functor_0, MyThrust.functor_1, MyThrust.functor_2,
      MyThrust.functor_3; cbn;
    replace (begin + (out + i - out)) with (begin + i) by lia;
    replace (begin + (begin + i - begin)) with (begin + i) by lia;
    fold x; f_equal; lra.
Qed.

(* ================================================================== *)
(** ** Reductions over the real scalars                               *)
(* ================================================================== *)

(** Unfold the scalar operations at the real instance. *)
Ltac rscal :=
  cbn [s_add s_sub s_mul s_div s_neg s_of_Z s_ltb s_eqb s_half s_pi
       m_exp m_log R_Scalar call1 call2 dflt] in *.

Lemma fold_left_Rplus_map (f : R -> R) (l : list R) (a : R) :
  fold_left (fun acc x => acc + f x)%R l a = (a + Rsum (map f l))%R.
Proof.
  revert a. induction l as [|x l IH]; intros a; simpl.
  - lra.
  - rewrite IH. lra.
Qed.

Lemma fold_left_Rplus (l : list R) (a : R) :
  fold_left Rplus l a = (a + Rsum l)%R.
Proof.
  rewrite <- (map_id l) at 2. apply (fold_left_Rplus_map (fun x => x)).
Qed.

Lemma Rsum_map_scale (k : R) (f : R -> R) (l : list R) :
  Rsum (map (fun x => f x * k)%R l) = (Rsum (map f l) * k)%R.
Proof. induction l as [|x l IH]; simpl; [lra | rewrite IH; lra]. Qed.

Lemma Rsum_map_ext (f g : R -> R) (l : list R) :
  (forall x, In x l -> f x = g x) -> Rsum (map f l) = Rsum (map g l).
Proof. intros E. f_equal. now apply map_ext_in. Qed.

Lemma Rsum_exp_pos (f : R -> R) (l : list R) :
  l <> [] -> (0 < Rsum (map (fun x => exp (f x)) l))%R.
Proof.
  intros Hl. destruct l as [|x l]; [congruence|]. clear Hl.
  revert x. induction l as [|y l IH]; intros x; simpl.
  - pose proof (exp_pos (f x)). lra.
  - pose proof (exp_pos (f x)). specialize (IH y). simpl in IH. lra.
Qed.

Lemma gpu_sum_eval (d : device R) (begin size : Z) :
  eval (GpuSrc.gpu_sum begin size) d
  = Rsum (read_array (mem d) begin (Z.to_nat size)).
Proof.
  unfold GpuSrc.gpu_sum. rewrite thrust_reduce_eval. rscal.
  rewrite fold_left_Rplus. replace (begin + size - begin) with size by lia.
  lra.
Qed.

Lemma gpu_sum_exec {T : Type} `{Scalar T} (d : device T) (begin size : Z) :
  exec (GpuSrc.gpu_sum begin size) d = exec launch d.
Proof. apply thrust_reduce_exec. Qed.

(** [sum(exp(1 * x + -mx))] computed by [transform_reduce]. *)
Lemma exp_sum_eval (d : device R) (begin size : Z) (mx : R) :
  eval (thrust_transform_reduce begin (begin + size)
          (GpuSrc.functor_call N_exp
             (GpuSrc.functor_ (Some 1%S) (Some (- mx)%S) None)) 0%S s_add) d
  = Rsum (map (fun x => exp (x - mx)) (read_array (mem d) begin (Z.to_nat size))).
Proof.
  rewrite thrust_transform_reduce_eval. rscal.
  replace (begin + size - begin) with size by lia.
  rewrite (fold_left_Rplus_map
             (GpuSrc.functor_call N_exp (GpuSrc.functor_ (Some 1%R) (Some (- mx)%R) None))).
  rewrite Rplus_0_l. apply Rsum_map_ext. intros x _.
  unfold GpuSrc.functor_call, GpuSrc.functor_. rscal. cbn.
  rewrite Rmult_1_l. f_equal. lra.
Qed.

(** ** The maximum *)

Lemma gpu_max_exec {T : Type} `{Scalar T} (d : device T) (begin size : Z) :
  exec (GpuSrc.gpu_max begin size) d = exec launch d.
Proof.
  unfold GpuSrc.gpu_max. now rewrite exec_bind, exec_load, thrust_max_element_exec.
Qed.

Lemma gpu_max_eval {T : Type} `{Scalar T} (d : device T) (begin size : Z) :
  eval (GpuSrc.gpu_max begin size) d
  = mem d (eval (thrust_max_element s_ltb begin (begin + size)) d).
Proof.
  unfold GpuSrc.gpu_max.
  now rewrite eval_bind, eval_load, thrust_max_element_exec.
Qed.

(** The scan with [<] on reals ends on an element that is at least the
    starting one and every scanned one. *)
Lemma max_scan_upper (n : nat) : forall cur largest (d : device R),
  let r := eval (extremum_scan Rltb n cur largest) d in
  (mem d largest <= mem d r)%R /\
  forall q, cur <= q < cur + Z.of_nat n -> (mem d q <= mem d r)%R.
Proof.
  induction n as [|n IH]; intros cur largest d.
  - cbn [extremum_scan]. rewrite eval_ret. split; [lra | intros; lia].
  - cbn [extremum_scan]. rewrite !eval_bind, !exec_load, !eval_load. cbv zeta.
    destruct (IH (cur + 1)
                (if Rltb (mem d largest) (mem d cur) then cur else largest) d)
      as [Hl Hq].
    destruct (Rltb (mem d largest) (mem d cur)) eqn:E.
    + apply Rltb_true in E. split; [lra|].
      intros q Hr. destruct (Z.eq_dec q cur) as [->|]; [lra|]. apply Hq. lia.
    + apply Rltb_false in E. split; [lra|].
      intros q Hr. destruct (Z.eq_dec q cur) as [->|]; [lra|]. apply Hq. lia.
Qed.

Lemma gpu_max_upper (d : device R) (begin size : Z) :
  0 < size ->
  let mx := eval (GpuSrc.gpu_max begin size) d in
  In mx (read_array (mem d) begin (Z.to_nat size)) /\
  forall x, In x (read_array (mem d) begin (Z.to_nat size)) -> (x <= mx)%R.
Proof.
  intros Hs mx. subst mx. rewrite gpu_max_eval.
  pose proof (@thrust_max_element_range R s_ltb begin (begin + size) d
                ltac:(lia)) as Hr.
  split.
  - unfold read_array. apply in_map_iff.
    exists (Z.to_nat (eval (thrust_max_element s_ltb begin (begin + size)) d - begin)).
    split; [f_equal; lia | apply in_seq; lia].
  - intros x Hx. unfold read_array in Hx. apply in_map_iff in Hx as (i & <- & Hi).
    apply in_seq in Hi.
    unfold thrust_max_element. rewrite eval_bind.
    destruct (Z.eqb_spec begin (begin + size)); [lia|].
    pose proof (max_scan_upper (Z.to_nat (begin + size - begin - 1)) (begin + 1)
                  begin (exec launch d)) as [Hl Hq].
    rewrite mem_launch in Hl, Hq. rscal.
    destruct (Nat.eq_dec i 0) as [->|Hi0].
    + rewrite Z.add_0_r. exact Hl.
    + apply Hq. lia.
Qed.

(** Adding [c] to every element of the array adds [c] to the maximum. *)
Lemma gpu_max_shift (d dc : device R) (begin size : Z) (c : R) :
  0 < size ->
  (forall i, 0 <= i < size -> mem dc (begin + i) = (mem d (begin + i) + c)%R) ->
  eval (GpuSrc.gpu_max begin size) dc = (eval (GpuSrc.gpu_max begin size) d + c)%R.
Proof.
  intros Hs Hc. rewrite !gpu_max_eval.
  assert (E : eval (thrust_max_element s_ltb begin (begin + size)) dc
              = eval (thrust_max_element s_ltb begin (begin + size)) d).
  { unfold thrust_max_element. rewrite !eval_bind.
    destruct (Z.eqb_spec begin (begin + size)); [lia|].
    apply extremum_scan_ext. intros x y Hx Hy. rewrite !mem_launch.
    replace x with (begin + (x - begin)) by lia.
    replace y with (begin + (y - begin)) by lia.
    rewrite !Hc by lia. rscal. unfold Rltb.
    destruct (Rlt_dec _ _), (Rlt_dec _ _); try reflexivity; lra. }
  rewrite E.
  pose proof (@thrust_max_element_range R s_ltb begin (begin + size) d
                ltac:(lia)) as Hr.
  set (r := eval (thrust_max_element s_ltb begin (begin + size)) d) in *.
  replace r with (begin + (r - begin)) by lia. apply Hc. lia.
Qed.

(* ================================================================== *)
(** ** The pure-affine transform                                      *)
(* ================================================================== *)

Lemma read_array_shift {T : Type} (m1 m2 : Z -> T) (p1 p2 : Z) (n : nat) :
  (forall i, 0 <= i < Z.of_nat n -> m1 (p1 + i) = m2 (p2 + i)) ->
  read_array m1 p1 n = read_array m2 p2 n.
Proof.
  intros E. unfold read_array. apply map_ext_in. intros i Hi.
  apply in_seq in Hi. apply E. lia.
Qed.

(** In place, over the reals, [gpu_linear] leaves [a * x + b] in every
    element, whether or not it takes the shortcut. *)
Lemma gpu_linear_inplace_mem (d : device R) (p size : Z) (a b : R) (q : Z) :
  mem (exec (GpuSrc.gpu_linear_inplace p size (Some a) (Some b)) d) q =
  if (p <=? q) && (q <? p + Z.max 0 size)
  then (a * mem d q + b)%R else mem d q.
Proof.
  unfold GpuSrc.gpu_linear_inplace, GpuSrc.gpu_linear. rscal.
  destruct (Reqb a 1 && Reqb b 0) eqn:E.
  - apply andb_prop in E as [Ea Eb].
    apply Reqb_true in Ea. apply Reqb_true in Eb. subst a b.
    rewrite Z.eqb_refl. cbn [negb]. rewrite exec_ret.
    destruct ((p <=? q) && (q <? p + Z.max 0 size)); [lra | reflexivity].
  - rewrite thrust_transform_mem by lia.
    replace (p + size - p) with size by lia.
    replace (p + (q - p)) with q by lia.
    reflexivity.
Qed.

(* ================================================================== *)
(** ** Softmax                                                        *)
(* ================================================================== *)

Section Softmax.
Variable d : device R.
Variables begin size out : Z.
Hypothesis Halias : out = begin \/ out + size <= begin \/ begin + size <= out.

Let n : nat := Z.to_nat size.
Let xs : list R := read_array (mem d) begin n.
Let mx : R := eval (GpuSrc.gpu_max begin size) d.
(** [sum(exp(x - max))] *)
Let expsum : R := Rsum (map (fun x => exp (x - mx)) xs).

(** The state after [gpu_exp(begin, size, out, 1, -mx)]. *)
Let d_exp : device R :=
  exec (GpuSrc.gpu_ N_exp begin size out (Some 1%S) (Some (- mx)%S) None)
       (exec (GpuSrc.gpu_max begin size) d).

Lemma softmax_exp_mem (q : Z) :
  mem d_exp q =
  if (out <=? q) && (q <? out + Z.max 0 size)
  then exp (mem d (begin + (q - out)) - mx) else mem d q.
Proof.
  unfold d_exp, GpuSrc.gpu_. cbv zeta. rscal.
  rewrite thrust_transform_mem by lia.
  rewrite gpu_max_exec, mem_launch.
  replace (begin + size - begin) with size by lia.
  destruct ((out <=? q) && (q <? out + Z.max 0 size)); [|reflexivity].
  unfold GpuSrc.functor_call, GpuSrc.functor_. rscal. cbn.
  rewrite Rmult_1_l. f_equal. lra.
Qed.

Lemma softmax_exp_array :
  read_array (mem d_exp) out n = map (fun x => exp (x - mx)) xs.
Proof.
  unfold xs. rewrite <- read_array_map. apply read_array_shift.
  intros i Hi. rewrite softmax_exp_mem.
  unfold n in Hi. rewrite in_range_offset by lia.
  do 3 f_equal. lia.
Qed.

Lemma softmax_sum_eval : eval (GpuSrc.gpu_sum out size) d_exp = expsum.
Proof.
  rewrite gpu_sum_eval. fold n. rewrite softmax_exp_array. reflexivity.
Qed.

(** [gpu_softmax] in closed form. *)
Lemma gpu_softmax_mem (q : Z) :
  mem (exec (GpuSrc.gpu_softmax begin size out) d) q =
  if (out <=? q) && (q <? out + Z.max 0 size)
  then (exp (mem d (begin + (q - out)) - mx) * (1 / expsum))%R
  else mem d q.
Proof.
  unfold GpuSrc.gpu_softmax.
  rewrite exec_bind. fold mx. rewrite exec_bind. fold d_exp.
  rewrite exec_bind, softmax_sum_eval, gpu_sum_exec. rscal.
  rewrite gpu_linear_inplace_mem, mem_launch, softmax_exp_mem.
  destruct ((out <=? q) && (q <? out + Z.max 0 size)); [lra | reflexivity].
Qed.

Lemma softmax_expsum_pos : 0 < size -> (0 < expsum)%R.
Proof.
  intros Hs. unfold expsum. apply (Rsum_exp_pos (fun x => x - mx)%R).
  intros E. apply (f_equal (@length R)) in E.
  unfold xs in E. rewrite read_array_length in E. simpl in E. lia.
Qed.

Lemma gpu_softmax_sum : 
  0 < size ->
  Rsum (read_array (mem (exec (GpuSrc.gpu_softmax begin size out) d)) out n) = 1%R.
Proof.
  intros Hs.
  assert (E : read_array (mem (exec (GpuSrc.gpu_softmax begin size out) d)) out n
              = map (fun x => exp (x - mx) * (1 / expsum))%R xs).
  { unfold xs. rewrite <- (read_array_map (mem d) (fun x => exp (x - mx) * (1 / expsum))%R).
    apply read_array_shift. intros i Hi. rewrite gpu_softmax_mem.
    unfold n in Hi. rewrite in_range_offset by lia.
    do 4 f_equal. lia. }
  rewrite E, (Rsum_map_scale (1 / expsum) (fun x => exp (x - mx))).
  fold expsum. pose proof (softmax_expsum_pos Hs). field. lra.
Qed.
End Softmax.

Lemma softmax_expsum_shift (d dc : device R) (begin size : Z) (c : R) :
  0 < size ->
  (forall i, 0 <= i < size -> mem dc (begin + i) = (mem d (begin + i) + c)%R) ->
  Rsum (map (fun x => exp (x - eval (GpuSrc.gpu_max begin size) dc))
            (read_array (mem dc) begin (Z.to_nat size)))
  = Rsum (map (fun x => exp (x - eval (GpuSrc.gpu_max begin size) d))
              (read_array (mem d) begin (Z.to_nat size))).
Proof.
  intros Hs Hc. rewrite (@gpu_max_shift d dc begin size c Hs Hc).
  assert (E : read_array (mem dc) begin (Z.to_nat size)
              = map (fun x => x + c)%R (read_array (mem d) begin (Z.to_nat size))).
  { rewrite <- read_array_map. apply read_array_shift. intros i Hi. apply Hc. lia. }
  rewrite E, map_map. apply Rsum_map_ext. intros x _. f_equal. lra.
Qed.

(** C2.  For a non-empty array, [gpu_softmax] (input and output the same
    array or apart) follows the stable pattern: with [mx] the maximum of
    the array, an element of it that bounds all the others, every output
    element is [exp(x - mx)] scaled by [1 / s], [s] the sum of the
    [exp(x - mx)].  Over the real numbers the output sums to exactly 1,
    and adding one constant to every input element gives the same
    output. *)
Theorem gpu_softmax_normalised_shift_invariant
    (d : device R) (begin size out : Z) :
  0 < size ->
  out = begin \/ out + size <= begin \/ begin + size <= out ->
  let n := Z.to_nat size in
  let xs := read_array (mem d) begin n in
  let mx := eval (GpuSrc.gpu_max begin size) d in
  let s := Rsum (map (fun x => exp (x - mx)) xs) in
  let d' := exec (GpuSrc.gpu_softmax begin size out) d in
  (In mx xs /\ forall x, In x xs -> (x <= mx)%R) /\
  (forall i, 0 <= i < size ->
     mem d' (out + i) = (exp (mem d (begin + i) - mx) * (1 / s))%R) /\
  Rsum (read_array (mem d') out n) = 1%R /\
  (forall (c : R) (dc : device R),
     (forall i, 0 <= i < size -> mem dc (begin + i) = (mem d (begin + i) + c)%R) ->
     forall i, 0 <= i < size ->
       mem (exec (GpuSrc.gpu_softmax begin size out) dc) (out + i) = mem d' (out + i)).
Proof.
  intros Hs Hal n xs mx s d'.
  split; [exact (gpu_max_upper d begin Hs)|].
  split; [|split].
  - intros i Hi. unfold d'. rewrite gpu_softmax_mem by assumption.
    rewrite in_range_offset by assumption.
    replace (begin + (out + i - out)) with (begin + i) by lia. reflexivity.
  - apply gpu_softmax_sum; assumption.
  - intros c dc Hc i Hi. unfold d'. rewrite !gpu_softmax_mem by assumption.
    rewrite in_range_offset by assumption.
    rewrite (@softmax_expsum_shift d dc begin size c Hs Hc).
    rewrite (@gpu_max_shift d dc begin size c Hs Hc).
    replace (begin + (out + i - out)) with (begin + i) by lia.
    rewrite Hc by assumption. do 2 f_equal. lra.
Qed.

(* ================================================================== *)
(** ** Log-probability at a label                                     *)
(* ================================================================== *)

Lemma gpu_softmax_at_label_eval (d : device R) (begin size label outLogProb : Z) :
  eval (GpuSrc.gpu_softmax_at_label begin size label outLogProb) d
  = ((mem d (begin + label) - eval (GpuSrc.gpu_max begin size) d)
     - ln (Rsum (map (fun x => exp (x - eval (GpuSrc.gpu_max begin size) d))
                     (read_array (mem d) begin (Z.to_nat size)))))%R.
Proof.
  unfold GpuSrc.gpu_softmax_at_label.
  rewrite eval_bind, gpu_max_exec, eval_bind, thrust_transform_reduce_exec.
  rewrite exp_sum_eval, mem_launch.
  rewrite eval_bind, exec_load, eval_load, !mem_launch.
  rewrite eval_bind, eval_ret. rscal. reflexivity.
Qed.

Lemma gpu_softmax_at_label_mem (d : device R) (begin size label outLogProb q : Z) :
  mem (exec (GpuSrc.gpu_softmax_at_label begin size label outLogProb) d) q
  = if q =? outLogProb
    then eval (GpuSrc.gpu_softmax_at_label begin size label outLogProb) d
    else mem d q.
Proof.
  rewrite gpu_softmax_at_label_eval.
  unfold GpuSrc.gpu_softmax_at_label.
  rewrite exec_bind, gpu_max_exec, exec_bind, thrust_transform_reduce_exec.
  rewrite exp_sum_eval, mem_launch.
  rewrite exec_bind, exec_load, eval_load, !mem_launch.
  rewrite exec_bind, exec_ret, mem_store, !mem_launch. rscal.
  rewrite Z.add_0_r. reflexivity.
Qed.

(** C4.  [gpu_softmax_at_label] on a non-empty array, with a label inside
    it and the one-element output buffer outside it: every element of the
    array, and every address other than the buffer, holds what it held;
    the value returned is [(array[label] - max) - log(sum(exp(array - max)))];
    the buffer receives that value; and it is the logarithm of the element
    that [gpu_softmax] leaves at the label. *)
Theorem gpu_softmax_at_label_spec
    (d : device R) (begin size label outLogProb : Z) :
  0 < size ->
  0 <= label < size ->
  outLogProb < begin \/ begin + size <= outLogProb ->
  let xs := read_array (mem d) begin (Z.to_nat size) in
  let mx := eval (GpuSrc.gpu_max begin size) d in
  let r := eval (GpuSrc.gpu_softmax_at_label begin size label outLogProb) d in
  let d' := exec (GpuSrc.gpu_softmax_at_label begin size label outLogProb) d in
  (forall i, 0 <= i < size -> mem d' (begin + i) = mem d (begin + i)) /\
  (forall q, q <> outLogProb -> mem d' q = mem d q) /\
  r = ((mem d (begin + label) - mx)
       - ln (Rsum (map (fun x => exp (x - mx)) xs)))%R /\
  mem d' outLogProb = r /\
  r = ln (mem (exec (GpuSrc.gpu_softmax_inplace begin size) d) (begin + label)).
Proof.
  intros Hs Hl Hout xs mx r d'.
  assert (Hframe : forall q, q <> outLogProb -> mem d' q = mem d q).
  { intros q Hq. unfold d'. rewrite gpu_softmax_at_label_mem.
    destruct (Z.eqb_spec q outLogProb); [contradiction | reflexivity]. }
  split; [intros i Hi; apply Hframe; lia|].
  split; [exact Hframe|].
  split; [apply gpu_softmax_at_label_eval|].
  split.
  - unfold d'. rewrite gpu_softmax_at_label_mem, Z.eqb_refl. reflexivity.
  - unfold r. rewrite gpu_softmax_at_label_eval.
    unfold GpuSrc.gpu_softmax_inplace. rewrite gpu_softmax_mem by lia.
    rewrite in_range_offset by assumption.
    replace (begin + (begin + label - begin)) with (begin + label) by lia.
    pose proof (@softmax_expsum_pos d begin size Hs) as Hpos. cbv zeta in Hpos.
    fold mx xs in Hpos |- *.
    set (s := Rsum (map (fun x => exp (x - mx)) xs)) in *.
    rewrite ln_mult; [| apply exp_pos | apply Rdiv_lt_0_compat; lra].
    rewrite ln_exp. unfold Rdiv. rewrite Rmult_1_l, ln_Rinv by assumption. lra.
Qed.

(* ================================================================== *)
(** ** Softmax minus indicator, two ways                              *)
(* ================================================================== *)

Lemma gpu_softmax_minus_id_mem (d : device R) (begin size out label q : Z) :
  mem (exec (GpuSrc.gpu_softmax_minus_id begin size out label) d) q
  = if q =? out + label
    then (mem (exec (GpuSrc.gpu_softmax begin size out) d) (out + label) - 1)%R
    else mem (exec (GpuSrc.gpu_softmax begin size out) d) q.
Proof.
  unfold GpuSrc.gpu_softmax_minus_id.
  rewrite !exec_bind, exec_load, eval_load, mem_store. reflexivity.
Qed.

Lemma gpu_softmax_minus_id_2_mem (d : device R) (begin size id q : Z) :
  let mx := eval (GpuSrc.gpu_max begin size) d in
  let s := Rsum (map (fun x => exp (x - mx))
                     (read_array (mem d) begin (Z.to_nat size))) in
  let m' := fun q => if (begin <=? q) && (q <? begin + Z.max 0 size)
                     then exp (mem d q - (mx + ln s)) else mem d q in
  mem (exec (GpuSrc.gpu_softmax_minus_id_2 begin size id) d) q
  = if q =? begin + id then (m' (begin + id)%Z - 1)%R else m' q.
Proof.
  intros mx s m'. unfold GpuSrc.gpu_softmax_minus_id_2.
  rewrite exec_bind, gpu_max_exec. fold mx.
  rewrite exec_bind, thrust_transform_reduce_exec, exp_sum_eval, mem_launch.
  fold s. cbv zeta.
  rewrite !exec_bind, exec_load, eval_load, mem_store.
  assert (E : forall q,
    mem (exec (GpuSrc.gpu_inplace N_exp begin size (Some 1%S)
                 (Some (- (mx + m_log s))%S) None)
              (exec launch (exec launch d))) q = m' q).
  { intros q0. unfold GpuSrc.gpu_inplace, GpuSrc.gpu_. cbv zeta. rscal.
    rewrite thrust_transform_mem by lia. rewrite !mem_launch.
    replace (begin + size - begin) with size by lia.
    replace (begin + (q0 - begin)) with q0 by lia. unfold m'.
    destruct ((begin <=? q0) && (q0 <? begin + Z.max 0 size)); [|reflexivity].
    unfold GpuSrc.functor_call, GpuSrc.functor_. rscal. cbn.
    rewrite Rmult_1_l. f_equal. lra. }
  rewrite !E. reflexivity.
Qed.

(* ================================================================== *)
(** ** Rounding to binary32                                           *)
(* ================================================================== *)

Lemma Int_part_IZR (z : Z) : Int_part (IZR z) = z.
Proof. symmetry. apply Int_part_spec. lra. Qed.

Section Binary32Facts.
Local Open Scope R_scope.
Import Binary32.

Lemma rne_IZR (n : Z) : rne (IZR n) = n.
Proof.
  unfold rne. rewrite Int_part_IZR.
  destruct (Rlt_dec (IZR n - IZR n) (/ 2)) as [_|Hn]; [reflexivity|].
  exfalso. apply Hn. lra.
Qed.

(** A number less than half a unit above an integer rounds to it. *)
Lemma rne_floor (n : Z) (y : R) : IZR n <= y < IZR n + / 2 -> rne y = n.
Proof.
  intros Hy. unfold rne.
  replace (Int_part y) with n by (apply Int_part_spec; lra).
  destruct (Rlt_dec (y - IZR n) (/ 2)) as [_|Hn]; [reflexivity|].
  exfalso. apply Hn. lra.
Qed.

(** Rounding keeps a number between the integers it lies between. *)
Lemma rne_between (a b : Z) (y : R) :
  IZR a <= y <= IZR b -> (a <= rne y <= b)%Z.
Proof.
  intros [Ha Hb]. unfold rne.
  pose proof (base_Int_part y) as [F1 F2].
  set (n := Int_part y) in *.
  assert (Han : (a <= n)%Z).
  { apply Z.lt_succ_r. apply lt_IZR. rewrite succ_IZR. lra. }
  assert (Hup : y - IZR n > 0 -> (n + 1 <= b)%Z).
  { intros Hr. assert (Hlt : IZR n < IZR b) by lra.
    apply lt_IZR in Hlt. lia. }
  assert (Hnb : (n <= b)%Z) by (apply le_IZR; lra).
  destruct (Rlt_dec (y - IZR n) (/ 2)); [lia|].
  destruct (Rlt_dec (/ 2) (y - IZR n)); [split; [lia | apply Hup; lra]|].
  destruct (Z.even n); [lia | split; [lia | apply Hup; lra]].
Qed.

Lemma pow2_pos (e : Z) : 0 < powerRZ 2 e.
Proof. apply powerRZ_lt. lra. Qed.

Lemma ln_pow2 (e : Z) : ln (powerRZ 2 e) = IZR e * ln 2.
Proof.
  rewrite powerRZ_Rpower by lra. unfold Rpower. apply ln_exp.
Qed.

(** The binade of a number between two consecutive powers of two. *)
Lemma binade_spec (e : Z) (x : R) :
  (-126 <= e)%Z -> powerRZ 2 e <= Rabs x < powerRZ 2 (e + 1) -> binade x = e.
Proof.
  intros He [H1 H2]. unfold binade.
  pose proof (pow2_pos e) as P. pose proof ln_lt_2 as L2.
  assert (Hx : 0 < Rabs x) by lra.
  assert (B1 : IZR e * ln 2 <= ln (Rabs x)).
  { rewrite <- ln_pow2. destruct H1 as [H1|H1];
      [left; now apply ln_increasing | right; now rewrite H1]. }
  assert (B2 : ln (Rabs x) < (IZR e + 1) * ln 2).
  { rewrite <- plus_IZR, <- ln_pow2. now apply ln_increasing. }
  replace (Int_part (ln (Rabs x) / ln 2)) with e; [lia|].
  apply Int_part_spec. split.
  - apply Rmult_lt_reg_r with (ln 2); [lra|].
    unfold Rdiv. rewrite Rmult_minus_distr_r, Rmult_assoc, Rinv_l by lra. lra.
  - apply Rmult_le_reg_r with (ln 2); [lra|].
    unfold Rdiv. rewrite Rmult_assoc, Rinv_l by lra. lra.
Qed.

(** Rounding inside a binade. *)
Lemma RN_binade (e : Z) (x : R) :
  (-126 <= e)%Z -> powerRZ 2 e <= Rabs x < powerRZ 2 (e + 1) ->
  RN x = IZR (rne (x / powerRZ 2 (e - 23))) * powerRZ 2 (e - 23).
Proof.
  intros He Hx. unfold RN, ulp. now rewrite (@binade_spec e x He Hx).
Qed.

(** A multiple of the unit of its binade is kept. *)
Lemma RN_exact (e m : Z) (x : R) :
  (-126 <= e)%Z -> powerRZ 2 e <= Rabs x < powerRZ 2 (e + 1) ->
  x = IZR m * powerRZ 2 (e - 23) -> RN x = x.
Proof.
  intros He Hx E. rewrite (@RN_binade e x He Hx).
  pose proof (pow2_pos (e - 23)) as P.
  replace (x / powerRZ 2 (e - 23)) with (IZR m) by (rewrite E; field; lra).
  rewrite rne_IZR. now rewrite E.
Qed.

(** Rounding keeps a positive number between the multiples of the unit
    of its binade that it lies between. *)
Lemma RN_between (e a b : Z) (x : R) :
  (-126 <= e)%Z -> powerRZ 2 e <= x < powerRZ 2 (e + 1) ->
  IZR a * powerRZ 2 (e - 23) <= x <= IZR b * powerRZ 2 (e - 23) ->
  IZR a * powerRZ 2 (e - 23) <= RN x <= IZR b * powerRZ 2 (e - 23).
Proof.
  intros He Hx [Ha Hb].
  pose proof (pow2_pos e) as Pe. pose proof (pow2_pos (e - 23)) as P.
  rewrite (@RN_binade e x He) by (rewrite Rabs_right; lra).
  set (u := powerRZ 2 (e - 23)) in *.
  assert (Hy : IZR a <= x / u <= IZR b).
  { split.
    - apply Rmult_le_reg_r with u; [lra|].
      unfold Rdiv. rewrite Rmult_assoc, Rinv_l by lra. lra.
    - apply Rmult_le_reg_r with u; [lra|].
      unfold Rdiv. rewrite Rmult_assoc, Rinv_l by lra. lra. }
  apply rne_between in Hy. destruct Hy as [Y1 Y2].
  apply IZR_le in Y1, Y2. split; apply Rmult_le_compat_r; lra.
Qed.
End Binary32Facts.

Section Binary32Values.
Local Open Scope R_scope.
Import Binary32.

Lemma RN_0 : RN 0 = 0.
Proof.
  unfold RN. replace (0 / ulp 0) with (IZR 0) by (unfold Rdiv; ring).
  rewrite rne_IZR. ring.
Qed.

Lemma RN_1 : RN 1 = 1.
Proof.
  apply (@RN_exact 0 8388608); [lia | rewrite Rabs_right by lra; simpl; lra
                                | simpl; lra].
Qed.

Lemma RN_m1 : RN (-1) = -1.
Proof.
  apply (@RN_exact 0 (-8388608)); [lia | rewrite Rabs_left by lra; simpl; lra
                                   | simpl; lra].
Qed.

Lemma RN_10000000 : RN 10000000 = 10000000.
Proof.
  apply (@RN_exact 23 10000000); [lia | rewrite Rabs_right by lra; simpl; lra
                                  | simpl; lra].
Qed.

Lemma RN_10000001 : RN 10000001 = 10000001.
Proof.
  apply (@RN_exact 23 10000001); [lia | rewrite Rabs_right by lra; simpl; lra
                                  | simpl; lra].
Qed.

(** Around [10^7] neighbouring binary32 numbers are 1 apart: adding less
    than a half to [10000001] changes nothing. *)
Lemma RN_absorbs (l : R) : 0 <= l < / 2 -> RN (10000001 + l) = 10000001.
Proof.
  intros Hl.
  rewrite (@RN_binade 23) by (try lia; rewrite Rabs_right by lra; simpl; lra).
  replace (powerRZ 2 (23 - 23)) with 1 by (simpl; lra).
  rewrite (@rne_floor 10000001) by lra. lra.
Qed.

Lemma RN_quarter_half (x : R) : / 4 <= x <= / 2 -> / 4 <= RN x <= / 2.
Proof.
  intros [H1 [H2|H2]].
  - pose proof (@RN_between (-2) 8388608 16777216 x) as B.
    simpl in B. specialize (B ltac:(lia) ltac:(lra) ltac:(lra)). lra.
  - rewrite (@RN_exact (-1) 8388608 x); [lra | lia | | ].
    + rewrite Rabs_right by lra. simpl. lra.
    + simpl. lra.
Qed.

Lemma RN_five_quarters (x : R) : 5 / 4 <= x <= 3 / 2 -> 5 / 4 <= RN x <= 3 / 2.
Proof.
  intros Hx. pose proof (@RN_between 0 10485760 12582912 x) as B.
  simpl in B. specialize (B ltac:(lia) ltac:(lra) ltac:(lra)). lra.
Qed.

Lemma RN_half_seven_eighths (x : R) : / 2 <= x <= 7 / 8 -> / 2 <= RN x <= 7 / 8.
Proof.
  intros Hx. pose proof (@RN_between (-1) 8388608 14680064 x) as B.
  simpl in B. specialize (B ltac:(lia) ltac:(lra) ltac:(lra)). lra.
Qed.

Lemma RN_eighth (x : R) : / 8 <= x <= 15 / 32 -> / 8 <= RN x <= 15 / 32.
Proof.
  intros Hx. destruct (Rlt_dec x (/ 4)) as [Hlt|Hge].
  - pose proof (@RN_between (-3) 8388608 16777216 x) as B. simpl in B.
    specialize (B ltac:(lia) ltac:(lra) ltac:(lra)). lra.
  - pose proof (@RN_between (-2) 8388608 15728640 x) as B. simpl in B.
    specialize (B ltac:(lia) ltac:(lra) ltac:(lra)). lra.
Qed.

(** Bounds on [exp] and [ln] at the values met below. *)
Lemma exp_m1_bounds : / 4 <= exp (-1) <= / 2.
Proof.
  change (exp (-1)) with (exp (- (1))).
  rewrite exp_Ropp. pose proof exp_le_3 as U.
  pose proof (exp_ineq1 1 ltac:(lra)) as L.
  split.
  - apply Rle_trans with (/ 3); [lra|]. apply Rinv_le_contravar; lra.
  - left. apply Rinv_lt_contravar; lra.
Qed.

Lemma ln_bounds (s : R) : 5 / 4 <= s <= 3 / 2 -> / 8 <= ln s <= 15 / 32.
Proof.
  intros Hs. split.
  - assert (E : exp (/ 8) <= s).
    { pose proof (exp_ineq1_le (- / 8)) as L. pose proof (exp_pos (- / 8)) as P.
      replace (/ 8) with (- - / 8) by ring. rewrite exp_Ropp.
      apply Rle_trans with (/ (7 / 8)); [apply Rinv_le_contravar; lra | lra]. }
    rewrite <- (ln_exp (/ 8)).
    destruct E as [E|E]; [left; apply ln_increasing; [apply exp_pos | exact E]
                         | right; now rewrite E].
  - assert (E : s <= exp (15 / 32)).
    { pose proof (exp_ineq1_le (15 / 64)) as L.
      replace (15 / 32) with (15 / 64 + 15 / 64) by lra. rewrite exp_plus. nra. }
    rewrite <- (ln_exp (15 / 32)).
    destruct E as [E|E]; [left; apply ln_increasing; [lra | exact E]
                         | right; now rewrite E].
Qed.
End Binary32Values.

(* ================================================================== *)
(** ** The two softmax-minus-indicator routines on any scalars        *)
(* ================================================================== *)

Section TwoRoutines.
Context {T : Type} `{Scalar T}.
Variable d : device T.
Variables begin size : Z.

Let n := Z.to_nat size.
Let mx := eval (GpuSrc.gpu_max begin size) d.
(** [exp(1 * x + -mx)], as the functor computes it. *)
Let f := GpuSrc.functor_call N_exp
           (GpuSrc.functor_ (Some 1%S) (Some (- mx)%S) (Some 1%S)).
Let in_array (q : Z) : bool := (begin <=? q) && (q <? begin + Z.max 0 size).

(** The deprecated routine: the array after it holds
    [exp(1 * x + -(mx + log s))], one less at [id]. *)
Lemma gpu_softmax_minus_id_2_run (id q : Z) :
  let s := fold_left (fun a x => (a + f x)%S) (read_array (mem d) begin n) 0%S in
  let g := GpuSrc.functor_call N_exp
             (GpuSrc.functor_ (Some 1%S) (Some (- (mx + m_log s))%S) (Some 1%S)) in
  let m' := fun q => if in_array q then g (mem d q) else mem d q in
  mem (exec (GpuSrc.gpu_softmax_minus_id_2 begin size id) d) q
  = if q =? begin + id then (m' (begin + id)%Z - 1)%S else m' q.
Proof.
  intros s g m'. unfold GpuSrc.gpu_softmax_minus_id_2.
  rewrite exec_bind, gpu_max_exec. fold mx.
  rewrite exec_bind, thrust_transform_reduce_exec, thrust_transform_reduce_eval.
  rewrite mem_launch. replace (begin + size - begin)%Z with size by lia.
  fold n. change (GpuSrc.functor_ (Some 1%S) (Some (- mx)%S) None)
            with (GpuSrc.functor_ (Some 1%S) (Some (- mx)%S) (Some 1%S)).
  fold f. fold s. cbv zeta.
  rewrite !exec_bind, exec_load, eval_load, mem_store.
  assert (E : forall q0,
    mem (exec (GpuSrc.gpu_inplace N_exp begin size (Some 1%S)
                 (Some (- (mx + m_log s))%S) None)
              (exec launch (exec launch d))) q0 = m' q0).
  { intros q0. unfold GpuSrc.gpu_inplace, GpuSrc.gpu_. cbv zeta. cbn [dflt].
    rewrite thrust_transform_mem by lia. rewrite !mem_launch.
    replace (begin + size - begin)%Z with size by lia.
    replace (begin + (q0 - begin))%Z with q0 by lia. reflexivity. }
  rewrite !E. reflexivity.
Qed.

(** The current routine, in place: the array after it holds
    [(1 / s) * e + 0], where [e] is [exp(1 * x + -mx)] and [s] the sum
    of the [e], one less at [label]. *)
Lemma gpu_softmax_minus_id_inplace_run (label q : Z) :
  let e := fun q => if in_array q then f (mem d q) else mem d q in
  let s := fold_left s_add (read_array e begin n) 0%S in
  let a := (1 / s)%S in
  let m' := fun q =>
    if s_eqb a 1%S && s_eqb 0%S 0%S then e q
    else if in_array q then (a * e q + 0)%S else e q in
  mem (exec (GpuSrc.gpu_softmax_minus_id_inplace begin size label) d) q
  = if q =? begin + label then (m' (begin + label)%Z - 1)%S else m' q.
Proof.
  intros e s a m'.
  unfold GpuSrc.gpu_softmax_minus_id_inplace, GpuSrc.gpu_softmax_minus_id.
  rewrite !exec_bind, exec_load, eval_load, mem_store.
  assert (E : forall q0,
    mem (exec (GpuSrc.gpu_softmax begin size begin) d) q0 = m' q0).
  { intros q0. unfold GpuSrc.gpu_softmax.
    rewrite exec_bind, gpu_max_exec. fold mx. rewrite exec_bind.
    set (d1 := exec (GpuSrc.gpu_ N_exp begin size begin (Some 1%S)
                       (Some (- mx)%S) None) (exec launch d)).
    assert (E1 : forall q1, mem d1 q1 = e q1).
    { intros q1. unfold d1, GpuSrc.gpu_. cbv zeta. cbn [dflt].
      rewrite thrust_transform_mem by lia. rewrite mem_launch.
      replace (begin + size - begin)%Z with size by lia.
      replace (begin + (q1 - begin))%Z with q1 by lia. reflexivity. }
    rewrite exec_bind, gpu_sum_exec.
    unfold GpuSrc.gpu_sum at 1. rewrite thrust_reduce_eval.
    replace (begin + size - begin)%Z with size by lia. fold n.
    rewrite (read_array_ext (mem d1) e begin n) by (intros; apply E1).
    fold s. fold a.
    unfold GpuSrc.gpu_linear_inplace, GpuSrc.gpu_linear. cbv zeta. cbn [dflt].
    unfold m'. destruct (s_eqb a 1%S && s_eqb 0%S 0%S).
    - rewrite Z.eqb_refl. cbn [negb]. rewrite exec_ret, mem_launch. apply E1.
    - rewrite thrust_transform_mem by lia. rewrite mem_launch.
      replace (begin + size - begin)%Z with size by lia.
      replace (begin + (q0 - begin))%Z with q0 by lia.
      fold (in_array q0). rewrite !E1. reflexivity. }
  rewrite !E. reflexivity.
Qed.
End TwoRoutines.

(** Unfold the scalar operations at the binary32 instance. *)
Ltac f32 :=
  cbn [s_add s_sub s_mul s_div s_neg s_of_Z s_ltb s_eqb m_exp m_log
       Binary32.F32_Scalar GpuSrc.functor_call GpuSrc.functor_ call1 dflt
       GpuSrc.f1_a GpuSrc.f1_b GpuSrc.f1_m].

Section Absorption.
Local Open Scope R_scope.
Import Binary32.

Let d : device R := list_device [10000000; 10000001].
(** [exp(1 * x + -10000001)] in binary32. *)
Let fx (x : R) : R := RN (RN 1 * RN (exp (RN (RN (RN 1 * x) + - 10000001)))).

Lemma absorption_max : eval (@GpuSrc.gpu_max R F32_Scalar 0 2) d = 10000001.
Proof.
  rewrite gpu_max_eval. unfold thrust_max_element. rewrite eval_bind.
  change (0 =? 0 + 2)%Z with false. cbv iota.
  change (Z.to_nat (0 + 2 - 0 - 1)) with 1%nat. cbn [extremum_scan].
  rewrite !eval_bind, !exec_load, !eval_load, mem_launch. f32.
  change (mem d 0) with 10000000. change (mem d (0 + 1)) with 10000001.
  replace (Rltb 10000000 10000001) with true
    by (symmetry; apply Rltb_true; lra).
  reflexivity.
Qed.

Lemma absorption_first : / 4 <= fx 10000000 <= / 2.
Proof.
  unfold fx. rewrite RN_1, !Rmult_1_l, RN_10000000.
  replace (10000000 + - 10000001) with (-1) by lra. rewrite RN_m1.
  apply RN_quarter_half, RN_quarter_half, exp_m1_bounds.
Qed.

Lemma absorption_second : fx 10000001 = 1.
Proof.
  unfold fx. rewrite RN_1, !Rmult_1_l, RN_10000001.
  replace (10000001 + - 10000001) with 0 by lra.
  now rewrite RN_0, exp_0, !RN_1.
Qed.

Lemma absorption_sum : 5 / 4 <= RN (RN (RN 0 + fx 10000000) + fx 10000001) <= 3 / 2.
Proof.
  rewrite RN_0, Rplus_0_l, absorption_second.
  pose proof (RN_quarter_half absorption_first) as B.
  apply RN_five_quarters. lra.
Qed.
End Absorption.

(** In binary32, on the array [10000000, 10000001] with label 0: the
    deprecated [gpu_softmax_minus_id_2] adds [log(sum)], a number below
    one half, to the maximum [10000001], where neighbouring binary32
    numbers are 1 apart; the sum is the maximum again, and the element
    at index 1 comes out as [exp(0) = 1].  [gpu_softmax_minus_id]
    divides by the sum of the exponentials and leaves at most [7/8]
    there (the exact value is about 0.731). *)
Lemma gpu_softmax_minus_id_2_absorbs :
  mem (exec (@GpuSrc.gpu_softmax_minus_id_2 R Binary32.F32_Scalar 0 2 0)
         (list_device [10000000; 10000001]%R)) 1 = 1%R /\
  (mem (exec (@GpuSrc.gpu_softmax_minus_id_inplace R Binary32.F32_Scalar 0 2 0)
          (list_device [10000000; 10000001]%R)) 1 <= 7 / 8)%R.
Proof.
  set (d := list_device [10000000; 10000001]%R).
  pose proof absorption_max as Hmx. pose proof absorption_first as F0.
  pose proof absorption_second as F1. pose proof absorption_sum as S.
  cbv zeta in Hmx, F0, F1, S. fold d in Hmx.
  split.
  - rewrite (@gpu_softmax_minus_id_2_run R Binary32.F32_Scalar d 0 2 0 1).
    cbv zeta. rewrite Hmx.
    change (1 =? 0 + 0) with false.
    change ((0 <=? 1) && (1 <? 0 + Z.max 0 2)) with true. cbv iota.
    change (read_array (mem d) 0 (Z.to_nat 2)) with [10000000%R; 10000001%R].
    change (mem d 1) with 10000001%R.
    cbn [fold_left]. f32.
    set (s := Binary32.RN (Binary32.RN (Binary32.RN 0 + _) + _)) in *.
    pose proof (RN_eighth (ln_bounds S)) as L.
    rewrite RN_absorbs by lra.
    exact F1.
  - rewrite (@gpu_softmax_minus_id_inplace_run R Binary32.F32_Scalar d 0 2 0 1).
    cbv zeta. rewrite Hmx.
    change (1 =? 0 + 0) with false.
    change ((0 <=? 1) && (1 <? 0 + Z.max 0 2)) with true. cbv iota.
    f32.
    set (sum := fold_left _ _ _).
    assert (Hs : (5 / 4 <= sum <= 3 / 2)%R) by exact S.
    set (v1 := Binary32.RN (Binary32.RN 1 * Binary32.RN (exp _))).
    assert (Hv1 : v1 = 1%R) by exact F1.
    clearbody sum v1. subst v1.
    rewrite !RN_1, RN_0, Rmult_1_r, Rplus_0_r.
    assert (Hq : (/ 2 <= 1 / sum <= 7 / 8)%R).
    { split.
      - apply Rmult_le_reg_r with sum; [lra|].
        unfold Rdiv. rewrite Rmult_assoc, Rinv_l by lra. lra.
      - apply Rmult_le_reg_r with sum; [lra|].
        unfold Rdiv. rewrite Rmult_assoc, Rinv_l by lra. lra. }
    pose proof (RN_half_seven_eighths Hq) as Ha.
    set (a := Binary32.RN (1 / sum)) in *.
    replace (Reqb a 1) with false by (symmetry; apply Reqb_false; lra).
    cbn [andb].
    pose proof (RN_half_seven_eighths Ha) as Ha2.
    exact (proj2 (RN_half_seven_eighths Ha2)).
Qed.

(** C10 (amended).  In exact arithmetic the deprecated
    [gpu_softmax_minus_id_2] and the in-place [gpu_softmax_minus_id]
    leave the same memory, for every non-empty array and every label
    inside it: over the real numbers [exp(x - (mx + log s))] is
    [exp(x - mx) / s], and both then take one from the element at the
    label. *)
Theorem gpu_softmax_minus_id_2_agrees
    (d : device R) (begin size label : Z) :
  0 < size ->
  0 <= label < size ->
  forall q,
    mem (exec (GpuSrc.gpu_softmax_minus_id_2 begin size label) d) q
    = mem (exec (GpuSrc.gpu_softmax_minus_id_inplace begin size label) d) q.
Proof.
  intros Hs Hl q.
  rewrite gpu_softmax_minus_id_2_mem. cbv zeta.
  unfold GpuSrc.gpu_softmax_minus_id_inplace.
  rewrite gpu_softmax_minus_id_mem, !gpu_softmax_mem by lia.
  pose proof (@softmax_expsum_pos d begin size Hs) as Hpos. cbv zeta in Hpos.
  set (mx := eval (GpuSrc.gpu_max begin size) d) in *.
  set (s := Rsum (map (fun x => exp (x - mx))
                      (read_array (mem d) begin (Z.to_nat size)))) in *.
  assert (E : forall x, exp (x - (mx + ln s)) = (exp (x - mx) * (1 / s))%R).
  { intros x. replace (x - (mx + ln s))%R with ((x - mx) + - ln s)%R by lra.
    rewrite exp_plus, exp_Ropp, exp_ln by assumption. unfold Rdiv. lra. }
  replace (begin + (begin + label - begin)) with (begin + label) by lia.
  replace (begin + (q - begin)) with q by lia.
  rewrite !E. reflexivity.
Qed.

(* ================================================================== *)
(** ** The identity case of the pure-affine transform                 *)
(* ================================================================== *)

(** In the macro-generated generation the plain linear transform with
    identity parameters, in place, is handed to the device all the same:
    one launch is counted. *)
Lemma mythrust_identity_inplace_is_launched :
  launches (exec (MyThrust.gpu_inplace None 0 3 (Some 1%R) (Some 0%R)) ramp_device)
  <> launches ramp_device.
Proof.
  unfold MyThrust.gpu_inplace. rscal.
  replace (Reqb 1 1) with true by (symmetry; now apply Reqb_true).
  replace (Reqb 0 0) with true by (symmetry; now apply Reqb_true).
  cbn [andb]. rewrite thrust_transform_launches. simpl. lia.
Qed.

(** C3 (amended).  With [a == 1] and [b == 0]: the templated [gpu_linear]
    returns the device state as it received it, launch count included,
    when output and input are the same array, and otherwise launches one
    copy after which the output range holds the input elements and every
    other address is as before.  The macro-generated plain linear
    transform launches its identity functor in both cases: in place every
    address holds the value it held, out of place the output range holds
    the input elements. *)
Theorem pure_affine_identity {T : Type} `{Scalar T} `{MyThrust.Ftype T}
    (d : device T) (begin size out : Z) (a b : option T) :
  s_eqb (dflt 1%S a) 1%S = true ->
  s_eqb (dflt 0%S b) 0%S = true ->
  out + size <= begin \/ begin + size <= out ->
  (exec (GpuSrc.gpu_linear_inplace begin size a b) d = d /\
   exec (GpuSrc.gpu_linear begin size begin a b) d = d) /\
  (out <> begin ->
   launches (exec (GpuSrc.gpu_linear begin size out a b) d) = S (launches d) /\
   forall q, mem (exec (GpuSrc.gpu_linear begin size out a b) d) q =
             if (out <=? q) && (q <? out + Z.max 0 size)
             then mem d (begin + (q - out)) else mem d q) /\
  (launches (exec (MyThrust.gpu_inplace None begin size a b) d) = S (launches d) /\
   forall q, mem (exec (MyThrust.gpu_inplace None begin size a b) d) q = mem d q) /\
  (launches (exec (MyThrust.gpu_ None begin size out a b) d) = S (launches d) /\
   forall q, mem (exec (MyThrust.gpu_ None begin size out a b) d) q =
             if (out <=? q) && (q <? out + Z.max 0 size)
             then mem d (begin + (q - out)) else mem d q).
Proof.
  intros Ha Hb Hal.
  unfold GpuSrc.gpu_linear_inplace, GpuSrc.gpu_linear,
    MyThrust.gpu_inplace, MyThrust.gpu_.
  cbv zeta. cbn [dflt]. rewrite Ha, Hb. cbn [andb].
  rewrite Z.eqb_refl. cbn [negb].
  split; [split; reflexivity|].
  split; [|split].
  - intros Hne. apply Z.eqb_neq in Hne. rewrite Z.eqb_sym in Hne.
    rewrite Hne. cbn [negb]. split.
    + apply thrust_copy_n_launches.
    + intros q. apply thrust_copy_n_mem. lia.
  - split; [apply thrust_transform_launches|].
    intros q. rewrite thrust_transform_mem by lia. unfold MyThrust.functor_0.
    cbn [MyThrust.call_name].
    destruct ((begin <=? q) && (q <? begin + Z.max 0 (begin + size - begin)));
      [f_equal; lia | reflexivity].
  - split; [apply thrust_transform_launches|].
    intros q. rewrite thrust_transform_mem by lia.
    replace (begin + size - begin) with size by lia. reflexivity.
Qed.

Lemma pure_affine_identity_witness :
  s_eqb (dflt 1%S (Some 1%R)) 1%S = true /\
  s_eqb (dflt 0%S (Some 0%R)) 0%S = true /\
  (10 + 3 <= 0 \/ 0 + 3 <= 10) /\
  exec (GpuSrc.gpu_linear_inplace 0 3 (Some 1%R) (Some 0%R)) ramp_device
    = ramp_device.
Proof.
  assert (H1 : s_eqb (dflt 1%S (Some 1%R)) 1%S = true) by now apply Reqb_true.
  assert (H0 : s_eqb (dflt 0%S (Some 0%R)) 0%S = true) by now apply Reqb_true.
  assert (Hd : 10 + 3 <= 0 \/ 0 + 3 <= 10) by lia.
  repeat split; try assumption.
  exact (proj1 (proj1 (@pure_affine_identity R _ _ ramp_device 0 3 10
                         (Some 1%R) (Some 0%R) H1 H0 Hd))).
Defined.


(* ================================================================== *)
(** ** Sorting                                                        *)
(* ================================================================== *)

Section SortFacts.
Context {T : Type}.
Variable comp : T -> T -> bool.

Lemma sort_insert_perm (x : T) (l : list T) :
  Permutation (x :: l) (sort_insert comp x l).
Proof.
  induction l as [|y l IH]; simpl; [reflexivity|].
  destruct (comp x y); [reflexivity|].
  rewrite perm_swap. now apply perm_skip.
Qed.

Lemma sort_list_perm (l : list T) : Permutation l (sort_list comp l).
Proof.
  induction l as [|x l IH]; simpl; [reflexivity|].
  rewrite <- sort_insert_perm. now apply perm_skip.
Qed.

Lemma sort_list_length (l : list T) : length (sort_list comp l) = length l.
Proof. symmetry. apply Permutation_length, sort_list_perm. Qed.

Hypothesis comp_asym : forall x y, comp x y = true -> comp y x = false.
Hypothesis comp_negtrans :
  forall x y z, comp y x = false -> comp z y = false -> comp z x = false.

Lemma sort_insert_sorted (x : T) (l : list T) :
  StronglySorted (may_precede comp) l -> StronglySorted (may_precede comp) (sort_insert comp x l).
Proof.
  induction 1 as [|y l Hs IH Hy]; simpl.
  - constructor; constructor.
  - destruct (comp x y) eqn:E.
    + constructor; [constructor; assumption|].
      constructor; [now apply comp_asym|].
      eapply Forall_impl; [|exact Hy]. intros z Hz.
      unfold may_precede in *. apply comp_negtrans with y; [now apply comp_asym|assumption].
    + constructor; [exact IH|].
      apply (Permutation_Forall (sort_insert_perm x l)).
      constructor; assumption.
Qed.

Lemma sort_list_sorted (l : list T) : StronglySorted (may_precede comp) (sort_list comp l).
Proof.
  induction l as [|x l IH]; simpl; [constructor|].
  now apply sort_insert_sorted.
Qed.
End SortFacts.

Section SortedUnique.
Context {T : Type}.
Variable le : T -> T -> Prop.
Hypothesis le_antisym : forall x y, le x y -> le y x -> x = y.

(** An antisymmetric order leaves one way to arrange a list in order. *)
Lemma sorted_perm_unique (l1 l2 : list T) :
  StronglySorted le l1 -> StronglySorted le l2 -> Permutation l1 l2 -> l1 = l2.
Proof.
  intros H1. revert l2. induction H1 as [|x1 t1 Hs1 IH Hx1]; intros l2 H2 HP.
  - apply Permutation_nil in HP. now subst.
  - destruct H2 as [|x2 t2 Hs2 Hx2].
    + apply Permutation_sym, Permutation_nil in HP. discriminate.
    + assert (E : x1 = x2).
      { assert (I1 : In x1 (x2 :: t2))
          by (eapply Permutation_in; [exact HP | now left]).
        assert (I2 : In x2 (x1 :: t1))
          by (eapply Permutation_in; [apply Permutation_sym; exact HP | now left]).
        destruct I1 as [->|I1]; [reflexivity|].
        destruct I2 as [->|I2]; [reflexivity|].
        rewrite Forall_forall in Hx1, Hx2.
        apply le_antisym; [now apply Hx1 | now apply Hx2]. }
      subst x2. f_equal. apply IH; [assumption|].
      now apply Permutation_cons_inv in HP.
Qed.

Lemma StronglySorted_app (l1 l2 : list T) :
  StronglySorted le l1 -> StronglySorted le l2 ->
  (forall x y, In x l1 -> In y l2 -> le x y) ->
  StronglySorted le (l1 ++ l2).
Proof.
  induction 1 as [|x l1 Hs IH Hx]; intros H2 Hc; simpl; [assumption|].
  constructor.
  - apply IH; [assumption|]. intros a b Ha Hb. apply Hc; [now right | assumption].
  - apply Forall_app. split; [assumption|].
    apply Forall_forall. intros y Hy. apply Hc; [now left | assumption].
Qed.
End SortedUnique.

Lemma StronglySorted_rev {T : Type} (le : T -> T -> Prop) (l : list T) :
  StronglySorted le l -> StronglySorted (fun x y => le y x) (rev l).
Proof.
  induction 1 as [|x l Hs IH Hx]; simpl; [constructor|].
  apply StronglySorted_app; [assumption | constructor; constructor |].
  intros a b Ha [<-|[]]. rewrite Forall_forall in Hx. apply Hx.
  now apply in_rev.
Qed.

(** *** Sorting reals *)

Lemma StronglySorted_weaken {T : Type} (le le' : T -> T -> Prop) (l : list T) :
  (forall x y, le x y -> le' x y) -> StronglySorted le l -> StronglySorted le' l.
Proof.
  intros Himp. induction 1 as [|x l Hs IH Hx]; constructor; [assumption|].
  eapply Forall_impl; [|exact Hx]. intros y. apply Himp.
Qed.

Lemma sort_asc_sorted (l : list R) : StronglySorted Rle (sort_list Rltb l).
Proof.
  apply StronglySorted_weaken with (le := may_precede Rltb).
  - intros x y Hxy. apply Rltb_false in Hxy. exact Hxy.
  - apply sort_list_sorted.
    + intros x y Hxy. apply Rltb_true in Hxy. apply Rltb_false. lra.
    + intros x y z H1 H2. apply Rltb_false in H1, H2. apply Rltb_false. lra.
Qed.

Lemma sort_desc_sorted (l : list R) :
  StronglySorted Rge (sort_list (GpuSrc.greater (T:=R)) l).
Proof.
  apply StronglySorted_weaken with (le := may_precede (GpuSrc.greater (T:=R))).
  - intros x y Hxy. apply Rltb_false in Hxy. lra.
  - apply sort_list_sorted; unfold GpuSrc.greater; rscal.
    + intros x y Hxy. apply Rltb_true in Hxy. apply Rltb_false. lra.
    + intros x y z H1 H2. apply Rltb_false in H1, H2. apply Rltb_false. lra.
Qed.

Lemma Rle_sorted_unique (l1 l2 : list R) :
  StronglySorted Rle l1 -> StronglySorted Rle l2 -> Permutation l1 l2 -> l1 = l2.
Proof. apply sorted_perm_unique. intros x y Hxy Hyx. lra. Qed.

Lemma Rge_sorted_unique (l1 l2 : list R) :
  StronglySorted Rge l1 -> StronglySorted Rge l2 -> Permutation l1 l2 -> l1 = l2.
Proof. apply sorted_perm_unique. intros x y Hxy Hyx. lra. Qed.

(** Descending order is ascending order reversed. *)
Lemma sort_desc_is_rev_asc (l : list R) :
  sort_list (GpuSrc.greater (T:=R)) l = rev (sort_list Rltb l).
Proof.
  apply Rge_sorted_unique.
  - apply sort_desc_sorted.
  - apply StronglySorted_weaken with (le := fun x y => Rle y x).
    + intros x y Hxy. lra.
    + apply StronglySorted_rev, sort_asc_sorted.
  - rewrite <- Permutation_rev, <- !sort_list_perm. reflexivity.
Qed.

Lemma sort_asc_fixed (l : list R) :
  StronglySorted Rle l -> sort_list Rltb l = l.
Proof.
  intros Hs. apply Rle_sorted_unique; [apply sort_asc_sorted | exact Hs |].
  symmetry. apply sort_list_perm.
Qed.

Lemma sort_desc_fixed (l : list R) :
  StronglySorted Rge l -> sort_list (GpuSrc.greater (T:=R)) l = l.
Proof.
  intros Hs. apply Rge_sorted_unique; [apply sort_desc_sorted | exact Hs |].
  symmetry. apply sort_list_perm.
Qed.

(** *** Sorting a range of device memory *)

Lemma write_array_mem {T : Type} (l : list T) : forall p (d : device T) q,
  mem (exec (write_array p l) d) q =
  if (p <=? q) && (q <? p + Z.of_nat (length l))
  then nth (Z.to_nat (q - p)) l (mem d q) else mem d q.
Proof.
  induction l as [|x r IH]; intros p d q.
  - cbn [write_array length]. rewrite exec_ret. zcases.
  - cbn [write_array]. rewrite exec_bind, IH, mem_store. cbn [length].
    zcases.
    + replace (Z.to_nat (q - p)) with (S (Z.to_nat (q - (p + 1)))) by lia.
      reflexivity.
    + subst q. now replace (Z.to_nat (p - p)) with 0%nat by lia.
Qed.

Lemma thrust_sort_mem {T : Type} (comp : T -> T -> bool) first last (d : device T) q :
  let n := Z.to_nat (last - first) in
  mem (exec (thrust_sort first last comp) d) q =
  if (first <=? q) && (q <? first + Z.of_nat n)
  then nth (Z.to_nat (q - first)) (sort_list comp (read_array (mem d) first n)) (mem d q)
  else mem d q.
Proof.
  intros n. unfold thrust_sort. rewrite exec_bind.
  unfold exec at 1. cbn beta.
  change (snd (write_array first ?l ?d')) with (exec (write_array first l) d').
  rewrite write_array_mem, sort_list_length, read_array_length, mem_launch.
  reflexivity.
Qed.

Lemma thrust_sort_array {T : Type} (comp : T -> T -> bool) first size (d : device T) :
  read_array (mem (exec (thrust_sort first (first + size) comp) d)) first (Z.to_nat size)
  = sort_list comp (read_array (mem d) first (Z.to_nat size)).
Proof.
  set (n := Z.to_nat size).
  assert (Hn : Z.to_nat (first + size - first) = n) by (unfold n; f_equal; lia).
  apply nth_ext with (d := mem d first) (d' := mem d first).
  - now rewrite sort_list_length, !read_array_length.
  - intros i Hi. rewrite read_array_length in Hi.
    rewrite read_array_nth by assumption.
    rewrite thrust_sort_mem. cbv zeta. rewrite Hn.
    replace ((first <=? first + Z.of_nat i)
             && (first + Z.of_nat i <? first + Z.of_nat n)) with true
      by (symmetry; zcases).
    replace (Z.to_nat (first + Z.of_nat i - first)) with i by lia.
    apply nth_indep. now rewrite sort_list_length, read_array_length.
Qed.

Lemma gpu_sort_array_up (d : device R) (begin size dir : Z) :
  0 < dir ->
  read_array (mem (exec (GpuSrc.gpu_sort begin size (Some dir)) d)) begin (Z.to_nat size)
  = sort_list Rltb (read_array (mem d) begin (Z.to_nat size)).
Proof.
  intros Hd. unfold GpuSrc.gpu_sort. cbn [dflt].
  apply Z.gtb_lt in Hd. rewrite Hd. apply thrust_sort_array.
Qed.

Lemma gpu_sort_array_down (d : device R) (begin size dir : Z) :
  dir <= 0 ->
  read_array (mem (exec (GpuSrc.gpu_sort begin size (Some dir)) d)) begin (Z.to_nat size)
  = sort_list (GpuSrc.greater (T:=R)) (read_array (mem d) begin (Z.to_nat size)).
Proof.
  intros Hd. unfold GpuSrc.gpu_sort. cbn [dflt].
  destruct (dir >? 0) eqn:E; [apply Z.gtb_lt in E; lia|].
  apply thrust_sort_array.
Qed.

Lemma gpu_sort_frame {T : Type} `{Scalar T} (d : device T) (begin size : Z)
    (dir : option Z) (q : Z) :
  q < begin \/ begin + size <= q ->
  mem (exec (GpuSrc.gpu_sort begin size dir) d) q = mem d q.
Proof.
  intros Hq. unfold GpuSrc.gpu_sort. cbv zeta.
  destruct (dflt 1 dir >? 0); rewrite thrust_sort_mem; cbv zeta; zcases.
Qed.

(** Both generations sort in the same way. *)
Lemma mythrust_gpu_sort_same {T : Type} `{Scalar T} :
  MyThrust.gpu_sort (T:=T) = GpuSrc.gpu_sort (T:=T).
Proof. reflexivity. Qed.

(** C5.  [gpu_sort] rearranges the array in place: for a positive
    direction (and for the default) the array comes out in ascending order
    and is a permutation of what it was, otherwise in descending order;
    nothing outside the array changes; sorting ascending and then
    descending gives the ascending result reversed; an array that is
    already in order comes out as it went in, so sorting again in the
    same direction changes nothing. *)
Theorem gpu_sort_spec (d : device R) (begin size up down : Z) :
  0 < up -> down <= 0 ->
  let n := Z.to_nat size in
  let arr := fun d : device R => read_array (mem d) begin n in
  let sorted := fun (dir : Z) (d : device R) =>
                  exec (GpuSrc.gpu_sort begin size (Some dir)) d in
  (StronglySorted Rle (arr (sorted up d)) /\ Permutation (arr d) (arr (sorted up d))) /\
  (StronglySorted Rge (arr (sorted down d)) /\
   Permutation (arr d) (arr (sorted down d))) /\
  arr (exec (GpuSrc.gpu_sort begin size None) d) = arr (sorted up d) /\
  (forall dir q, q < begin \/ begin + size <= q -> mem (sorted dir d) q = mem d q) /\
  arr (sorted down (sorted up d)) = rev (arr (sorted up d)) /\
  (StronglySorted Rle (arr d) -> arr (sorted up d) = arr d) /\
  (StronglySorted Rge (arr d) -> arr (sorted down d) = arr d) /\
  arr (sorted up (sorted up d)) = arr (sorted up d) /\
  arr (sorted down (sorted down d)) = arr (sorted down d).
Proof.
  intros Hup Hdown n arr sorted. unfold arr, sorted, n.
  rewrite !(gpu_sort_array_up _ _ _ Hup), !(gpu_sort_array_down _ _ _ Hdown).
  rewrite !(gpu_sort_array_up _ _ _ Hup).
  split; [split; [apply sort_asc_sorted | apply sort_list_perm]|].
  split; [split; [apply sort_desc_sorted | apply sort_list_perm]|].
  split; [|split; [|split; [|split; [|split; [|split]]]]].
  - change None with (@None Z). unfold GpuSrc.gpu_sort. cbn [dflt].
    change (1 >? 0) with true. cbv iota. apply thrust_sort_array.
  - intros dir q Hq. now apply gpu_sort_frame.
  - rewrite sort_desc_is_rev_asc. f_equal. apply sort_asc_fixed, sort_asc_sorted.
  - apply sort_asc_fixed.
  - apply sort_desc_fixed.
  - apply sort_asc_fixed, sort_asc_sorted.
  - apply sort_desc_fixed, sort_desc_sorted.
Qed.

Lemma gpu_sort_spec_witness :
  0 < 1 /\ -1 <= 0 /\
  read_array
    (mem (exec (GpuSrc.gpu_sort 0 3 (Some (-1)))
            (exec (GpuSrc.gpu_sort 0 3 (Some 1)) (list_device [3; 1; 2]%R))))
    0 (Z.to_nat 3)
  = rev (read_array
           (mem (exec (GpuSrc.gpu_sort 0 3 (Some 1)) (list_device [3; 1; 2]%R)))
           0 (Z.to_nat 3)).
Proof.
  assert (Hu : 0 < 1) by lia. assert (Hd : -1 <= 0) by lia.
  split; [exact Hu|]. split; [exact Hd|].
  exact (proj1 (proj2 (proj2 (proj2 (proj2
    (@gpu_sort_spec (list_device [3; 1; 2]%R) 0 3 1 (-1) Hu Hd)))))).
Defined.

(* ================================================================== *)
(** ** Filling a column and a row                                     *)
(* ================================================================== *)

Lemma gpu_fill_col_float_mem {T : Type} (d : device T)
    (begin row col colIdx : Z) (val : T) (q : Z) :
  let c := if colIdx <? 0 then colIdx + col else colIdx in
  mem (exec (MyThrust.gpu_fill_col_float begin row col colIdx val) d) q =
  if (begin + row * c <=? q) && (q <? begin + row * c + Z.max 0 row)
  then val else mem d q.
Proof. intros c. unfold MyThrust.gpu_fill_col_float. apply thrust_fill_n_mem. Qed.

(* ================================================================== *)
(** ** Default parameters of the functors                             *)
(* ================================================================== *)

Lemma Rpow_2_3 : Rpow 2 3 = 8%R.
Proof.
  unfold Rpow, Rfloor. rewrite Int_part_IZR.
  destruct (Req_dec_T 3 3); [|congruence]. simpl. lra.
Qed.

(** C8 (what the code does).  The constructor of the unary functors
    defaults to [a = 1, b = 0, m = 1], and so do the [gpu_name] wrappers
    of both kinds; the constructor of the two-argument functors defaults
    [m] to 0.  A [pow] functor built from the exponent 3 alone maps 2 to
    0, while [pow(2, 3)] is 8. *)
Theorem functor_2_default_m_is_zero :
  (forall (T : Type) (S : Scalar T),
      GpuSrc.functor_ None None None
      = {| GpuSrc.f1_a := 1%S; GpuSrc.f1_b := 0%S; GpuSrc.f1_m := 1%S |}) /\
  (forall (T : Type) (S : Scalar T) (p : T),
      GpuSrc.functor_2 p None None None
      = {| GpuSrc.f2_p := p; GpuSrc.f2_a := 1%S; GpuSrc.f2_b := 0%S;
           GpuSrc.f2_m := 0%S |}) /\
  GpuSrc.functor_2_call N_pow (GpuSrc.functor_2 3%R None None None) 2%R = 0%R /\
  call2 N_pow 2%R 3%R = 8%R /\
  (forall (d : device R) (begin size : Z),
      GpuSrc.gpu_2 N_pow begin size begin 3%R None None None d
      = thrust_transform begin (begin + size) begin
          (GpuSrc.functor_2_call N_pow
             (GpuSrc.functor_2 3%R (Some 1%R) (Some 0%R) (Some 1%R))) d).
Proof.
  split; [reflexivity|]. split; [reflexivity|].
  split; [|split; [exact Rpow_2_3 | reflexivity]].
  unfold GpuSrc.functor_2_call, GpuSrc.functor_2. rscal. cbn. lra.
Qed.

(* ================================================================== *)
(** ** Random normal fill                                             *)
(* ================================================================== *)

(** After [z] steps from [x] the state is [48271^z * x] modulo
    [2^31 - 1]. *)
Lemma rng_discard_x (z : nat) : forall e,
  0 <= GpuSrc.rng_x e < 2147483647 ->
  GpuSrc.rng_x (GpuSrc.rng_discard z e)
  = (48271 ^ Z.of_nat z * GpuSrc.rng_x e) mod 2147483647.
Proof.
  induction z as [|z IH]; intros e He; cbn [GpuSrc.rng_discard].
  - rewrite Z.pow_0_r, Z.mul_1_l, Z.mod_small; [reflexivity | exact He].
  - rewrite IH.
    + cbn [GpuSrc.rng_next snd GpuSrc.rng_x]. unfold GpuSrc.minstd_step.
      rewrite Z.mul_mod_idemp_r by lia. f_equal.
      rewrite Nat2Z.inj_succ, Z.pow_succ_r by lia. ring.
    + cbn [GpuSrc.rng_next snd GpuSrc.rng_x]. unfold GpuSrc.minstd_step.
      apply Z.mod_pos_bound. lia.
Qed.

(** One step of trial division by the prime [q]. *)
Ltac peel P :=
  match goal with
  | Hd : (?m | ?q * ?rest) |- _ =>
      destruct (Z.BoolSpec_divide q m) as [Hy|Hn];
      [ exists q; split; [simpl; tauto | exact Hy]
      | apply Z.gauss in Hd;
        [| rewrite Z.gcd_comm; apply (Z.coprime_prime_l q m P Hn)];
        clear Hn ]
  end.

(** *** The period of the Lehmer generator *)

Section MinstdPeriod.
Let p : Z := 2147483647.
Let g : Z := 48271.
Let N : Z := 2147483646.

(** [unit_power k]: [48271^k] is 1 modulo [2^31 - 1]. *)
Let unit_power (k : Z) : Prop := g ^ k mod p = 1.

Lemma unit_power_add (a b : Z) :
  0 <= a -> 0 <= b -> unit_power a -> unit_power b -> unit_power (a + b).
Proof.
  unfold unit_power. intros Ha Hb Pa Pb.
  rewrite Z.pow_add_r, Z.mul_mod, Pa, Pb by (unfold p; lia). reflexivity.
Qed.

Lemma unit_power_mul (a c : Z) :
  0 <= a -> 0 <= c -> unit_power a -> unit_power (a * c).
Proof.
  unfold unit_power. intros Ha Hc Pa.
  rewrite Z.pow_mul_r, Zpower_mod, Pa, Z.pow_1_l by (unfold p; lia).
  reflexivity.
Qed.

Lemma unit_power_sub (a b : Z) :
  0 <= a -> 0 <= b -> unit_power (a + b) -> unit_power a -> unit_power b.
Proof.
  unfold unit_power. intros Ha Hb Pab Pa.
  rewrite Z.pow_add_r, Z.mul_mod, Pa, Z.mul_1_l, Z.mod_mod in Pab
    by (unfold p; lia).
  exact Pab.
Qed.

Lemma unit_power_gcd (n : nat) : forall a b,
  0 <= a -> 0 <= b -> b < Z.of_nat n ->
  unit_power a -> unit_power b -> unit_power (Z.gcd a b).
Proof.
  induction n as [|n IH]; intros a b Ha Hb Hn Pa Pb; [lia|].
  destruct (Z.eq_dec b 0) as [->|Hb0].
  - rewrite Z.gcd_0_r, Z.abs_eq by assumption. exact Pa.
  - rewrite Z.gcd_comm, <- (Z.gcd_mod a b), Z.gcd_comm by assumption.
    pose proof (Z.mod_pos_bound a b ltac:(lia)) as Hm.
    apply IH; try lia; try assumption.
    apply unit_power_sub with (a := b * (a / b)).
    + apply Z.mul_nonneg_nonneg; [lia | apply Z.div_pos; lia].
    + lia.
    + rewrite <- Z.div_mod by assumption. exact Pa.
    + apply unit_power_mul; [lia | apply Z.div_pos; lia | exact Pb].
Qed.

Lemma unit_power_N : unit_power N.
Proof.
  unfold unit_power. rewrite <- Zpow_mod_correct by (unfold p; lia).
  vm_compute. reflexivity.
Qed.

Lemma small_prime (q : Z) :
  1 < q ->
  forallb (fun n => negb (q mod n =? 0)) (map Z.of_nat (seq 2 (Z.to_nat q - 2))) = true ->
  Z.prime q.
Proof.
  intros Hq Hall. split; [exact Hq|]. intros n Hn Hd.
  rewrite forallb_forall in Hall.
  assert (Hin : In n (map Z.of_nat (seq 2 (Z.to_nat q - 2)))).
  { apply in_map_iff. exists (Z.to_nat n). split; [lia | apply in_seq; lia]. }
  apply Hall in Hin. apply Z.mod_divide in Hd; [|lia].
  rewrite Hd in Hin. discriminate.
Qed.

(** A proper divisor of [2^31 - 2 = 2 * 3^2 * 7 * 11 * 31 * 151 * 331]
    divides it with one prime factor removed. *)
Lemma proper_divisor_factor (e : Z) :
  (e | N) -> 0 < e < N ->
  exists q, In q [2; 3; 7; 11; 31; 151; 331] /\ (e | N / q).
Proof.
  intros [m Hm] He.
  assert (Hm1 : 1 < m) by (unfold N in *; nia).
  assert (Hq : exists q, In q [2; 3; 7; 11; 31; 151; 331] /\ (q | m)).
  { assert (P2 : Z.prime 2) by (apply small_prime; [lia | reflexivity]).
    assert (P3 : Z.prime 3) by (apply small_prime; [lia | reflexivity]).
    assert (P7 : Z.prime 7) by (apply small_prime; [lia | reflexivity]).
    assert (P11 : Z.prime 11) by (apply small_prime; [lia | reflexivity]).
    assert (P31 : Z.prime 31) by (apply small_prime; [lia | reflexivity]).
    assert (P151 : Z.prime 151) by (apply small_prime; [lia | vm_compute; reflexivity]).
    assert (P331 : Z.prime 331) by (apply small_prime; [lia | vm_compute; reflexivity]).
    assert (Hd : (m | 2 * (3 * (3 * (7 * (11 * (31 * (151 * (331 * 1)))))))))
      by (exists e; unfold N in Hm; lia).
    peel P2. peel P3. peel P3. peel P7. peel P11. peel P31. peel P151. peel P331.
    apply Z.divide_1_r_nonneg in Hd; lia. }
  destruct Hq as (q & Hin & [c Hc]).
  exists q. split; [exact Hin|].
  assert (Hq0 : 0 < q) by (simpl in Hin; lia).
  exists c. subst m. replace N with ((c * e) * q) by lia.
  now rewrite Z.div_mul by lia.
Qed.

(** [48271] has order [2^31 - 2] modulo [2^31 - 1]. *)
Lemma minstd_order (k : Z) : 0 < k < N -> ~ unit_power k.
Proof.
  intros Hk Pk.
  assert (Pe : unit_power (Z.gcd k N)).
  { apply (unit_power_gcd (Z.to_nat N + 1)); try (unfold N; lia);
      [exact Pk | exact unit_power_N]. }
  pose proof (Z.gcd_divide_l k N) as Dk. pose proof (Z.gcd_divide_r k N) as DN.
  pose proof (Z.gcd_nonneg k N) as G0.
  assert (Ge : 0 < Z.gcd k N < N).
  { split.
    - destruct (Z.eq_dec (Z.gcd k N) 0) as [E|]; [|lia].
      apply Z.gcd_eq_0_l in E. lia.
    - apply Z.divide_pos_le in Dk; lia. }
  destruct (@proper_divisor_factor _ DN Ge) as (q & Hin & [c Hc]).
  assert (Pq : unit_power (N / q)).
  { rewrite Hc, Z.mul_comm. apply unit_power_mul; [lia | | exact Pe].
    assert (0 <= N / q) by (apply Z.div_pos; [unfold N; lia | simpl in Hin; lia]).
    nia. }
  unfold unit_power in Pq. rewrite <- Zpow_mod_correct in Pq by (unfold p; lia).
  simpl in Hin.
  destruct Hin as [<-|[<-|[<-|[<-|[<-|[<-|[<-|[]]]]]]]];
    vm_compute in Pq; discriminate.
Qed.

(** Within one period, two different powers of [48271] differ modulo
    [2^31 - 1]. *)
Lemma minstd_powers_distinct (i j : Z) :
  0 <= i < j -> j - i < N -> g ^ i mod p <> g ^ j mod p.
Proof.
  intros Hij Hper E.
  apply (@minstd_order (j - i)); [lia|]. unfold unit_power.
  assert (Hinv : (g ^ (i * (N - 1)) * g ^ i) mod p = 1).
  { rewrite <- Z.pow_add_r by (unfold N; nia).
    replace (i * (N - 1) + i) with (N * i) by ring.
    apply unit_power_mul; [unfold N; lia | lia | exact unit_power_N]. }
  replace j with (i + (j - i)) in E by lia.
  rewrite Z.pow_add_r in E by lia.
  set (A := g ^ i) in *. set (B := g ^ (j - i)) in *.
  set (H := g ^ (i * (N - 1))) in *.
  assert (S1 : ((H * A) * B) mod p = B mod p).
  { rewrite Z.mul_mod, Hinv, Z.mul_1_l, Z.mod_mod by (unfold p; lia).
    reflexivity. }
  assert (S2 : ((H * A) * B) mod p = 1).
  { rewrite <- Z.mul_assoc, Z.mul_mod, <- E, <- Z.mul_mod by (unfold p; lia).
    exact Hinv. }
  congruence.
Qed.
End MinstdPeriod.

(** Within one period, the engine is in different states after
    different numbers of discarded values. *)
Lemma minstd_states_distinct (i j : Z) :
  0 <= i < j -> j - i < 2147483646 ->
  GpuSrc.rng_x (GpuSrc.rng_discard (Z.to_nat i) GpuSrc.minstd_rand_)
  <> GpuSrc.rng_x (GpuSrc.rng_discard (Z.to_nat j) GpuSrc.minstd_rand_).
Proof.
  intros Hij Hper.
  rewrite !rng_discard_x by (cbn; lia).
  cbn [GpuSrc.rng_x GpuSrc.minstd_rand_]. rewrite !Z.mul_1_r, !Z2Nat.id by lia.
  exact (@minstd_powers_distinct i j Hij Hper).
Qed.

Lemma rng_next_discard (n : nat) : forall e,
  snd (GpuSrc.rng_next (GpuSrc.rng_discard n e)) = GpuSrc.rng_discard (S n) e.
Proof.
  induction n as [|n IH]; intros e; [reflexivity|].
  cbn [GpuSrc.rng_discard]. rewrite IH. reflexivity.
Qed.

Lemma rng_discard_add (a b : nat) : forall e,
  GpuSrc.rng_discard (a + b) e = GpuSrc.rng_discard b (GpuSrc.rng_discard a e).
Proof.
  induction a as [|a IH]; intros e; [reflexivity|].
  cbn [Nat.add GpuSrc.rng_discard]. apply IH.
Qed.

(** The value at stream position [p] is [48271^(p+1)] modulo
    [2^31 - 1]. *)
Lemma stream_value_power (p : nat) :
  stream_value p = 48271 ^ (Z.of_nat p + 1) mod 2147483647.
Proof.
  unfold stream_value. rewrite rng_discard_x by (cbn; lia).
  cbn [GpuSrc.rng_x GpuSrc.minstd_rand_].
  rewrite Z.mul_1_r, Nat2Z.inj_succ. reflexivity.
Qed.

(** Within one period different stream positions hold different
    values. *)
Lemma stream_values_distinct (p q : nat) :
  (p < q)%nat -> Z.of_nat q - Z.of_nat p < 2147483646 ->
  stream_value p <> stream_value q.
Proof.
  intros Hpq Hper. unfold stream_value.
  pose proof (@minstd_states_distinct (Z.of_nat (S p)) (Z.of_nat (S q))) as D.
  rewrite !Nat2Z.id in D. apply D; lia.
Qed.

Lemma distinctb_NoDup (l : list Z) : distinctb l = true -> NoDup l.
Proof.
  induction l as [|x r IH]; intros E; [constructor|].
  cbn [distinctb] in E. apply andb_prop in E. destruct E as [E1 E2].
  constructor; [|exact (IH E2)].
  intros Hin. apply negb_true_iff in E1.
  assert (Ex : existsb (Z.eqb x) r = true).
  { apply existsb_exists. exists x. split; [exact Hin | apply Z.eqb_refl]. }
  congruence.
Qed.

Lemma NoDup_app_disjoint {A : Type} (l l' : list A) (a : A) :
  NoDup (l ++ l') -> In a l -> ~ In a l'.
Proof.
  induction l as [|x l IH]; intros Hnd Hin Hin'; [contradiction|].
  cbn [app] in Hnd. inversion Hnd as [|? ? Hx Hnd']; subst.
  destruct Hin as [->|Hin].
  - apply Hx, in_or_app. now right.
  - exact (IH Hnd' Hin Hin').
Qed.

Lemma copy_position_In (idxs : list Z) (i : Z) : forall pos p,
  copy_position pos idxs i = Some p -> In i idxs.
Proof.
  induction idxs as [|j rest IH]; intros pos p E; [discriminate|].
  cbn [copy_position] in E.
  destruct (Z.eqb_spec j i) as [->|]; [now left|].
  right. exact (IH _ _ E).
Qed.

Section RandomFill.
Context {T : Type} `{Scalar T}.
Variable normal_deviate : Z -> T.
Implicit Types (f : @GpuSrc.rand_normal_struct T) (d : device T).

Let call := GpuSrc.rand_normal_struct_call normal_deviate.

(** What the normal distribution returns for the value at stream
    position [p]. *)
Let sample (dist : @GpuSrc.normal_distribution T) (p : nat) : T :=
  (GpuSrc.nd_mean dist + GpuSrc.nd_stddev dist * normal_deviate (stream_value p))%S.

(** A call on a functor whose engine stands at position [pos] samples
    position [pos + index] and leaves the engine behind it. *)
Lemma rand_normal_struct_call_at f (pos : nat) (index : Z) :
  GpuSrc.rns_rng f = GpuSrc.rng_discard pos GpuSrc.minstd_rand_ ->
  let p := (pos + Z.to_nat index)%nat in
  call f index =
  (sample (GpuSrc.rns_dist f) p,
   {| GpuSrc.rns_rng := GpuSrc.rng_discard (S p) GpuSrc.minstd_rand_;
      GpuSrc.rns_dist := GpuSrc.rns_dist f |}).
Proof.
  intros Hf p. unfold call, GpuSrc.rand_normal_struct_call.
  rewrite Hf, <- rng_discard_add. fold p.
  unfold GpuSrc.normal_distribution_call.
  pose proof (rng_next_discard p GpuSrc.minstd_rand_) as E.
  destruct (GpuSrc.rng_next (GpuSrc.rng_discard p GpuSrc.minstd_rand_))
    as [u e'] eqn:En.
  assert (Hu : u = GpuSrc.rng_x e').
  { unfold GpuSrc.rng_next in En. cbv zeta in En. inversion En. reflexivity. }
  cbn [snd] in E. subst e'. fold (stream_value p) in Hu.
  subst u. reflexivity.
Qed.

Lemma serve_copy_launches idxs : forall f first out d,
  launches (exec (serve_copy call f first out idxs) d) = launches d.
Proof.
  induction idxs as [|j rest IH]; intros f first out d; [reflexivity|].
  cbn [serve_copy]. destruct (call f j) as [x f'].
  rewrite exec_bind, IH. reflexivity.
Qed.

Lemma serve_copies_launches copies : forall f first out d,
  launches (exec (serve_copies call f first out copies) d) = launches d.
Proof.
  induction copies as [|c rest IH]; intros f first out d; [reflexivity|].
  cbn [serve_copies]. rewrite exec_bind, IH. apply serve_copy_launches.
Qed.

(** An address that no served index is stored at keeps its value. *)
Lemma serve_copy_frame idxs (first out q : Z) : forall f d,
  (forall j, In j idxs -> q <> out + (j - first)) ->
  mem (exec (serve_copy call f first out idxs) d) q = mem d q.
Proof.
  induction idxs as [|j rest IH]; intros f d Hq; [reflexivity|].
  cbn [serve_copy]. destruct (call f j) as [x f'].
  rewrite exec_bind, IH by (intros k Hk; apply Hq; now right).
  rewrite mem_store.
  destruct (Z.eqb_spec q (out + (j - first))) as [E|]; [|reflexivity].
  exfalso. exact (Hq j (or_introl eq_refl) E).
Qed.

Lemma serve_copies_frame copies (first out q : Z) : forall f d,
  (forall j, In j (concat copies) -> q <> out + (j - first)) ->
  mem (exec (serve_copies call f first out copies) d) q = mem d q.
Proof.
  induction copies as [|c rest IH]; intros f d Hq; [reflexivity|].
  cbn [serve_copies]. cbn [concat] in Hq.
  rewrite exec_bind, IH by (intros k Hk; apply Hq, in_or_app; now right).
  apply serve_copy_frame. intros k Hk. apply Hq, in_or_app. now left.
Qed.

(** An index that a copy serves once gets the sample at the position
    that [copy_position] computes. *)
Lemma serve_copy_sample idxs (first out i : Z) : forall pos f d p,
  GpuSrc.rns_rng f = GpuSrc.rng_discard pos GpuSrc.minstd_rand_ ->
  NoDup idxs ->
  copy_position pos idxs i = Some p ->
  mem (exec (serve_copy call f first out idxs) d) (out + (i - first))
  = sample (GpuSrc.rns_dist f) p.
Proof.
  induction idxs as [|j rest IH]; intros pos f d p Hf Hnd E; [discriminate|].
  cbn [serve_copy copy_position] in *.
  rewrite (rand_normal_struct_call_at f pos j Hf). cbv zeta.
  inversion Hnd as [|? ? Hnotin Hnd']; subst.
  rewrite exec_bind.
  destruct (Z.eqb_spec j i) as [->|Hne].
  - inversion E; subst p.
    rewrite serve_copy_frame.
    + rewrite mem_store, Z.eqb_refl. reflexivity.
    + intros k Hk Heq. apply Hnotin.
      replace i with k by lia. exact Hk.
  - erewrite IH; [reflexivity | reflexivity | exact Hnd' | exact E].
Qed.

(** The same for the whole schedule, every copy starting from the
    functor as constructed. *)
Lemma serve_copies_sample copies (first out i : Z) (mean stddev : T) : forall d p,
  NoDup (concat copies) ->
  sampled_position copies i = Some p ->
  mem (exec (serve_copies call (GpuSrc.rand_normal_struct_ mean stddev)
               first out copies) d) (out + (i - first))
  = (mean + stddev * normal_deviate (stream_value p))%S.
Proof.
  induction copies as [|c rest IH]; intros d p Hnd E; [discriminate|].
  cbn [serve_copies sampled_position concat] in *.
  rewrite exec_bind.
  apply NoDup_app_remove_l in Hnd as Hrest.
  destruct (copy_position 0 c i) as [p0|] eqn:Ec.
  - inversion E; subst p0.
    rewrite serve_copies_frame.
    + rewrite (@serve_copy_sample c first out i 0%nat _ d p);
        [reflexivity | reflexivity | | exact Ec].
      apply NoDup_app_remove_r in Hnd. exact Hnd.
    + intros k Hk Heq.
      assert (k = i) by lia. subst k.
      apply copy_position_In in Ec.
      exact (@NoDup_app_disjoint _ c (concat rest) i Hnd Ec Hk).
  - apply IH; assumption.
Qed.
End RandomFill.

(** C9 (what the code does).  [gpu_fill_rand_normal] on 514 elements,
    run the way Thrust's
    CUDA back end runs a transform (blocks of 256 threads, 2 items per
    thread, one copy of the functor per thread): the copy of thread 128
    serves index 128 and then index 384.  [operator()] advances the
    member engine, so the second call starts at stream position 129,
    skips 384 values and samples position 513, which is the position
    that the fresh copy serving index 513 samples as well.  The two
    elements get the same number, and index 384 does not get the value
    after 384 discarded draws. *)
Theorem gpu_fill_rand_normal_positions_collide {T : Type} `{Scalar T}
    (normal_deviate : Z -> T) (d : device T) (begin : Z) (mean stddev : T) :
  let schedule := tiled 256 2 in
  let fill :=
    GpuSrc.gpu_fill_rand_normal normal_deviate schedule begin 514 mean stddev in
  nth 128 (schedule 0 514) [] = [128; 384] /\
  nth 257 (schedule 0 514) [] = [513] /\
  sampled_position (schedule 0 514) 384 = Some 513%nat /\
  sampled_position (schedule 0 514) 513 = Some 513%nat /\
  mem (exec fill d) (begin + 384)
    = (mean + stddev * normal_deviate (stream_value 513))%S /\
  mem (exec fill d) (begin + 513)
    = (mean + stddev * normal_deviate (stream_value 513))%S /\
  stream_value 513 <> stream_value 384.
Proof.
  intros schedule fill.
  assert (Hnd : NoDup (concat (schedule 0 514))).
  { apply distinctb_NoDup. vm_compute. reflexivity. }
  assert (P384 : sampled_position (schedule 0 514) 384 = Some 513%nat)
    by (vm_compute; reflexivity).
  assert (P513 : sampled_position (schedule 0 514) 513 = Some 513%nat)
    by (vm_compute; reflexivity).
  assert (Hmem : forall i p, sampled_position (schedule 0 514) i = Some p ->
            mem (exec fill d) (begin + i)
            = (mean + stddev * normal_deviate (stream_value p))%S).
  { intros i p Hp. unfold fill, GpuSrc.gpu_fill_rand_normal, thrust_transform_counting.
    rewrite exec_bind. replace (begin + i) with (begin + (i - 0)) by lia.
    apply serve_copies_sample; assumption. }
  split; [vm_compute; reflexivity|].
  split; [vm_compute; reflexivity|].
  split; [exact P384|]. split; [exact P513|].
  split; [exact (Hmem _ _ P384)|]. split; [exact (Hmem _ _ P513)|].
  apply not_eq_sym, stream_values_distinct; lia.
Qed.

(* ================================================================== *)
(** ** The row-fill kernel                                            *)
(* ================================================================== *)

Section Writes.
Context {T : Type}.
Variable F : Z -> T.

Lemma writes_ret : writes (ret tt) (fun _ => False) F.
Proof. intros d q. right. split; [tauto | reflexivity]. Qed.

Lemma writes_launch : writes (@launch T) (fun _ => False) F.
Proof. intros d q. right. split; [tauto | reflexivity]. Qed.

Lemma writes_store (p : Z) (v : T) :
  v = F p -> writes (store p v) (fun q => q = p) F.
Proof.
  intros Hv d q. rewrite mem_store.
  destruct (Z.eqb_spec q p); [left | right]; split; auto. congruence.
Qed.

Lemma writes_bind (c1 c2 : Dev T unit) (A1 A2 : Z -> Prop) :
  writes c1 A1 F -> writes c2 A2 F ->
  writes (c1 ;; c2) (fun q => A1 q \/ A2 q) F.
Proof.
  intros F1 F2 d q. rewrite exec_bind.
  destruct (F2 (exec c1 d) q) as [[H2 E2]|[H2 E2]].
  - left. split; [now right | exact E2].
  - destruct (F1 d q) as [[H1 E1]|[H1 E1]].
    + left. split; [now left | congruence].
    + right. split; [tauto | congruence].
Qed.

Lemma writes_ext (c : Dev T unit) (A A' : Z -> Prop) :
  (forall q, A q <-> A' q) -> writes c A F -> writes c A' F.
Proof.
  intros E W d q. destruct (W d q) as [[H1 E1]|[H1 E1]].
  - left. split; [now apply E | exact E1].
  - right. split; [now rewrite <- E | exact E1].
Qed.

Lemma writes_for_loop (body : Z -> Dev T unit) (A : Z -> Z -> Prop) (n : nat) :
  (forall i, writes (body i) (A i) F) ->
  forall from,
    writes (for_loop n from body)
           (fun q => exists i, from <= i < from + Z.of_nat n /\ A i q) F.
Proof.
  intros Hb. induction n as [|n IH]; intros from; cbn [for_loop].
  - apply writes_ext with (A := fun _ => False); [|apply writes_ret].
    intros q. split; [tauto | intros (i & Hi & _); lia].
  - eapply writes_ext; [| apply writes_bind; [apply Hb | apply (IH (from + 1))]].
    intros q. split.
    + intros [H0 | (i & Hi & Hs)].
      * exists from. split; [lia | exact H0].
      * exists i. split; [lia | exact Hs].
    + intros (i & Hi & Hs). destruct (Z.eq_dec i from) as [->|Hne].
      * now left.
      * right. exists i. split; [lia | exact Hs].
Qed.

(** The threads of a block, one after the other. *)
Lemma writes_fold {X : Type} (W : X -> Dev T unit) (A : X -> Z -> Prop) (l : list X) :
  (forall t, In t l -> writes (W t) (A t) F) ->
  forall (c0 : Dev T unit) (A0 : Z -> Prop),
    writes c0 A0 F ->
    writes (fold_left (fun c t => c ;; W t) l c0)
           (fun q => A0 q \/ exists t, In t l /\ A t q) F.
Proof.
  induction l as [|t l IH]; intros Hw c0 A0 H0; cbn [fold_left].
  - eapply writes_ext; [|exact H0].
    intros q. split; [tauto | intros [H|(t & [] & _)]; exact H].
  - eapply writes_ext;
      [| apply IH;
         [intros t' Ht'; apply Hw; now right
         | apply writes_bind; [exact H0 | apply Hw; now left]]].
    intros q. cbv beta. split.
    + intros [[H|H]|(t' & Ht' & H)].
      * now left.
      * right. exists t. split; [now left | exact H].
      * right. exists t'. split; [now right | exact H].
    + intros [H|(t' & [<-|Ht'] & H)].
      * left. now left.
      * left. now right.
      * right. exists t'. split; assumption.
Qed.
End Writes.

Section Fills.
Context {T : Type}.
Variable val : T.

(** Every column index below [col] is the index of one thread of the
    launch shape that [setKernelDim1D] chooses for [col] threads. *)
Lemma setKernelDim1D_covers (col j : Z) :
  0 <= j < col ->
  let (gridDim, blockDim) :=
    MyThrust.setKernelDim1D col (MyThrust.dim3_ None None None)
                                (MyThrust.dim3_ None None None) in
  exists bx tx,
    0 <= bx < MyThrust.dx gridDim /\ 0 <= tx < MyThrust.dx blockDim /\
    j = bx * MyThrust.dx blockDim + tx.
Proof.
  intros Hj. unfold MyThrust.setKernelDim1D.
  destruct (Z.gtb_spec col 1024) as [Hbig|Hsmall].
  - cbn [MyThrust.dx]. exists (j / 1024), (j mod 1024).
    rewrite Z.quot_div_nonneg by lia.
    pose proof (Z.div_le_mono j col 1024 ltac:(lia) ltac:(lia)).
    pose proof (Z.div_pos j 1024 ltac:(lia) ltac:(lia)).
    pose proof (Z.mod_pos_bound j 1024 ltac:(lia)).
    pose proof (Z.div_mod j 1024 ltac:(lia)). lia.
  - destruct (Z.eqb_spec (Z.rem col 32) 0) as [Hr|Hr]; cbn [MyThrust.dx MyThrust.dim3_ dflt].
    + exists 0, j. lia.
    + exists 0, j. rewrite Z.quot_div_nonneg by lia.
      pose proof (Z.div_mod col 32 ltac:(lia)).
      pose proof (Z.mod_pos_bound col 32 ltac:(lia)). lia.
Qed.

(** [gpu_fill_row_float] sets the element of the resolved row in each of
    the [col] columns and leaves every other address as it was. *)
Lemma gpu_fill_row_float_fills (begin row col rowIdx : Z) :
  let r := if rowIdx <? 0 then rowIdx + row else rowIdx in
  fills (MyThrust.gpu_fill_row_float begin row col rowIdx val)
        (fun q => exists j, 0 <= j < col /\ q = begin + (row * j + r)) val.
Proof.
  intros r. unfold fills, MyThrust.gpu_fill_row_float. fold r.
  pose proof (@setKernelDim1D_covers col) as Hcov.
  destruct (MyThrust.setKernelDim1D col (MyThrust.dim3_ None None None)
              (MyThrust.dim3_ None None None)) as [gridDim blockDim].
  unfold MyThrust.launch_1D.
  eapply writes_ext; [| apply writes_bind; [apply writes_launch|]].
  2: { apply writes_for_loop with
         (A := fun bx q => exists tx,
                 0 <= tx < 0 + Z.of_nat (Z.to_nat (MyThrust.dx blockDim)) /\
                 bx * MyThrust.dx blockDim + tx < col /\
                 q = begin + (row * (bx * MyThrust.dx blockDim + tx) + r)).
       intros bx.
       apply writes_for_loop with
         (A := fun tx q =>
                 bx * MyThrust.dx blockDim + tx < col /\
                 q = begin + (row * (bx * MyThrust.dx blockDim + tx) + r)).
       intros tx.
       unfold MyThrust.gpu_fill_row_float_kernel. cbn [MyThrust.dx MyThrust.dim3_ dflt].
       destruct (Z.geb_spec (bx * MyThrust.dx blockDim + tx) col).
       - apply writes_ext with (A := fun _ => False); [|apply writes_ret].
         intros q. split; [tauto | intros [Hlt _]; lia].
       - eapply writes_ext; [|apply writes_store; reflexivity].
         intros q. cbv beta. split; [intros ->; split; [lia | reflexivity] | tauto]. }
  intros q. cbv beta. split.
  - intros [[]|(bx & Hbx & tx & Htx & Hlt & ->)].
    exists (bx * MyThrust.dx blockDim + tx). split; [nia | reflexivity].
  - intros (j & Hj & ->). right.
    destruct (Hcov j Hj) as (bx & tx & Hbx & Htx & ->).
    exists bx. split; [lia|]. exists tx. split; [lia|]. split; [lia | reflexivity].
Qed.
End Fills.

(** C7.  A negative index [idx] that [idx + dimension] brings back to
    zero or above is the same argument as [idx + dimension], for the
    column fill and for the row fill; the column fill sets the [row]
    consecutive elements of the resolved column, from
    [begin + row * c], to the value and leaves every other address as it
    was; the row fill sets the element of the resolved row in each of the
    [col] columns and leaves every other address as it was. *)
Theorem fill_negative_index {T : Type}
    (d : device T) (begin row col idx : Z) (val : T) :
  idx < 0 ->
  (0 <= idx + col ->
   MyThrust.gpu_fill_col_float begin row col idx val
   = MyThrust.gpu_fill_col_float begin row col (idx + col) val) /\
  (0 <= idx + row ->
   MyThrust.gpu_fill_row_float begin row col idx val
   = MyThrust.gpu_fill_row_float begin row col (idx + row) val) /\
  (forall q,
     let c := idx + col in
     mem (exec (MyThrust.gpu_fill_col_float begin row col idx val) d) q =
     if (begin + row * c <=? q) && (q <? begin + row * c + Z.max 0 row)
     then val else mem d q) /\
  fills (MyThrust.gpu_fill_row_float begin row col idx val)
        (fun q => exists j, 0 <= j < col /\ q = begin + (row * j + (idx + row))) val.
Proof.
  intros Hneg. split; [|split; [|split]].
  - intros Hc. unfold MyThrust.gpu_fill_col_float.
    destruct (Z.ltb_spec idx 0); [|lia].
    destruct (Z.ltb_spec (idx + col) 0); [lia|]. reflexivity.
  - intros Hr. unfold MyThrust.gpu_fill_row_float.
    destruct (Z.ltb_spec idx 0); [|lia].
    destruct (Z.ltb_spec (idx + row) 0); [lia|]. reflexivity.
  - intros q c. rewrite gpu_fill_col_float_mem. cbv zeta.
    destruct (Z.ltb_spec idx 0); [|lia]. reflexivity.
  - pose proof (gpu_fill_row_float_fills val begin row col idx) as F.
    cbv zeta in F. destruct (Z.ltb_spec idx 0); [exact F | lia].
Qed.

(** Row index [-1] of a matrix with 5 rows is row index 4. *)
Lemma fill_negative_index_witness :
  -1 < 0 /\ 0 <= -1 + 5 /\
  MyThrust.gpu_fill_row_float (T:=R) 0 5 3 (-1) 7%R
  = MyThrust.gpu_fill_row_float (T:=R) 0 5 3 4 7%R.
Proof.
  assert (Hn : -1 < 0) by lia. assert (Hr : 0 <= -1 + 5) by lia.
  split; [exact Hn|]. split; [exact Hr|].
  exact (proj1 (proj2 (@fill_negative_index R ramp_device 0 5 3 (-1) 7%R Hn)) Hr).
Defined.


(* ================================================================== *)
(** ** Matrix transposition                                           *)
(* ================================================================== *)

(** *** One tile of the transposition *)

Section TransposeTile.
Context {T : Type}.
Variable garbage : T.
Variables in_ width height out : Z.
Variable blockIdx : MyThrust.dim3.
Variable m : Z -> T.

(** The read phase leaves, in the cell of every thread that passes the
    bounds test, the element that thread reads. *)
Lemma transpose_read_fold (l : list MyThrust.dim3) : forall (acc : @MyThrust.tile T) i j,
  fold_left (fun b t => MyThrust.transpose_read in_ width height blockIdx t m b) l acc i j
  = if existsb (fun t =>
         (i =? MyThrust.dy t) && (j =? MyThrust.dx t)
         && ((MyThrust.u32 (MyThrust.dx blockIdx * MyThrust.BLOCK_DIM + MyThrust.dx t)
                <? MyThrust.u32 width)
             && (MyThrust.u32 (MyThrust.dy blockIdx * MyThrust.BLOCK_DIM + MyThrust.dy t)
                   <? MyThrust.u32 height))) l
    then m (in_ + MyThrust.u32
                    (MyThrust.u32 (MyThrust.dy blockIdx * MyThrust.BLOCK_DIM + i)
                       * MyThrust.u32 width
                     + MyThrust.u32 (MyThrust.dx blockIdx * MyThrust.BLOCK_DIM + j)))
    else acc i j.
Proof.
  induction l as [|t l IH]; intros acc i j; cbn [fold_left existsb]; [reflexivity|].
  rewrite IH. destruct (existsb _ l); [now rewrite orb_true_r|].
  rewrite orb_false_r. unfold MyThrust.transpose_read.
  destruct ((MyThrust.u32 (MyThrust.dx blockIdx * MyThrust.BLOCK_DIM + MyThrust.dx t)
               <? MyThrust.u32 width)
            && (MyThrust.u32 (MyThrust.dy blockIdx * MyThrust.BLOCK_DIM + MyThrust.dy t)
                  <? MyThrust.u32 height)).
  - rewrite andb_true_r. unfold MyThrust.tile_set.
    destruct (Z.eqb_spec i (MyThrust.dy t)), (Z.eqb_spec j (MyThrust.dx t));
      cbn [andb]; subst; reflexivity.
  - now rewrite andb_false_r.
Qed.
End TransposeTile.

Lemma in_block_threads (blockDim t : MyThrust.dim3) :
  In t (MyThrust.block_threads blockDim) <->
  exists tx ty, 0 <= tx < MyThrust.dx blockDim /\ 0 <= ty < MyThrust.dy blockDim /\
                t = MyThrust.dim3_ (Some tx) (Some ty) None.
Proof.
  unfold MyThrust.block_threads. rewrite in_flat_map. split.
  - intros (ty & Hty & Ht). apply in_map_iff in Ht as (tx & <- & Htx).
    apply in_seq in Hty, Htx. exists (Z.of_nat tx), (Z.of_nat ty). repeat split; lia.
  - intros (tx & ty & Hx & Hy & ->). exists (Z.to_nat ty). split; [apply in_seq; lia|].
    apply in_map_iff. exists (Z.to_nat tx). split; [|apply in_seq; lia].
    now rewrite !Z2Nat.id by lia.
Qed.

Lemma u32_small (z : Z) : 0 <= z < 4294967296 -> MyThrust.u32 z = z.
Proof. intros Hz. unfold MyThrust.u32. now apply Z.mod_small. Qed.

(** A matrix that fits one 16 x 16 tile is transposed: the element of
    row [r] and column [c], stored at [in + c * row + r], arrives at
    [out + r * col + c], and nothing else changes. *)
Lemma gpu_transpose_float_single_tile {T : Type} (garbage : T) (d : device T)
    (in_ row col out : Z) :
  0 <= row <= 16 -> 0 <= col <= 16 ->
  (forall r c, 0 <= r < row -> 0 <= c < col ->
     mem (exec (MyThrust.gpu_transpose_float garbage in_ row col out) d)
         (out + (r * col + c))
     = mem d (in_ + (c * row + r))) /\
  (forall q, q < out \/ out + row * col <= q ->
     mem (exec (MyThrust.gpu_transpose_float garbage in_ row col out) d) q = mem d q).
Proof.
  intros Hrow Hcol.
  set (F := fun q => mem d (in_ + (((q - out) mod col) * row + (q - out) / col))).
  set (A := fun q => exists r c, 0 <= r < row /\ 0 <= c < col /\ q = out + (r * col + c)).
  assert (W : forall q,
    (A q /\ mem (exec (MyThrust.gpu_transpose_float garbage in_ row col out) d) q = F q)
    \/ (~ A q /\ mem (exec (MyThrust.gpu_transpose_float garbage in_ row col out) d) q
                = mem d q)).
  { intros q.
    pose (d0 := exec launch d).
    pose (blockDim :=
            MyThrust.dim3_ (Some MyThrust.BLOCK_DIM) (Some MyThrust.BLOCK_DIM) None).
    pose (blk := MyThrust.dim3_ (Some 0) (Some 0) None).
    pose (block :=
            fold_left
              (fun b t => MyThrust.transpose_read in_ row col blk t (mem d0) b)
              (MyThrust.block_threads blockDim) (fun _ _ => garbage)).
    assert (Hx : mem (exec (MyThrust.gpu_transpose_float garbage in_ row col out) d) q
                 = mem (exec (fold_left
                                (fun c t => c ;; MyThrust.transpose_write row col out
                                                   blk t block)
                                (MyThrust.block_threads blockDim) (ret tt)) d0) q).
    { unfold MyThrust.gpu_transpose_float, MyThrust.launch_2D.
      cbn [MyThrust.dx MyThrust.dy MyThrust.dim3_ dflt].
      replace (Z.max (Z.quot row MyThrust.BLOCK_DIM) 1) with 1
        by (unfold MyThrust.BLOCK_DIM;
            destruct (Z.eq_dec row 16) as [->|]; [reflexivity|];
            rewrite Z.quot_small by lia; reflexivity).
      replace (Z.max (Z.quot col MyThrust.BLOCK_DIM) 1) with 1
        by (unfold MyThrust.BLOCK_DIM;
            destruct (Z.eq_dec col 16) as [->|]; [reflexivity|];
            rewrite Z.quot_small by lia; reflexivity).
      change (Z.to_nat 1) with 1%nat. cbn [for_loop].
      rewrite !exec_bind, !exec_ret.
      unfold MyThrust.gpu_transpose_float_kernel_block.
      unfold exec at 1. cbn beta. reflexivity. }
    rewrite Hx. clear Hx.
    assert (Wf : writes
      (fold_left (fun c t => c ;; MyThrust.transpose_write row col out blk t block)
                 (MyThrust.block_threads blockDim) (ret tt))
      (fun q => False \/ exists t, In t (MyThrust.block_threads blockDim) /\
                  (MyThrust.dx t < col /\ MyThrust.dy t < row /\
                   q = out + (MyThrust.dy t * col + MyThrust.dx t))) F).
    { apply writes_fold; [|apply writes_ret].
      intros t Ht. apply in_block_threads in Ht as (tx & ty & Hx & Hy & ->).
      cbn [MyThrust.dx MyThrust.dy blockDim MyThrust.dim3_ dflt] in Hx, Hy.
      unfold MyThrust.BLOCK_DIM in Hx, Hy.
      unfold MyThrust.transpose_write.
      cbn [MyThrust.dx MyThrust.dy MyThrust.dim3_ dflt blk].
      unfold MyThrust.BLOCK_DIM. rewrite !Z.mul_0_l, !Z.add_0_l.
      rewrite !(@u32_small tx), !(@u32_small ty), !(@u32_small col), !(@u32_small row) by lia.
      rewrite u32_small by nia.
      destruct (Z.ltb_spec tx col), (Z.ltb_spec ty row); cbn [andb].
      - eapply writes_ext; [|apply writes_store].
        + intros q0. cbv beta. split; [intros ->; repeat split; lia | tauto].
        + unfold F, block. rewrite transpose_read_fold.
          replace (existsb _ _) with true.
          * cbn [MyThrust.dx MyThrust.dy MyThrust.dim3_ dflt blk].
            unfold MyThrust.BLOCK_DIM. rewrite !Z.mul_0_l, !Z.add_0_l.
            rewrite !(@u32_small tx), !(@u32_small ty), !(@u32_small row) by lia.
            rewrite u32_small by nia.
            replace (out + (ty * col + tx) - out) with (tx + ty * col) by lia.
            rewrite Z.mod_add, Z.div_add, Z.mod_small, Z.div_small by lia.
            unfold d0. rewrite mem_launch. reflexivity || (f_equal; lia).
          * symmetry. apply existsb_exists.
            exists (MyThrust.dim3_ (Some ty) (Some tx) None). split.
            -- apply in_block_threads. exists ty, tx.
               cbn [MyThrust.dx MyThrust.dy blockDim MyThrust.dim3_ dflt].
               unfold MyThrust.BLOCK_DIM. repeat split; lia.
            -- cbn [MyThrust.dx MyThrust.dy MyThrust.dim3_ dflt blk].
               unfold MyThrust.BLOCK_DIM. rewrite !Z.mul_0_l, !Z.add_0_l.
               rewrite !(@u32_small tx), !(@u32_small ty), !(@u32_small row),
                 !(@u32_small col) by lia.
               rewrite !Z.eqb_refl. cbn [andb].
               destruct (Z.ltb_spec ty row), (Z.ltb_spec tx col); try lia; try reflexivity.
      - apply writes_ext with (A := fun _ => False); [|apply writes_ret].
        intros q0. split; [tauto | intros (? & ? & _); lia].
      - apply writes_ext with (A := fun _ => False); [|apply writes_ret].
        intros q0. split; [tauto | intros (? & ? & _); lia].
      - apply writes_ext with (A := fun _ => False); [|apply writes_ret].
        intros q0. split; [tauto | intros (? & ? & _); lia]. }
    destruct (Wf d0 q) as [[HA E]|[HA E]].
    - left. split; [|exact E].
      destruct HA as [[]|(t & Ht & Hx & Hy & ->)].
      apply in_block_threads in Ht as (tx & ty & Htx & Hty & ->).
      cbn [MyThrust.dx MyThrust.dy MyThrust.dim3_ dflt] in *.
      exists ty, tx. repeat split; lia.
    - right. split; [|exact E].
      intros (r & c & Hr & Hc & ->). apply HA. right.
      exists (MyThrust.dim3_ (Some c) (Some r) None). split.
      + apply in_block_threads. exists c, r.
        cbn [MyThrust.dx MyThrust.dy blockDim MyThrust.dim3_ dflt].
        unfold MyThrust.BLOCK_DIM. repeat split; lia.
      + cbn [MyThrust.dx MyThrust.dy MyThrust.dim3_ dflt]. repeat split; lia. }
  split.
  - intros r c Hr Hc. destruct (W (out + (r * col + c))) as [[_ E]|[HA _]].
    + rewrite E. unfold F.
      replace (out + (r * col + c) - out) with (c + r * col) by lia.
      rewrite Z.mod_add, Z.div_add, Z.mod_small, Z.div_small by lia.
      reflexivity || (f_equal; lia).
    + exfalso. apply HA. exists r, c. repeat split; lia.
  - intros q Hq. destruct (W q) as [[HA _]|[_ E]]; [|exact E].
    exfalso. destruct HA as (r & c & Hr & Hc & ->).
    assert (r * col <= (row - 1) * col) by (apply Z.mul_le_mono_nonneg_r; lia). lia.
Qed.

(** Within one tile, transposing and transposing back gives the matrix
    again. *)
Lemma gpu_transpose_float_round_trip_single_tile {T : Type} (garbage : T)
    (d : device T) (in_ row col out back : Z) :
  0 <= row <= 16 -> 0 <= col <= 16 ->
  forall r c, 0 <= r < row -> 0 <= c < col ->
    mem (exec (MyThrust.gpu_transpose_float garbage out col row back)
              (exec (MyThrust.gpu_transpose_float garbage in_ row col out) d))
        (back + (c * row + r))
    = mem d (in_ + (c * row + r)).
Proof.
  intros Hrow Hcol r c Hr Hc.
  rewrite (proj1 (@gpu_transpose_float_single_tile T garbage
                    (exec (MyThrust.gpu_transpose_float garbage in_ row col out) d)
                    out col row back Hcol Hrow) c r Hc Hr).
  apply (proj1 (@gpu_transpose_float_single_tile T garbage d in_ row col out Hrow Hcol)
           r c Hr Hc).
Qed.

(** The scenario of a 2 x 2 matrix, stored column-major at addresses
    0..3 and transposed to addresses 100..103: [[1,3,2,4]] becomes
    [[1,2,3,4]], whatever the elements are. *)
Lemma gpu_transpose_float_2x2 {T : Type} (garbage : T) (d : device T) :
  map (mem (exec (MyThrust.gpu_transpose_float garbage 0 2 2 100) d))
      [100; 101; 102; 103]
  = map (mem d) [0; 2; 1; 3].
Proof. vm_compute. reflexivity. Qed.

(** A 3 x 2 matrix and back: within one tile the round trip gives the
    matrix again. *)
Lemma gpu_transpose_float_3x2_round_trip {T : Type} (garbage : T) (d : device T) :
  let d1 := exec (MyThrust.gpu_transpose_float garbage 0 3 2 100) d in
  let d2 := exec (MyThrust.gpu_transpose_float garbage 100 2 3 200) d1 in
  map (mem d1) [100; 101; 102; 103; 104; 105] = map (mem d) [0; 3; 1; 4; 2; 5] /\
  map (mem d2) [200; 201; 202; 203; 204; 205] = map (mem d) [0; 1; 2; 3; 4; 5].
Proof. vm_compute. split; reflexivity. Qed.

(** C6 (what the code does).  A 17 x 1 matrix at addresses 0..16 is
    transposed to addresses 100..116 and back to addresses 200..216.  The
    grid has [max(17 / 16, 1) = 1] block in the row direction, so only the
    first 16 elements are moved: address 116 keeps what it held, and after
    the round trip address 216 holds what it held before, not the last
    element of the matrix.  With the matrix 1, 2, ..., 17 in a memory that
    is zero elsewhere, the last element of the round trip is 0, not 17. *)
Theorem gpu_transpose_float_17x1_drops_last :
  (forall (T : Type) (garbage : T) (d : device T),
     let d1 := exec (MyThrust.gpu_transpose_float garbage 0 17 1 100) d in
     let d2 := exec (MyThrust.gpu_transpose_float garbage 100 1 17 200) d1 in
     map (mem d1) (map Z.of_nat (seq 100 17))
       = map (mem d) (map Z.of_nat (seq 0 16)) ++ [mem d 116] /\
     map (mem d2) (map Z.of_nat (seq 200 17))
       = map (mem d) (map Z.of_nat (seq 0 16)) ++ [mem d 216]) /\
  (let M := map IZR (map Z.of_nat (seq 1 17)) in
   let d := list_device M in
   let d1 := exec (MyThrust.gpu_transpose_float 0%R 0 17 1 100) d in
   let d2 := exec (MyThrust.gpu_transpose_float 0%R 100 1 17 200) d1 in
   mem d 16 = 17%R /\ mem d2 (200 + 16) = 0%R /\ mem d2 (200 + 16) <> mem d 16).
Proof.
  split.
  - intros T garbage d. vm_compute. split; reflexivity.
  - cbv zeta.
    pose proof (fun d => proj2 ((fun T g d =>
      ltac:(vm_compute; split; reflexivity) :
        let d1 := exec (MyThrust.gpu_transpose_float g 0 17 1 100) d in
        let d2 := exec (MyThrust.gpu_transpose_float g 100 1 17 200) d1 in
        mem d1 116 = mem d 116 /\ mem d2 216 = mem d 216) R 0%R d)) as E.
    cbv zeta in E. change (200 + 16) with 216. rewrite E.
    assert (H16 : mem (list_device (map IZR (map Z.of_nat (seq 1 17)))) 16 = 17%R)
      by reflexivity.
    assert (H216 : mem (list_device (map IZR (map Z.of_nat (seq 1 17)))) 216 = 0%R)
      by reflexivity.
    rewrite H16, H216. repeat split; lra.
Qed.

(* ================================================================== *)
(** ** Instances on sample inputs                                     *)
(* ================================================================== *)

Lemma gpu_softmax_normalised_shift_invariant_witness :
  0 < 3 /\ (0 = 0 \/ 0 + 3 <= 0 \/ 0 + 3 <= 0) /\
  Rsum (read_array
          (mem (exec (GpuSrc.gpu_softmax 0 3 0) (list_device [1; 2; 3]%R)))
          0 (Z.to_nat 3)) = 1%R.
Proof.
  assert (Hs : 0 < 3) by lia.
  assert (Hal : 0 = 0 \/ 0 + 3 <= 0 \/ 0 + 3 <= 0) by (left; reflexivity).
  split; [exact Hs|]. split; [exact Hal|].
  exact (proj1 (proj2 (proj2
    (@gpu_softmax_normalised_shift_invariant (list_device [1; 2; 3]%R) 0 3 0 Hs Hal)))).
Defined.

(** The scenario [softmax [0,0,0] = [1/3,1/3,1/3]]. *)
Lemma gpu_softmax_zeros (i : Z) :
  0 <= i < 3 ->
  mem (exec (GpuSrc.gpu_softmax_inplace 0 3) (list_device [0; 0; 0]%R)) (0 + i)
  = (1 / 3)%R.
Proof.
  intros Hi. unfold GpuSrc.gpu_softmax_inplace.
  rewrite gpu_softmax_mem by (left; reflexivity).
  rewrite in_range_offset by assumption.
  assert (Hs : 0 < 3) by lia.
  destruct (gpu_max_upper (list_device [0; 0; 0]%R) 0 Hs) as (Hin & _).
  set (mx := eval (GpuSrc.gpu_max 0 3) (list_device [0; 0; 0]%R)) in *.
  assert (Hxs : read_array (mem (list_device [0; 0; 0]%R)) 0 (Z.to_nat 3)
                = [0; 0; 0]%R) by reflexivity.
  rewrite Hxs in *.
  assert (Hmx : mx = 0%R) by (destruct Hin as [<-|[<-|[<-|[]]]]; reflexivity).
  rewrite Hmx.
  assert (Hx : mem (list_device [0; 0; 0]%R) (0 + (0 + i - 0)) = 0%R).
  { assert (i = 0 \/ i = 1 \/ i = 2) as [->|[->| ->]] by lia; reflexivity. }
  rewrite Hx. cbn [map Rsum fold_right].
  replace (0 - 0)%R with 0%R by lra. rewrite exp_0. field.
Qed.

Lemma gpu_softmax_at_label_spec_witness :
  0 < 3 /\ 0 <= 1 < 3 /\ (10 < 0 \/ 0 + 3 <= 10) /\
  forall i, 0 <= i < 3 ->
    mem (exec (GpuSrc.gpu_softmax_at_label 0 3 1 10) (list_device [1; 2; 3]%R)) (0 + i)
    = mem (list_device [1; 2; 3]%R) (0 + i).
Proof.
  assert (Hs : 0 < 3) by lia.
  assert (Hl : 0 <= 1 < 3) by lia.
  assert (Ho : 10 < 0 \/ 0 + 3 <= 10) by lia.
  split; [exact Hs|]. split; [exact Hl|]. split; [exact Ho|].
  exact (proj1 (@gpu_softmax_at_label_spec (list_device [1; 2; 3]%R) 0 3 1 10 Hs Hl Ho)).
Defined.

Lemma gpu_softmax_minus_id_2_agrees_witness :
  0 < 3 /\ 0 <= 1 < 3 /\
  forall q,
    mem (exec (GpuSrc.gpu_softmax_minus_id_2 0 3 1) (list_device [1; 2; 3]%R)) q
    = mem (exec (GpuSrc.gpu_softmax_minus_id_inplace 0 3 1) (list_device [1; 2; 3]%R)) q.
Proof.
  assert (Hs : 0 < 3) by lia.
  assert (Hl : 0 <= 1 < 3) by lia.
  split; [exact Hs|]. split; [exact Hl|].
  exact (@gpu_softmax_minus_id_2_agrees (list_device [1; 2; 3]%R) 0 3 1 Hs Hl).
Defined.

(** The scenario [exp [1,2,3] = [e, e^2, e^3]], with every parameter
    left to its default. *)
Lemma gpu_exp_one_two_three (i : Z) :
  0 <= i < 3 ->
  mem (exec (GpuSrc.gpu_inplace N_exp 0 3 None None None) (list_device [1; 2; 3]%R))
      (0 + i)
  = exp (IZR (i + 1)).
Proof.
  intros Hi. unfold GpuSrc.gpu_inplace, GpuSrc.gpu_. cbv zeta. rscal.
  rewrite thrust_transform_mem by (left; reflexivity).
  change (0 + 3 - 0) with 3. rewrite in_range_offset by assumption.
  unfold GpuSrc.functor_call, GpuSrc.functor_. rscal. cbn [GpuSrc.f1_a GpuSrc.f1_b GpuSrc.f1_m].
  assert (Hx : mem (list_device [1; 2; 3]%R) (0 + (0 + i - 0)) = IZR (i + 1)).
  { assert (i = 0 \/ i = 1 \/ i = 2) as [->|[->| ->]] by lia; reflexivity. }
  rewrite Hx, Rmult_1_l. f_equal. lra.
Qed.


(* ================================================================== *)
(** * Further properties                                              *)
(* ================================================================== *)

(** ** Copy, swap and the two-input transform *)

Section MoreThrustFacts.
Context {T : Type}.
Implicit Types (d : device T) (q p : Z).

Lemma thrust_copy_mem first last out d q :
  out = first \/ out + (last - first) <= first \/ last <= out ->
  mem (exec (thrust_copy first last out) d) q =
  if (out <=? q) && (q <? out + Z.max 0 (last - first))
  then mem d (first + (q - out)) else mem d q.
Proof.
  intros Hal. unfold thrust_copy.
  rewrite exec_bind, (for_loop_map_mem (fun x => x)), mem_launch by lia.
  rewrite of_nat_to_nat, Z.add_0_r. reflexivity.
Qed.

Lemma for_loop_map2_mem (op : T -> T -> T) first1 first2 out n : forall from d q,
  (out = first1 \/ out + from + Z.of_nat n <= first1 + from
                \/ first1 + from + Z.of_nat n <= out + from) ->
  (out = first2 \/ out + from + Z.of_nat n <= first2 + from
                \/ first2 + from + Z.of_nat n <= out + from) ->
  mem (exec (for_loop n from
               (fun i => x <- load (first1 + i) ;; y <- load (first2 + i) ;;
                         store (out + i) (op x y))) d) q =
  if (out + from <=? q) && (q <? out + from + Z.of_nat n)
  then op (mem d (first1 + (q - out))) (mem d (first2 + (q - out))) else mem d q.
Proof.
  induction n as [|n IH]; intros from d q H1 H2.
  - simpl. rewrite exec_ret. zcases.
  - cbn [for_loop]. rewrite exec_bind, IH by lia.
    rewrite !exec_bind, !exec_load, !eval_load, !mem_store.
    zcases. all: f_equal; f_equal; lia.
Qed.

Lemma thrust_transform2_mem (op : T -> T -> T) first1 last1 first2 out d q :
  (out = first1 \/ out + (last1 - first1) <= first1 \/ last1 <= out) ->
  (out = first2 \/ out + (last1 - first1) <= first2
                \/ first2 + (last1 - first1) <= out) ->
  mem (exec (thrust_transform2 first1 last1 first2 out op) d) q =
  if (out <=? q) && (q <? out + Z.max 0 (last1 - first1))
  then op (mem d (first1 + (q - out))) (mem d (first2 + (q - out))) else mem d q.
Proof.
  intros H1 H2. unfold thrust_transform2.
  rewrite exec_bind, for_loop_map2_mem, mem_launch by lia.
  rewrite of_nat_to_nat, Z.add_0_r. reflexivity.
Qed.

Lemma for_loop_swap_mem first1 first2 n : forall from d q,
  (first1 = first2 \/ first1 + from + Z.of_nat n <= first2 + from
                   \/ first2 + from + Z.of_nat n <= first1 + from) ->
  mem (exec (for_loop n from
               (fun i => x <- load (first1 + i) ;; y <- load (first2 + i) ;;
                         store (first1 + i) y ;; store (first2 + i) x)) d) q =
  if (first1 + from <=? q) && (q <? first1 + from + Z.of_nat n)
  then mem d (first2 + (q - first1))
  else if (first2 + from <=? q) && (q <? first2 + from + Z.of_nat n)
       then mem d (first1 + (q - first2))
       else mem d q.
Proof.
  induction n as [|n IH]; intros from d q Hal.
  - simpl. rewrite exec_ret. zcases.
  - cbn [for_loop]. rewrite exec_bind, IH by lia.
    rewrite !exec_bind, !exec_load, !eval_load, !mem_store.
    zcases. all: f_equal; lia.
Qed.

Lemma thrust_swap_ranges_mem first1 last1 first2 d q :
  (first1 = first2 \/ first1 + (last1 - first1) <= first2
                   \/ first2 + (last1 - first1) <= first1) ->
  mem (exec (thrust_swap_ranges first1 last1 first2) d) q =
  if (first1 <=? q) && (q <? first1 + Z.max 0 (last1 - first1))
  then mem d (first2 + (q - first1))
  else if (first2 <=? q) && (q <? first2 + Z.max 0 (last1 - first1))
       then mem d (first1 + (q - first2))
       else mem d q.
Proof.
  intros Hal. unfold thrust_swap_ranges.
  rewrite exec_bind, for_loop_swap_mem, mem_launch by lia.
  rewrite of_nat_to_nat, !Z.add_0_r. reflexivity.
Qed.
End MoreThrustFacts.

(* ================================================================== *)
(** ** Swap, copy and elementwise product                             *)
(* ================================================================== *)

(** X1.  [gpu_swap] on two arrays that do not overlap exchanges their
    contents element by element and touches nothing else; swapping twice
    gives every address its first value back. *)
Theorem gpu_swap_exchanges {T : Type} (d : device T) (begin size out : Z) :
  begin + size <= out \/ out + size <= begin ->
  let d' := exec (GpuSrc.gpu_swap begin size out) d in
  (forall i, 0 <= i < size ->
     mem d' (begin + i) = mem d (out + i) /\ mem d' (out + i) = mem d (begin + i)) /\
  (forall q, (q < begin \/ begin + size <= q) -> (q < out \/ out + size <= q) ->
     mem d' q = mem d q) /\
  (forall q, mem (exec (GpuSrc.gpu_swap begin size out) d') q = mem d q).
Proof.
  intros Hal d'.
  assert (E : forall (d0 : device T) q,
    mem (exec (GpuSrc.gpu_swap begin size out) d0) q =
    if (begin <=? q) && (q <? begin + Z.max 0 size)
    then mem d0 (out + (q - begin))
    else if (out <=? q) && (q <? out + Z.max 0 size)
         then mem d0 (begin + (q - out))
         else mem d0 q).
  { intros d0 q. unfold GpuSrc.gpu_swap. rewrite thrust_swap_ranges_mem by lia.
    replace (begin + size - begin) with size by lia. reflexivity. }
  split; [|split].
  - intros i Hi. unfold d'. rewrite !E. split; zcases; f_equal; lia.
  - intros q H1 H2. unfold d'. rewrite E. zcases.
  - intros q. unfold d'. rewrite !E. zcases; f_equal; lia.
Qed.

Lemma gpu_swap_exchanges_witness :
  (0 + 3 <= 10 \/ 10 + 3 <= 0) /\
  forall q, mem (exec (GpuSrc.gpu_swap 0 3 10)
                   (exec (GpuSrc.gpu_swap 0 3 10) ramp_device)) q
            = mem ramp_device q.
Proof.
  assert (Hal : 0 + 3 <= 10 \/ 10 + 3 <= 0) by lia.
  split; [exact Hal|].
  exact (proj2 (proj2 (@gpu_swap_exchanges R ramp_device 0 3 10 Hal))).
Defined.

(** X2.  [gpu_copy] into an array that does not overlap the source
    leaves the source elements in the output, in order, keeps the
    source as it was and changes no other address; copying an array onto
    itself changes nothing. *)
Theorem gpu_copy_exact {T : Type} (d : device T) (begin size out : Z) :
  out + size <= begin \/ begin + size <= out ->
  let d' := exec (GpuSrc.gpu_copy begin size out) d in
  read_array (mem d') out (Z.to_nat size) = read_array (mem d) begin (Z.to_nat size) /\
  read_array (mem d') begin (Z.to_nat size) = read_array (mem d) begin (Z.to_nat size) /\
  (forall q, q < out \/ out + size <= q -> mem d' q = mem d q) /\
  (forall q, mem (exec (GpuSrc.gpu_copy begin size begin) d) q = mem d q).
Proof.
  intros Hal d'.
  assert (E : forall o q, o = begin \/ o + size <= begin \/ begin + size <= o ->
    mem (exec (GpuSrc.gpu_copy begin size o) d) q =
    if (o <=? q) && (q <? o + Z.max 0 size)
    then mem d (begin + (q - o)) else mem d q).
  { intros o q Ho. unfold GpuSrc.gpu_copy. rewrite thrust_copy_mem by lia.
    replace (begin + size - begin) with size by lia. reflexivity. }
  split; [|split; [|split]].
  - apply read_array_shift. intros i Hi. unfold d'. rewrite E by lia.
    rewrite in_range_offset by lia. f_equal. lia.
  - apply read_array_shift. intros i Hi. unfold d'. rewrite E by lia. zcases.
  - intros q Hq. unfold d'. rewrite E by lia. zcases.
  - intros q. rewrite E by lia. zcases. f_equal. lia.
Qed.

Lemma gpu_copy_exact_witness :
  (10 + 3 <= 0 \/ 0 + 3 <= 10) /\
  read_array (mem (exec (GpuSrc.gpu_copy 0 3 10) ramp_device)) 10 (Z.to_nat 3)
  = read_array (mem ramp_device) 0 (Z.to_nat 3).
Proof.
  assert (Hal : 10 + 3 <= 0 \/ 0 + 3 <= 10) by lia.
  split; [exact Hal|].
  exact (proj1 (@gpu_copy_exact R ramp_device 0 3 10 Hal)).
Defined.

(** X3.  [gpu_dot_mult] leaves [s * x * y] at every offset of the output,
    [x] and [y] being the elements of the two inputs at that offset: in
    the three-pointer form the second input is the output, and the first
    input is kept when it is another array; in the four-pointer form the
    output is apart from the inputs, which are both kept.  The scale
    defaults to 1. *)
Theorem gpu_dot_mult_elementwise {T : Type} `{Scalar T}
    (d : device T) (begin1 size begin2 out : Z) (s : T) (i : Z) :
  0 <= i < size ->
  begin1 = begin2 \/ begin1 + size <= begin2 \/ begin2 + size <= begin1 ->
  out + size <= begin1 \/ begin1 + size <= out ->
  out + size <= begin2 \/ begin2 + size <= out ->
  let x := mem d (begin1 + i) in
  let y := mem d (begin2 + i) in
  let d_in := exec (GpuSrc.gpu_dot_mult_inplace begin1 size begin2 (Some s)) d in
  let d_out := exec (GpuSrc.gpu_dot_mult begin1 size begin2 out (Some s)) d in
  mem d_in (begin2 + i) = (s * x * y)%S /\
  (begin1 <> begin2 -> mem d_in (begin1 + i) = x) /\
  mem d_out (out + i) = (s * x * y)%S /\
  mem d_out (begin1 + i) = x /\ mem d_out (begin2 + i) = y /\
  mem (exec (GpuSrc.gpu_dot_mult begin1 size begin2 out None) d) (out + i)
    = (1 * x * y)%S.
Proof.
  intros Hi H12 Ho1 Ho2 x y d_in d_out.
  unfold d_in, d_out, GpuSrc.gpu_dot_mult_inplace, GpuSrc.gpu_dot_mult.
  cbv zeta. cbn [dflt].
  rewrite !thrust_transform2_mem by lia.
  replace (begin1 + size - begin1) with size by lia.
  rewrite !in_range_offset by assumption.
  unfold GpuSrc.functor_scale_mult_call, GpuSrc.functor_scale_mult_.
  cbn [GpuSrc.fsm_s dflt].
  replace (begin1 + (begin2 + i - begin2)) with (begin1 + i) by lia.
  replace (begin2 + (begin2 + i - begin2)) with (begin2 + i) by lia.
  replace (begin1 + (out + i - out)) with (begin1 + i) by lia.
  replace (begin2 + (out + i - out)) with (begin2 + i) by lia.
  fold x y.
  repeat match goal with |- _ /\ _ => split end; try reflexivity.
  - intros Hne. zcases.
  - zcases.
  - zcases.
Qed.

Lemma gpu_dot_mult_elementwise_witness :
  0 <= 1 < 3 /\
  (0 = 10 \/ 0 + 3 <= 10 \/ 10 + 3 <= 0) /\
  (20 + 3 <= 0 \/ 0 + 3 <= 20) /\ (20 + 3 <= 10 \/ 10 + 3 <= 20) /\
  mem (exec (GpuSrc.gpu_dot_mult_inplace 0 3 10 (Some 2%R)) ramp_device) (10 + 1)
  = (2 * mem ramp_device (0 + 1) * mem ramp_device (10 + 1))%R.
Proof.
  assert (Hi : 0 <= 1 < 3) by lia.
  assert (H12 : 0 = 10 \/ 0 + 3 <= 10 \/ 10 + 3 <= 0) by lia.
  assert (H1 : 20 + 3 <= 0 \/ 0 + 3 <= 20) by lia.
  assert (H2 : 20 + 3 <= 10 \/ 10 + 3 <= 20) by lia.
  split; [exact Hi|]. split; [exact H12|]. split; [exact H1|]. split; [exact H2|].
  exact (proj1 (@gpu_dot_mult_elementwise R _ ramp_device 0 3 10 20 2%R 1 Hi H12 H1 H2)).
Defined.

(* ================================================================== *)
(** ** The infinity guard                                             *)
(* ================================================================== *)

Lemma gpu_correct_inf_mem {T : Type} `{Scalar T}
    (d : device T) (begin size : Z) (r : option T) (q : Z) :
  mem (exec (GpuSrc.gpu_correct_inf begin size r) d) q =
  if (begin <=? q) && (q <? begin + Z.max 0 size)
  then GpuSrc.correct_inf_struct_call {| GpuSrc.replaceVal := dflt 0%S r |} (mem d q)
  else mem d q.
Proof.
  unfold GpuSrc.gpu_correct_inf. cbv zeta.
  rewrite thrust_transform_mem by lia.
  replace (begin + size - begin) with size by lia.
  replace (begin + (q - begin)) with q by lia. reflexivity.
Qed.

(** X4.  [gpu_correct_inf] over the reals: an element of magnitude at
    most [1e5] is kept (1e5 itself included), a larger one becomes the
    replacement value, which is 0 when none is given; addresses outside
    the array are kept; when the replacement is itself within the bound,
    so is every element afterwards; and a second pass changes nothing,
    whatever the replacement. *)
Theorem gpu_correct_inf_guard (d : device R) (begin size : Z) (r : R) (i : Z) :
  0 <= i < size ->
  let x := mem d (begin + i) in
  let d' := exec (GpuSrc.gpu_correct_inf begin size (Some r)) d in
  (Rabs x <= 100000 -> mem d' (begin + i) = x)%R /\
  (100000 < Rabs x -> mem d' (begin + i) = r)%R /\
  (100000 < Rabs x ->
     mem (exec (GpuSrc.gpu_correct_inf begin size None) d) (begin + i) = 0)%R /\
  (Rabs r <= 100000 -> Rabs (mem d' (begin + i)) <= 100000)%R /\
  (forall q, q < begin \/ begin + size <= q -> mem d' q = mem d q) /\
  (forall q, mem (exec (GpuSrc.gpu_correct_inf begin size (Some r)) d') q = mem d' q).
Proof.
  intros Hi x d'.
  assert (Hin : (begin <=? begin + i) && (begin + i <? begin + Z.max 0 size) = true)
    by now apply in_range_offset.
  unfold d'. rewrite !gpu_correct_inf_mem, !Hin.
  unfold GpuSrc.correct_inf_struct_call. cbn [GpuSrc.replaceVal m_fabs s_ltb s_of_Z R_Scalar dflt].
  fold x.
  split; [|split; [|split; [|split; [|split]]]].
  - intros Hx. apply Rltb_false in Hx. now rewrite Hx.
  - intros Hx. apply Rltb_true in Hx. now rewrite Hx.
  - intros Hx. apply Rltb_true in Hx. now rewrite Hx.
  - intros Hr. destruct (Rltb 100000 (Rabs x)) eqn:E; [exact Hr|].
    now apply Rltb_false in E.
  - intros q Hq. rewrite gpu_correct_inf_mem. zcases.
  - intros q. rewrite !gpu_correct_inf_mem.
    destruct ((begin <=? q) && (q <? begin + Z.max 0 size)); [|reflexivity].
    unfold GpuSrc.correct_inf_struct_call. cbn [GpuSrc.replaceVal m_fabs s_ltb s_of_Z R_Scalar dflt].
    destruct (Rltb 100000 (Rabs (mem d q))) eqn:E.
    + destruct (Rltb 100000 (Rabs r)); reflexivity.
    + now rewrite E.
Qed.

Lemma gpu_correct_inf_guard_witness :
  0 <= 1 < 3 /\
  forall q, mem (exec (GpuSrc.gpu_correct_inf 0 3 (Some 7%R))
                   (exec (GpuSrc.gpu_correct_inf 0 3 (Some 7%R)) ramp_device)) q
            = mem (exec (GpuSrc.gpu_correct_inf 0 3 (Some 7%R)) ramp_device) q.
Proof.
  assert (Hi : 0 <= 1 < 3) by lia.
  split; [exact Hi|].
  exact (proj2 (proj2 (proj2 (proj2 (proj2
    (@gpu_correct_inf_guard ramp_device 0 3 7%R 1 Hi)))))).
Defined.

(* ================================================================== *)
(** ** Minimum and maximum                                            *)
(* ================================================================== *)

Lemma thrust_min_element_exec {T : Type} (lt : T -> T -> bool) first last (d : device T) :
  exec (thrust_min_element lt first last) d = exec launch d.
Proof.
  unfold thrust_min_element. rewrite exec_bind.
  destruct (first =? last); [reflexivity|]. apply extremum_scan_exec.
Qed.

Lemma thrust_min_element_range {T : Type} (lt : T -> T -> bool) first last (d : device T) :
  first < last ->
  first <= eval (thrust_min_element lt first last) d < last.
Proof.
  intros Hlt. unfold thrust_min_element. rewrite eval_bind.
  destruct (Z.eqb_spec first last); [lia|].
  pose proof (extremum_scan_range (fun l c => lt c l) (Z.to_nat (last - first - 1))
                (first + 1) first (exec launch d)) as Rg.
  cbv zeta in Rg. lia.
Qed.

(** The scan with [>] on reals ends on an element that is at most the
    starting one and every scanned one. *)
Lemma min_scan_lower (n : nat) : forall cur largest (d : device R),
  let r := eval (extremum_scan (fun l c => Rltb c l) n cur largest) d in
  (mem d r <= mem d largest)%R /\
  forall q, cur <= q < cur + Z.of_nat n -> (mem d r <= mem d q)%R.
Proof.
  induction n as [|n IH]; intros cur largest d.
  - cbn [extremum_scan]. rewrite eval_ret. split; [lra | intros; lia].
  - cbn [extremum_scan]. rewrite !eval_bind, !exec_load, !eval_load. cbv zeta.
    destruct (IH (cur + 1)
                (if Rltb (mem d cur) (mem d largest) then cur else largest) d)
      as [Hl Hq].
    destruct (Rltb (mem d cur) (mem d largest)) eqn:E.
    + apply Rltb_true in E. split; [lra|].
      intros q Hr. destruct (Z.eq_dec q cur) as [->|]; [lra|]. apply Hq. lia.
    + apply Rltb_false in E. split; [lra|].
      intros q Hr. destruct (Z.eq_dec q cur) as [->|]; [lra|]. apply Hq. lia.
Qed.

Lemma gpu_min_exec {T : Type} `{Scalar T} (d : device T) (begin size : Z) :
  exec (GpuSrc.gpu_min begin size) d = exec launch d.
Proof.
  unfold GpuSrc.gpu_min. now rewrite exec_bind, exec_load, thrust_min_element_exec.
Qed.

Lemma gpu_min_eval {T : Type} `{Scalar T} (d : device T) (begin size : Z) :
  eval (GpuSrc.gpu_min begin size) d
  = mem d (eval (thrust_min_element s_ltb begin (begin + size)) d).
Proof.
  unfold GpuSrc.gpu_min.
  now rewrite eval_bind, eval_load, thrust_min_element_exec.
Qed.

Lemma gpu_min_lower (d : device R) (begin size : Z) :
  0 < size ->
  let mn := eval (GpuSrc.gpu_min begin size) d in
  In mn (read_array (mem d) begin (Z.to_nat size)) /\
  forall x, In x (read_array (mem d) begin (Z.to_nat size)) -> (mn <= x)%R.
Proof.
  intros Hs mn. subst mn. rewrite gpu_min_eval.
  pose proof (@thrust_min_element_range R s_ltb begin (begin + size) d
                ltac:(lia)) as Hr.
  split.
  - unfold read_array. apply in_map_iff.
    exists (Z.to_nat (eval (thrust_min_element s_ltb begin (begin + size)) d - begin)).
    split; [f_equal; lia | apply in_seq; lia].
  - intros x Hx. unfold read_array in Hx. apply in_map_iff in Hx as (i & <- & Hi).
    apply in_seq in Hi.
    unfold thrust_min_element. rewrite eval_bind.
    destruct (Z.eqb_spec begin (begin + size)); [lia|].
    pose proof (min_scan_lower (Z.to_nat (begin + size - begin - 1)) (begin + 1)
                  begin (exec launch d)) as [Hl Hq].
    rewrite mem_launch in Hl, Hq. rscal.
    destruct (Nat.eq_dec i 0) as [->|Hi0].
    + rewrite Z.add_0_r. exact Hl.
    + apply Hq. lia.
Qed.

(** X5.  On a non-empty array of reals [gpu_min] and [gpu_max] return
    elements of the array, the first no larger and the second no smaller
    than any element; both leave the memory as it was. *)
Theorem gpu_min_max_attained (d : device R) (begin size : Z) :
  0 < size ->
  let xs := read_array (mem d) begin (Z.to_nat size) in
  let mn := eval (GpuSrc.gpu_min begin size) d in
  let mx := eval (GpuSrc.gpu_max begin size) d in
  (In mn xs /\ forall x, In x xs -> (mn <= x)%R) /\
  (In mx xs /\ forall x, In x xs -> (x <= mx)%R) /\
  (mn <= mx)%R /\
  mem (exec (GpuSrc.gpu_min begin size) d) = mem d /\
  mem (exec (GpuSrc.gpu_max begin size) d) = mem d.
Proof.
  intros Hs xs mn mx.
  pose proof (gpu_min_lower d begin Hs) as Hmin.
  pose proof (gpu_max_upper d begin Hs) as Hmax.
  split; [exact Hmin|]. split; [exact Hmax|].
  split; [apply Hmin, Hmax|].
  now rewrite gpu_min_exec, gpu_max_exec.
Qed.

Lemma gpu_min_max_attained_witness :
  0 < 3 /\
  (eval (GpuSrc.gpu_min 0 3) (list_device [3; 1; 2]%R)
   <= eval (GpuSrc.gpu_max 0 3) (list_device [3; 1; 2]%R))%R.
Proof.
  assert (Hs : 0 < 3) by lia.
  split; [exact Hs|].
  exact (proj1 (proj2 (proj2 (@gpu_min_max_attained (list_device [3; 1; 2]%R) 0 3 Hs)))).
Defined.

(* ================================================================== *)
(** ** Reductions: empty arrays, sorting, filling                     *)
(* ================================================================== *)

(** X6.  On an empty array ([size = 0]) [gpu_sum] is the seed 0 and
    [gpu_product] the seed 1, while [gpu_min] and [gpu_max] return what
    is stored at [begin], which is not an element of the array; the
    elementwise operations change no address. *)
Theorem empty_array_behaviour {T : Type} `{Scalar T} (d : device T) (begin out : Z) :
  eval (GpuSrc.gpu_sum begin 0) d = 0%S /\
  eval (GpuSrc.gpu_product begin 0) d = 1%S /\
  eval (GpuSrc.gpu_max begin 0) d = mem d begin /\
  eval (GpuSrc.gpu_min begin 0) d = mem d begin /\
  (forall (name : unary_name) (a b m : option T) (v : T) (dir : option Z) q,
     mem (exec (GpuSrc.gpu_ name begin 0 out a b m) d) q = mem d q /\
     mem (exec (GpuSrc.gpu_linear begin 0 out a b) d) q = mem d q /\
     mem (exec (GpuSrc.gpu_fill begin 0 v) d) q = mem d q /\
     mem (exec (GpuSrc.gpu_copy begin 0 out) d) q = mem d q /\
     mem (exec (GpuSrc.gpu_swap begin 0 out) d) q = mem d q /\
     mem (exec (GpuSrc.gpu_sort begin 0 dir) d) q = mem d q /\
     mem (exec (GpuSrc.gpu_softmax begin 0 out) d) q = mem d q).
Proof.
  assert (E0 : forall x, Z.to_nat (x + 0 - x) = 0%nat) by (intros; lia).
  split; [|split; [|split; [|split]]].
  - unfold GpuSrc.gpu_sum. rewrite thrust_reduce_eval, E0. reflexivity.
  - unfold GpuSrc.gpu_product. rewrite thrust_reduce_eval, E0. reflexivity.
  - rewrite gpu_max_eval. unfold thrust_max_element.
    rewrite eval_bind, Z.add_0_r, Z.eqb_refl. reflexivity.
  - rewrite gpu_min_eval. unfold thrust_min_element.
    rewrite eval_bind, Z.add_0_r, Z.eqb_refl. reflexivity.
  - intros name a b m v dir q.
    assert (Hloop : forall x (body : Z -> Dev T unit) (d0 : device T),
              mem (exec (launch ;; for_loop (Z.to_nat (x + 0 - x)) 0 body) d0)
              = mem d0).
    { intros x body d0. rewrite E0. reflexivity. }
    split; [|split; [|split; [|split; [|split; [|split]]]]].
    + unfold GpuSrc.gpu_, thrust_transform. cbv zeta. now rewrite Hloop.
    + unfold GpuSrc.gpu_linear, thrust_transform, thrust_copy_n. cbv zeta.
      destruct (_ && _); [destruct (negb _)|]; try reflexivity. now rewrite Hloop.
    + reflexivity.
    + unfold GpuSrc.gpu_copy, thrust_copy. now rewrite Hloop.
    + unfold GpuSrc.gpu_swap, thrust_swap_ranges. now rewrite Hloop.
    + unfold GpuSrc.gpu_sort. cbv zeta.
      destruct (_ >? _); rewrite thrust_sort_mem; cbv zeta; rewrite E0; zcases.
    + unfold GpuSrc.gpu_softmax.
      rewrite exec_bind, gpu_max_exec, exec_bind.
      unfold GpuSrc.gpu_ at 1, thrust_transform. cbv zeta.
      rewrite exec_bind, gpu_sum_exec.
      unfold GpuSrc.gpu_linear_inplace, GpuSrc.gpu_linear, thrust_transform. cbv zeta.
      cbn [dflt]. rewrite Z.eqb_refl. cbn [negb].
      destruct (_ && _); rewrite ?exec_ret, ?Hloop, ?mem_launch, ?Hloop, ?mem_launch;
        reflexivity.
Qed.

(** *** Sums and products of reals *)

Lemma Rsum_perm (l l' : list R) : Permutation l l' -> Rsum l = Rsum l'.
Proof.
  induction 1 as [| x l l' _ IH | x y l | l l' l'' _ IH1 _ IH2]; simpl;
    [reflexivity | rewrite IH; reflexivity | lra | congruence].
Qed.

Lemma Rprod_perm (l l' : list R) : Permutation l l' -> Rprod l = Rprod l'.
Proof.
  induction 1 as [| x l l' _ IH | x y l | l l' l'' _ IH1 _ IH2]; simpl;
    [reflexivity | rewrite IH; reflexivity | lra | congruence].
Qed.

Lemma fold_left_Rmult (l : list R) (a : R) :
  fold_left Rmult l a = (a * Rprod l)%R.
Proof.
  revert a. induction l as [|x l IH]; intros a; simpl; [lra|].
  rewrite IH. lra.
Qed.

Lemma gpu_product_eval (d : device R) (begin size : Z) :
  eval (GpuSrc.gpu_product begin size) d
  = Rprod (read_array (mem d) begin (Z.to_nat size)).
Proof.
  unfold GpuSrc.gpu_product. rewrite thrust_reduce_eval. rscal.
  rewrite fold_left_Rmult. replace (begin + size - begin) with size by lia. lra.
Qed.

(** In an ascending list an earlier element is at most a later one. *)
Lemma sorted_nth_le (l : list R) :
  StronglySorted Rle l ->
  forall i j, (i <= j < length l)%nat -> (nth i l 0 <= nth j l 0)%R.
Proof.
  induction 1 as [|x l Hs IH Hx]; intros i j Hij; simpl in Hij; [lia|].
  destruct i as [|i], j as [|j]; simpl; try lra; try lia.
  - rewrite Forall_forall in Hx. apply Hx, nth_In. lia.
  - apply IH. lia.
Qed.

(** A list has one least and one greatest element. *)
Lemma attained_bounds_unique (l l' : list R) (a a' b b' : R) :
  Permutation l l' ->
  In a l -> (forall x, In x l -> (a <= x)%R) ->
  In a' l' -> (forall x, In x l' -> (a' <= x)%R) ->
  In b l -> (forall x, In x l -> (x <= b)%R) ->
  In b' l' -> (forall x, In x l' -> (x <= b')%R) ->
  a = a' /\ b = b'.
Proof.
  intros P Ha Hal Ha' Hal' Hb Hbl Hb' Hbl'.
  assert (Ia : In a l') by (eapply Permutation_in; eassumption).
  assert (Ib : In b l') by (eapply Permutation_in; eassumption).
  assert (Ia' : In a' l) by (eapply Permutation_in; [symmetry|]; eassumption).
  assert (Ib' : In b' l) by (eapply Permutation_in; [symmetry|]; eassumption).
  split; apply Rle_antisym; auto.
Qed.

(** X7.  Sorting and the reductions, over the reals: [gpu_sort] in
    either direction leaves [gpu_sum], [gpu_product], [gpu_min] and
    [gpu_max] of the array as they were; after an ascending sort of a
    non-empty array the first element is [gpu_min] and the last is
    [gpu_max] of the array before the sort. *)
Theorem gpu_sort_keeps_reductions (d : device R) (begin size dir : Z) :
  0 < size ->
  let d' := exec (GpuSrc.gpu_sort begin size (Some dir)) d in
  eval (GpuSrc.gpu_sum begin size) d' = eval (GpuSrc.gpu_sum begin size) d /\
  eval (GpuSrc.gpu_product begin size) d' = eval (GpuSrc.gpu_product begin size) d /\
  eval (GpuSrc.gpu_min begin size) d' = eval (GpuSrc.gpu_min begin size) d /\
  eval (GpuSrc.gpu_max begin size) d' = eval (GpuSrc.gpu_max begin size) d /\
  (0 < dir ->
   mem d' begin = eval (GpuSrc.gpu_min begin size) d /\
   mem d' (begin + (size - 1)) = eval (GpuSrc.gpu_max begin size) d).
Proof.
  intros Hs d'.
  set (n := Z.to_nat size).
  assert (P : Permutation (read_array (mem d) begin n) (read_array (mem d') begin n)).
  { unfold d', n. destruct (Z.lt_ge_cases 0 dir) as [Hd|Hd].
    - rewrite (gpu_sort_array_up _ _ _ Hd). apply sort_list_perm.
    - rewrite (gpu_sort_array_down _ _ _ Hd).
      apply sort_list_perm. }
  destruct (gpu_min_lower d begin Hs) as [Hmn1 Hmn2].
  destruct (gpu_max_upper d begin Hs) as [Hmx1 Hmx2].
  destruct (gpu_min_lower d' begin Hs) as [Hmn1' Hmn2'].
  destruct (gpu_max_upper d' begin Hs) as [Hmx1' Hmx2'].
  fold n in Hmn1, Hmn2, Hmx1, Hmx2, Hmn1', Hmn2', Hmx1', Hmx2'.
  destruct (attained_bounds_unique P Hmn1 Hmn2 Hmn1' Hmn2' Hmx1 Hmx2 Hmx1' Hmx2')
    as [Emn Emx].
  split; [|split; [|split; [|split]]].
  - rewrite !gpu_sum_eval. symmetry. apply Rsum_perm, P.
  - rewrite !gpu_product_eval. symmetry. apply Rprod_perm, P.
  - symmetry. exact Emn.
  - symmetry. exact Emx.
  - intros Hd.
    assert (Hsorted : StronglySorted Rle (read_array (mem d') begin n)).
    { unfold d', n. rewrite (gpu_sort_array_up _ _ _ Hd). apply sort_asc_sorted. }
    assert (Hn : (0 < n)%nat) by (unfold n; lia).
    assert (Hnth : forall i, (i < n)%nat ->
              nth i (read_array (mem d') begin n) 0%R = mem d' (begin + Z.of_nat i)).
    { intros i Hi. now apply read_array_nth. }
    assert (Hall : forall x, In x (read_array (mem d') begin n) ->
              (mem d' begin <= x <= mem d' (begin + (size - 1)))%R).
    { intros x Hx. apply (In_nth _ _ 0%R) in Hx as (k & Hk & <-).
      rewrite read_array_length in Hk.
      pose proof (sorted_nth_le Hsorted) as Hle.
      specialize (Hle 0%nat k) as H0. specialize (Hle k (n - 1)%nat) as H1.
      rewrite read_array_length in H0, H1.
      rewrite !Hnth in H0, H1 by lia.
      replace (begin + Z.of_nat 0) with begin in H0 by lia.
      replace (begin + Z.of_nat (n - 1)) with (begin + (size - 1)) in H1
        by (unfold n; lia).
      rewrite Hnth by lia. split; [apply H0 | apply H1]; lia. }
    assert (I0 : In (mem d' begin) (read_array (mem d') begin n)).
    { replace begin with (begin + Z.of_nat 0) at 1 by lia.
      rewrite <- Hnth by lia. apply nth_In. rewrite read_array_length. lia. }
    assert (I1 : In (mem d' (begin + (size - 1))) (read_array (mem d') begin n)).
    { replace (begin + (size - 1)) with (begin + Z.of_nat (n - 1)) by (unfold n; lia).
      rewrite <- Hnth by lia. apply nth_In. rewrite read_array_length. lia. }
    rewrite Emn, Emx. split; apply Rle_antisym.
    + apply Hall, Hmn1'.
    + apply Hmn2', I0.
    + apply Hmx2', I1.
    + apply Hall, Hmx1'.
Qed.

Lemma gpu_sort_keeps_reductions_witness :
  0 < 3 /\
  eval (GpuSrc.gpu_sum 0 3)
       (exec (GpuSrc.gpu_sort 0 3 (Some 1)) (list_device [3; 1; 2]%R))
  = eval (GpuSrc.gpu_sum 0 3) (list_device [3; 1; 2]%R).
Proof.
  assert (Hs : 0 < 3) by lia.
  split; [exact Hs|].
  exact (proj1 (@gpu_sort_keeps_reductions (list_device [3; 1; 2]%R) 0 3 1 Hs)).
Defined.

(** X8.  After [gpu_fill] with [val] of a non-empty array of reals every
    element is [val] and nothing else has changed; [gpu_min] and
    [gpu_max] are [val], [gpu_sum] is [size * val] and [gpu_product] is
    [val ^ size]. *)
Theorem gpu_fill_then_reduce (d : device R) (begin size : Z) (val : R) :
  0 < size ->
  let d' := exec (GpuSrc.gpu_fill begin size val) d in
  (forall q, mem d' q = if (begin <=? q) && (q <? begin + size) then val else mem d q) /\
  eval (GpuSrc.gpu_min begin size) d' = val /\
  eval (GpuSrc.gpu_max begin size) d' = val /\
  eval (GpuSrc.gpu_sum begin size) d' = (IZR size * val)%R /\
  eval (GpuSrc.gpu_product begin size) d' = (val ^ Z.to_nat size)%R.
Proof.
  intros Hs d'.
  assert (E : forall q, mem d' q
              = if (begin <=? q) && (q <? begin + size) then val else mem d q).
  { intros q. unfold d', GpuSrc.gpu_fill. rewrite thrust_fill_n_mem.
    now replace (Z.max 0 size) with size by lia. }
  assert (A : read_array (mem d') begin (Z.to_nat size) = repeat val (Z.to_nat size)).
  { apply nth_ext with (d := val) (d' := val).
    - now rewrite read_array_length, repeat_length.
    - intros i Hi. rewrite read_array_length in Hi.
      rewrite read_array_nth, nth_repeat, E by assumption. zcases. }
  assert (In_rep : forall x, In x (repeat val (Z.to_nat size)) -> x = val)
    by (intros x Hx; now apply repeat_spec in Hx).
  destruct (gpu_min_lower d' begin Hs) as [Hmn _].
  destruct (gpu_max_upper d' begin Hs) as [Hmx _].
  rewrite A in Hmn, Hmx.
  split; [exact E|]. split; [now apply In_rep|]. split; [now apply In_rep|].
  rewrite gpu_sum_eval, gpu_product_eval, A.
  rewrite <- (Z2Nat.id size) at 2 by lia. rewrite <- INR_IZR_INZ.
  generalize (Z.to_nat size) as n. clear.
  intros n. induction n as [|n [IH1 IH2]]; [simpl; split; lra|].
  split.
  - cbn [repeat Rsum fold_right]. fold (Rsum (repeat val n)). rewrite IH1, S_INR. lra.
  - cbn [repeat Rprod fold_right]. fold (Rprod (repeat val n)). rewrite IH2. simpl. lra.
Qed.

Lemma gpu_fill_then_reduce_witness :
  0 < 3 /\
  eval (GpuSrc.gpu_sum 0 3) (exec (GpuSrc.gpu_fill 0 3 5%R) ramp_device)
  = (IZR 3 * 5)%R.
Proof.
  assert (Hs : 0 < 3) by lia.
  split; [exact Hs|].
  exact (proj1 (proj2 (proj2 (proj2 (@gpu_fill_then_reduce ramp_device 0 3 5%R Hs))))).
Defined.

(* ================================================================== *)
(** ** Fused map-reduce                                               *)
(* ================================================================== *)

Lemma fold_left_map_fused {A B : Type} (op : A -> B -> A) (f : B -> B)
    (l : list B) (a : A) :
  fold_left (fun acc x => op acc (f x)) l a = fold_left op (map f l) a.
Proof. revert a. induction l as [|x l IH]; intros a; simpl; [reflexivity | apply IH]. Qed.

Lemma transform_then_sum {T : Type} `{Scalar T} (d : device T) (begin size : Z)
    (name : unary_name) :
  eval (thrust_transform_reduce begin (begin + size)
          (GpuSrc.functor_call name (GpuSrc.functor_ None None None)) 0%S s_add) d
  = eval (GpuSrc.gpu_sum begin size)
         (exec (GpuSrc.gpu_inplace name begin size None None None) d).
Proof.
  rewrite thrust_transform_reduce_eval. unfold GpuSrc.gpu_sum.
  rewrite thrust_reduce_eval, fold_left_map_fused. f_equal.
  rewrite <- read_array_map. apply read_array_shift. intros i Hi.
  unfold GpuSrc.gpu_inplace, GpuSrc.gpu_. cbv zeta. cbn [dflt].
  rewrite thrust_transform_mem by lia.
  replace (begin + size - begin) with size in * by lia.
  rewrite in_range_offset by lia.
  replace (begin + (begin + i - begin)) with (begin + i) by lia. reflexivity.
Qed.

(** X9.  The fused reductions [gpu_log_sum], [gpu_square_sum] and
    [gpu_abs_sum] return what [gpu_sum] returns after the corresponding
    in-place transform with default parameters, for any element type,
    and unlike the transform they leave the array as it was. *)
Theorem fused_sums_match_transform_then_sum {T : Type} `{Scalar T}
    (d : device T) (begin size : Z) :
  (eval (GpuSrc.gpu_log_sum begin size) d
   = eval (GpuSrc.gpu_sum begin size)
          (exec (GpuSrc.gpu_inplace N_log begin size None None None) d) /\
   mem (exec (GpuSrc.gpu_log_sum begin size) d) = mem d) /\
  (eval (GpuSrc.gpu_square_sum begin size) d
   = eval (GpuSrc.gpu_sum begin size)
          (exec (GpuSrc.gpu_inplace N_square begin size None None None) d) /\
   mem (exec (GpuSrc.gpu_square_sum begin size) d) = mem d) /\
  (eval (GpuSrc.gpu_abs_sum begin size) d
   = eval (GpuSrc.gpu_sum begin size)
          (exec (GpuSrc.gpu_inplace N_fabs begin size None None None) d) /\
   mem (exec (GpuSrc.gpu_abs_sum begin size) d) = mem d).
Proof.
  unfold GpuSrc.gpu_log_sum, GpuSrc.gpu_square_sum, GpuSrc.gpu_abs_sum.
  rewrite !thrust_transform_reduce_exec, !mem_launch.
  repeat split; apply transform_then_sum.
Qed.

Lemma fused_sum_eval (d : device R) (begin size : Z) (name : unary_name) :
  eval (thrust_transform_reduce begin (begin + size)
          (GpuSrc.functor_call name (GpuSrc.functor_ None None None)) 0%S s_add) d
  = Rsum (map (call1 name) (read_array (mem d) begin (Z.to_nat size))).
Proof.
  rewrite thrust_transform_reduce_eval. rscal.
  replace (begin + size - begin) with size by lia.
  rewrite (fold_left_Rplus_map
             (GpuSrc.functor_call name (GpuSrc.functor_ None None None))).
  rewrite Rplus_0_l. apply Rsum_map_ext. intros x _.
  unfold GpuSrc.functor_call, GpuSrc.functor_. rscal. cbn [GpuSrc.f1_a GpuSrc.f1_b GpuSrc.f1_m].
  rewrite Rmult_1_l. f_equal. lra.
Qed.

Lemma Rsum_map_nonneg (f : R -> R) (l : list R) :
  (forall x, In x l -> (0 <= f x)%R) -> (0 <= Rsum (map f l))%R.
Proof.
  induction l as [|x l IH]; intros Hf; simpl; [lra|].
  pose proof (Hf x (or_introl eq_refl)).
  assert (0 <= Rsum (map f l))%R by (apply IH; intros; apply Hf; now right). lra.
Qed.

Lemma Rsum_map_zero (f : R -> R) (l : list R) :
  (forall x, In x l -> (0 <= f x)%R) -> Rsum (map f l) = 0%R ->
  forall x, In x l -> f x = 0%R.
Proof.
  induction l as [|y l IH]; intros Hf Hz x Hx; [destruct Hx|].
  simpl in Hz.
  pose proof (Hf y (or_introl eq_refl)).
  assert (0 <= Rsum (map f l))%R
    by (apply Rsum_map_nonneg; intros; apply Hf; now right).
  destruct Hx as [<-|Hx]; [lra|].
  apply IH; [intros; apply Hf; now right | lra | exact Hx].
Qed.

Lemma Rabs_Rsum_le (l : list R) : (Rabs (Rsum l) <= Rsum (map Rabs l))%R.
Proof.
  induction l as [|x l IH]; simpl.
  - rewrite Rabs_R0. lra.
  - pose proof (Rabs_triang x (Rsum l)). lra.
Qed.

Lemma Rprod_pos (l : list R) :
  (forall x, In x l -> (0 < x)%R) -> (0 < Rprod l)%R.
Proof.
  induction l as [|x l IH]; intros Hp; simpl; [lra|].
  apply Rmult_lt_0_compat; [apply Hp; now left | apply IH; intros; apply Hp; now right].
Qed.

Lemma ln_Rprod (l : list R) :
  (forall x, In x l -> (0 < x)%R) -> ln (Rprod l) = Rsum (map ln l).
Proof.
  induction l as [|x l IH]; intros Hp; simpl; [apply ln_1|].
  rewrite ln_mult; [| apply Hp; now left | apply Rprod_pos; intros; apply Hp; now right].
  rewrite IH; [reflexivity | intros; apply Hp; now right].
Qed.

(** X10.  The fused reductions over the reals: [gpu_square_sum] is never
    negative and is zero only when every element is zero; [gpu_abs_sum]
    is at least the magnitude of [gpu_sum]; and on an array of positive
    elements [gpu_log_sum] is the logarithm of [gpu_product]. *)
Theorem fused_sums_real_facts (d : device R) (begin size : Z) :
  let xs := read_array (mem d) begin (Z.to_nat size) in
  (0 <= eval (GpuSrc.gpu_square_sum begin size) d)%R /\
  (eval (GpuSrc.gpu_square_sum begin size) d = 0%R -> forall x, In x xs -> x = 0%R) /\
  (Rabs (eval (GpuSrc.gpu_sum begin size) d)
   <= eval (GpuSrc.gpu_abs_sum begin size) d)%R /\
  ((forall x, In x xs -> (0 < x)%R) ->
   eval (GpuSrc.gpu_log_sum begin size) d
   = ln (eval (GpuSrc.gpu_product begin size) d)).
Proof.
  intros xs.
  unfold GpuSrc.gpu_square_sum, GpuSrc.gpu_abs_sum, GpuSrc.gpu_log_sum.
  rewrite !fused_sum_eval, gpu_sum_eval, gpu_product_eval. fold xs.
  cbn [call1 m_fabs m_log R_Scalar]. unfold square. rscal.
  split; [|split; [|split]].
  - apply Rsum_map_nonneg. intros x _. nra.
  - intros Hz x Hx.
    pose proof (@Rsum_map_zero (fun x => x * x)%R xs
                  (fun x _ => Rle_0_sqr x) Hz x Hx) as Hx0.
    cbv beta in Hx0. nra.
  - apply Rabs_Rsum_le.
  - intros Hp. symmetry. now apply ln_Rprod.
Qed.

(* ================================================================== *)
(** ** More on the softmax family                                     *)
(* ================================================================== *)

Lemma Rsum_map_member_le (f : R -> R) (l : list R) (x : R) :
  (forall y, In y l -> (0 <= f y)%R) -> In x l -> (f x <= Rsum (map f l))%R.
Proof.
  induction l as [|y l IH]; intros Hf Hx; [destruct Hx|]. simpl.
  pose proof (Hf y (or_introl eq_refl)).
  assert (0 <= Rsum (map f l))%R
    by (apply Rsum_map_nonneg; intros; apply Hf; now right).
  destruct Hx as [<-|Hx]; [lra|].
  assert (f x <= Rsum (map f l))%R by (apply IH; [intros; apply Hf; now right | exact Hx]).
  lra.
Qed.

Lemma read_array_In {T : Type} (m : Z -> T) (p : Z) (n : nat) (i : Z) :
  0 <= i < Z.of_nat n -> In (m (p + i)) (read_array m p n).
Proof.
  intros Hi. unfold read_array. apply in_map_iff.
  exists (Z.to_nat i). split; [f_equal; lia | apply in_seq; lia].
Qed.

Lemma gpu_softmax_elem (d : device R) (begin size out i : Z) :
  out = begin \/ out + size <= begin \/ begin + size <= out ->
  0 <= i < size ->
  mem (exec (GpuSrc.gpu_softmax begin size out) d) (out + i)
  = (exp (mem d (begin + i) - eval (GpuSrc.gpu_max begin size) d)
     * (1 / Rsum (map (fun x => exp (x - eval (GpuSrc.gpu_max begin size) d))
                      (read_array (mem d) begin (Z.to_nat size)))))%R.
Proof.
  intros Hal Hi. rewrite gpu_softmax_mem by assumption.
  rewrite in_range_offset by assumption.
  replace (begin + (out + i - out)) with (begin + i) by lia. reflexivity.
Qed.

Lemma gpu_softmax_elem_range (d : device R) (begin size out i : Z) :
  out = begin \/ out + size <= begin \/ begin + size <= out ->
  0 <= i < size ->
  (0 < mem (exec (GpuSrc.gpu_softmax begin size out) d) (out + i) <= 1)%R.
Proof.
  intros Hal Hi. rewrite gpu_softmax_elem by assumption.
  assert (Hs : 0 < size) by lia.
  pose proof (@softmax_expsum_pos d begin size Hs) as Hpos. cbv zeta in Hpos.
  set (mx := eval (GpuSrc.gpu_max begin size) d) in *.
  set (xs := read_array (mem d) begin (Z.to_nat size)) in *.
  set (s := Rsum (map (fun x => exp (x - mx)) xs)) in *.
  assert (Hinv : (0 < 1 / s)%R) by (apply Rdiv_lt_0_compat; lra).
  pose proof (exp_pos (mem d (begin + i) - mx)) as He.
  assert (Hle : (exp (mem d (begin + i) - mx) <= s)%R).
  { apply (Rsum_map_member_le (fun x => exp (x - mx))).
    - intros y _. left. apply exp_pos.
    - apply read_array_In. lia. }
  split; [apply Rmult_lt_0_compat; assumption|].
  apply Rmult_le_reg_r with s; [assumption|].
  replace (exp (mem d (begin + i) - mx) * (1 / s) * s)%R
    with (exp (mem d (begin + i) - mx)) by (field; lra).
  lra.
Qed.

(** X11.  The output of [gpu_softmax] on a non-empty array of reals:
    every element is positive and at most 1, and the order of the inputs
    is kept (a larger input never gets a smaller output, equal inputs get
    equal outputs). *)
Theorem gpu_softmax_range_monotone (d : device R) (begin size out : Z) :
  0 < size ->
  out = begin \/ out + size <= begin \/ begin + size <= out ->
  let d' := exec (GpuSrc.gpu_softmax begin size out) d in
  (forall i, 0 <= i < size -> (0 < mem d' (out + i) <= 1)%R) /\
  (forall i j, 0 <= i < size -> 0 <= j < size ->
     (mem d (begin + i) <= mem d (begin + j))%R ->
     (mem d' (out + i) <= mem d' (out + j))%R) /\
  (forall i j, 0 <= i < size -> 0 <= j < size ->
     mem d (begin + i) = mem d (begin + j) -> mem d' (out + i) = mem d' (out + j)).
Proof.
  intros Hs Hal d'. unfold d'.
  split; [intros i Hi; now apply gpu_softmax_elem_range|].
  pose proof (@softmax_expsum_pos d begin size Hs) as Hpos. cbv zeta in Hpos.
  split.
  - intros i j Hi Hj Hle. rewrite !gpu_softmax_elem by assumption.
    apply Rmult_le_compat_r; [left; apply Rdiv_lt_0_compat; lra|].
    destruct Hle as [Hlt|Heq]; [left; apply exp_increasing; lra | rewrite Heq; lra].
  - intros i j Hi Hj Heq. rewrite !gpu_softmax_elem by assumption. now rewrite Heq.
Qed.

Lemma gpu_softmax_range_monotone_witness :
  0 < 3 /\ (0 = 0 \/ 0 + 3 <= 0 \/ 0 + 3 <= 0) /\
  forall i, 0 <= i < 3 ->
    (0 < mem (exec (GpuSrc.gpu_softmax 0 3 0) (list_device [1; 2; 3]%R)) (0 + i) <= 1)%R.
Proof.
  assert (Hs : 0 < 3) by lia.
  assert (Hal : 0 = 0 \/ 0 + 3 <= 0 \/ 0 + 3 <= 0) by (left; reflexivity).
  split; [exact Hs|]. split; [exact Hal|].
  exact (proj1 (@gpu_softmax_range_monotone (list_device [1; 2; 3]%R) 0 3 0 Hs Hal)).
Defined.

Lemma Rsum_indicator (k : nat) : forall n s,
  Rsum (map (fun i => if Nat.eqb i k then 1 else 0)%R (seq s n))
  = if (s <=? k)%nat && (k <? s + n)%nat then 1%R else 0%R.
Proof.
  induction n as [|n IH]; intros s; cbn [seq map Rsum fold_right].
  - destruct (Nat.leb_spec s k), (Nat.ltb_spec k (s + 0)); cbn [andb]; try reflexivity; lia.
  - fold (Rsum (map (fun i => if Nat.eqb i k then 1 else 0)%R (seq (S s) n))).
    rewrite IH.
    destruct (Nat.eqb_spec s k), (Nat.leb_spec (S s) k), (Nat.ltb_spec k (S s + n)),
      (Nat.leb_spec s k), (Nat.ltb_spec k (s + S n)); cbn [andb]; try lia; lra.
Qed.

(** X12.  [gpu_softmax_minus_id] on a non-empty array of reals with the
    label inside it: the output sums to 0, the element at the label is
    negative or zero and above -1, and every other element is positive
    and at most 1. *)
Theorem gpu_softmax_minus_id_gradient (d : device R) (begin size out label : Z) :
  0 < size ->
  0 <= label < size ->
  out = begin \/ out + size <= begin \/ begin + size <= out ->
  let d' := exec (GpuSrc.gpu_softmax_minus_id begin size out label) d in
  Rsum (read_array (mem d') out (Z.to_nat size)) = 0%R /\
  (-1 < mem d' (out + label) <= 0)%R /\
  (forall i, 0 <= i < size -> i <> label -> (0 < mem d' (out + i) <= 1)%R).
Proof.
  intros Hs Hl Hal d'.
  assert (Hrange := fun i Hi => @gpu_softmax_elem_range d begin size out i Hal Hi).
  pose proof (@gpu_softmax_sum d begin size out Hal Hs) as Hsum.
  set (m := mem (exec (GpuSrc.gpu_softmax begin size out) d)) in *.
  assert (E : forall q, mem d' q
              = if q =? out + label then (m (out + label)%Z - 1)%R else m q).
  { intros q. unfold d'. apply gpu_softmax_minus_id_mem. }
  split; [|split].
  - assert (A : read_array (mem d') out (Z.to_nat size)
                = map (fun i => (m (out + Z.of_nat i)%Z
                                 - (if Nat.eqb i (Z.to_nat label) then 1 else 0))%R)
                      (seq 0 (Z.to_nat size))).
    { unfold read_array. apply map_ext_in. intros i Hi. apply in_seq in Hi.
      rewrite E. destruct (Z.eqb_spec (out + Z.of_nat i) (out + label)) as [Heq|Hne],
        (Nat.eqb_spec i (Z.to_nat label)); try lia; [rewrite Heq; reflexivity | lra]. }
    rewrite A.
    assert (Split : forall (f g : nat -> R) (l : list nat),
              Rsum (map (fun i => f i - g i)%R l)
              = (Rsum (map f l) - Rsum (map g l))%R).
    { intros f g l. induction l as [|a l IH]; simpl; [lra | rewrite IH; lra]. }
    rewrite (Split (fun i => m (out + Z.of_nat i))).
    change (map (fun i => m (out + Z.of_nat i)) (seq 0 (Z.to_nat size)))
      with (read_array m out (Z.to_nat size)).
    rewrite Hsum, Rsum_indicator.
    destruct (Nat.leb_spec 0 (Z.to_nat label)),
      (Nat.ltb_spec (Z.to_nat label) (0 + Z.to_nat size)); cbn [andb]; try lia; lra.
  - rewrite E, Z.eqb_refl. pose proof (Hrange label Hl). lra.
  - intros i Hi Hne. rewrite E.
    destruct (Z.eqb_spec (out + i) (out + label)); [lia|]. now apply Hrange.
Qed.

Lemma gpu_softmax_minus_id_gradient_witness :
  0 < 3 /\ 0 <= 1 < 3 /\ (0 = 0 \/ 0 + 3 <= 0 \/ 0 + 3 <= 0) /\
  Rsum (read_array
          (mem (exec (GpuSrc.gpu_softmax_minus_id 0 3 0 1) (list_device [1; 2; 3]%R)))
          0 (Z.to_nat 3)) = 0%R.
Proof.
  assert (Hs : 0 < 3) by lia.
  assert (Hl : 0 <= 1 < 3) by lia.
  assert (Hal : 0 = 0 \/ 0 + 3 <= 0 \/ 0 + 3 <= 0) by (left; reflexivity).
  split; [exact Hs|]. split; [exact Hl|]. split; [exact Hal|].
  exact (proj1 (@gpu_softmax_minus_id_gradient (list_device [1; 2; 3]%R) 0 3 0 1
                  Hs Hl Hal)).
Defined.

(** X13.  The log-probability that [gpu_softmax_at_label] returns for a
    non-empty array of reals and a label inside it is never positive, and
    its exponential is the element that [gpu_softmax] leaves at the
    label. *)
Theorem gpu_softmax_at_label_nonpositive (d : device R) (begin size label outLogProb : Z) :
  0 < size ->
  0 <= label < size ->
  let r := eval (GpuSrc.gpu_softmax_at_label begin size label outLogProb) d in
  (r <= 0)%R /\
  exp r = mem (exec (GpuSrc.gpu_softmax_inplace begin size) d) (begin + label).
Proof.
  intros Hs Hl r.
  assert (Hal : begin = begin \/ begin + size <= begin \/ begin + size <= begin)
    by (left; reflexivity).
  pose proof (@gpu_softmax_elem_range d begin size begin label Hal Hl) as Hrange.
  assert (Hexp : exp r
            = mem (exec (GpuSrc.gpu_softmax_inplace begin size) d) (begin + label)).
  { unfold r, GpuSrc.gpu_softmax_inplace.
    rewrite gpu_softmax_at_label_eval, gpu_softmax_elem by assumption.
    pose proof (@softmax_expsum_pos d begin size Hs) as Hpos. cbv zeta in Hpos.
    set (mx := eval (GpuSrc.gpu_max begin size) d) in *.
    set (s := Rsum (map (fun x => exp (x - mx))
                        (read_array (mem d) begin (Z.to_nat size)))) in *.
    unfold Rminus at 1. rewrite exp_plus, exp_Ropp, exp_ln by assumption.
    unfold Rdiv. now rewrite Rmult_1_l. }
  split; [|exact Hexp].
  unfold GpuSrc.gpu_softmax_inplace in Hexp, Hrange. rewrite <- Hexp in Hrange.
  destruct (Rle_or_lt r 0) as [Hle|Hgt]; [exact Hle|].
  apply exp_increasing in Hgt. rewrite exp_0 in Hgt. lra.
Qed.

Lemma gpu_softmax_at_label_nonpositive_witness :
  0 < 3 /\ 0 <= 1 < 3 /\
  (eval (GpuSrc.gpu_softmax_at_label 0 3 1 10) (list_device [1; 2; 3]%R) <= 0)%R.
Proof.
  assert (Hs : 0 < 3) by lia.
  assert (Hl : 0 <= 1 < 3) by lia.
  split; [exact Hs|]. split; [exact Hl|].
  exact (proj1 (@gpu_softmax_at_label_nonpositive (list_device [1; 2; 3]%R) 0 3 1 10
                  Hs Hl)).
Defined.

(* ================================================================== *)
(** ** Composing affine transforms                                    *)
(* ================================================================== *)

(** X14.  In-place [gpu_linear] over the reals composes as affine maps
    do: [(a2, b2)] after [(a1, b1)] leaves the memory that
    [(a2 * a1, a2 * b1 + b2)] leaves, and for [a <> 0] the transform
    [(1 / a, - b / a)] undoes [(a, b)]. *)
Theorem gpu_linear_composes (d : device R) (begin size : Z) (a1 b1 a2 b2 : R) :
  (forall q,
     mem (exec (GpuSrc.gpu_linear_inplace begin size (Some a2) (Some b2))
            (exec (GpuSrc.gpu_linear_inplace begin size (Some a1) (Some b1)) d)) q
     = mem (exec (GpuSrc.gpu_linear_inplace begin size
                    (Some (a2 * a1)%R) (Some (a2 * b1 + b2)%R)) d) q) /\
  (a1 <> 0%R ->
   forall q,
     mem (exec (GpuSrc.gpu_linear_inplace begin size (Some (1 / a1)%R) (Some (- b1 / a1)%R))
            (exec (GpuSrc.gpu_linear_inplace begin size (Some a1) (Some b1)) d)) q
     = mem d q).
Proof.
  split.
  - intros q. rewrite !gpu_linear_inplace_mem.
    destruct ((begin <=? q) && (q <? begin + Z.max 0 size)); [lra | reflexivity].
  - intros Ha q. rewrite !gpu_linear_inplace_mem.
    destruct ((begin <=? q) && (q <? begin + Z.max 0 size)); [field; exact Ha | reflexivity].
Qed.

(* ================================================================== *)
(** ** The two generations side by side                               *)
(* ================================================================== *)

Lemma mythrust_gpu_2_mem (d : device R) (name : binary_name)
    (begin size out : Z) (p a b : R) (q : Z) :
  out = begin \/ out + size <= begin \/ begin + size <= out ->
  mem (exec (MyThrust.gpu_2 name begin size out p (Some a) (Some b)) d) q
  = if (out <=? q) && (q <? out + Z.max 0 size)
    then call2 name (a * mem d (begin + (q - out)) + b)%R p else mem d q.
Proof.
  intros Hal. unfold MyThrust.gpu_2. cbn [dflt].
  change (@s_eqb R R_Scalar) with Reqb. change (@s_of_Z R R_Scalar) with IZR.
  destruct (Reqb a 1) eqn:Ea, (Reqb b 0) eqn:Eb; cbn [andb];
    try apply Reqb_true in Ea; try apply Reqb_true in Eb; subst;
    rewrite thrust_transform_mem by lia;
    replace (begin + size - begin) with size by lia;
    (destruct ((out <=? q) && (q <? out + Z.max 0 size)); [|reflexivity]);
    unfold MyThrust.functor2_0, MyThrust.functor2_1, MyThrust.functor2_2,
      MyThrust.functor2_3; rscal; f_equal; lra.
Qed.

(** In exact arithmetic a name of the macro generation computes what
    the name of the templated generation that is spelled like it
    computes. *)
Lemma mythrust_call_name_real (n : MyThrust.name) (y : R) :
  MyThrust.call_name (Some n) y = call1 (templated_name n) y.
Proof. destruct n; reflexivity. Qed.

Lemma mythrust_gpu_mem (d : device R) (n : MyThrust.name)
    (begin size out : Z) (a b : R) (q : Z) :
  out = begin \/ out + size <= begin \/ begin + size <= out ->
  mem (exec (MyThrust.gpu_ (Some n) begin size out (Some a) (Some b)) d) q
  = if (out <=? q) && (q <? out + Z.max 0 size)
    then MyThrust.call_name (Some n) (a * mem d (begin + (q - out)) + b)%R
    else mem d q.
Proof.
  intros Hal. unfold MyThrust.gpu_. cbn [dflt].
  change (@s_eqb R R_Scalar) with Reqb. change (@s_of_Z R R_Scalar) with IZR.
  destruct (Reqb a 1) eqn:Ea, (Reqb b 0) eqn:Eb; cbn [andb];
    try apply Reqb_true in Ea; try apply Reqb_true in Eb; subst;
    rewrite thrust_transform_mem by lia;
    replace (begin + size - begin) with size by lia;
    (destruct ((out <=? q) && (q <? out + Z.max 0 size)); [|reflexivity]);
    unfold MyThrust.functor_0, MyThrust.functor_1, MyThrust.functor_2,
      MyThrust.functor_3; rscal; f_equal; lra.
Qed.

(** X15.  Over the reals, where [float] and [Ftype] are the same exact
    numbers: for each of the 24 unary names that the macro generation
    instantiates, its transform and the templated transform of the
    same spelling with post-scale 1 leave the same memory, for every
    [(a, b)], whichever of its four functor shapes the macro generation
    dispatches to; likewise for the two binary names and every [p], and
    for [gpu_dot_mult] with scale 1.  The four names [triangular_wave],
    [triangular_wave_positive], [rectified_linear] and
    [rectified_linear_deriv] exist in the templated generation only. *)
Theorem generations_agree (d : device R) (begin size out begin2 : Z) (p a b : R) :
  out = begin \/ out + size <= begin \/ begin + size <= out ->
  out = begin2 \/ out + size <= begin2 \/ begin2 + size <= out ->
  (forall (n : MyThrust.name) q,
     mem (exec (MyThrust.gpu_ (Some n) begin size out (Some a) (Some b)) d) q
     = mem (exec (GpuSrc.gpu_ (templated_name n) begin size out
                    (Some a) (Some b) (Some 1%R)) d) q) /\
  (forall (name : binary_name) q,
     mem (exec (MyThrust.gpu_2 name begin size out p (Some a) (Some b)) d) q
     = mem (exec (GpuSrc.gpu_2 name begin size out p (Some a) (Some b) (Some 1%R)) d) q) /\
  (forall q,
     mem (exec (MyThrust.gpu_dot_mult begin size begin2 out) d) q
     = mem (exec (GpuSrc.gpu_dot_mult begin size begin2 out None) d) q) /\
  (forall n : MyThrust.name,
     ~ In (templated_name n)
          [N_triangular_wave; N_triangular_wave_positive;
           N_rectified_linear; N_rectified_linear_deriv]).
Proof.
  intros Hal Hal2. split; [|split; [|split]].
  - intros n q. rewrite mythrust_gpu_mem by assumption.
    unfold GpuSrc.gpu_. cbv zeta. cbn [dflt]. rewrite thrust_transform_mem by lia.
    replace (begin + size - begin) with size by lia.
    destruct ((out <=? q) && (q <? out + Z.max 0 size)); [|reflexivity].
    rewrite mythrust_call_name_real.
    unfold GpuSrc.functor_call, GpuSrc.functor_. rscal.
    cbn [GpuSrc.f1_a GpuSrc.f1_b GpuSrc.f1_m]. lra.
  - intros name q. rewrite mythrust_gpu_2_mem by assumption.
    unfold GpuSrc.gpu_2. cbv zeta. cbn [dflt]. rewrite thrust_transform_mem by lia.
    replace (begin + size - begin) with size by lia.
    destruct ((out <=? q) && (q <? out + Z.max 0 size)); [|reflexivity].
    unfold GpuSrc.functor_2_call, GpuSrc.functor_2. rscal.
    cbn [GpuSrc.f2_a GpuSrc.f2_b GpuSrc.f2_m GpuSrc.f2_p]. lra.
  - intros q. unfold MyThrust.gpu_dot_mult, GpuSrc.gpu_dot_mult. cbv zeta. cbn [dflt].
    rewrite !thrust_transform2_mem by lia.
    destruct ((out <=? q) && (q <? out + Z.max 0 (begin + size - begin)));
      [|reflexivity].
    unfold GpuSrc.functor_scale_mult_call, GpuSrc.functor_scale_mult_. rscal.
    cbn [GpuSrc.fsm_s]. lra.
  - intros n Hin. cbn [In] in Hin.
    destruct n; cbn [templated_name] in Hin;
      destruct Hin as [E|[E|[E|[E|[]]]]]; discriminate E.
Qed.

Lemma generations_agree_witness :
  (10 = 0 \/ 10 + 3 <= 0 \/ 0 + 3 <= 10) /\
  (10 = 20 \/ 10 + 3 <= 20 \/ 20 + 3 <= 10) /\
  forall q,
    mem (exec (MyThrust.gpu_dot_mult 0 3 20 10) ramp_device) q
    = mem (exec (GpuSrc.gpu_dot_mult 0 3 20 10 None) ramp_device) q.
Proof.
  assert (H1 : 10 = 0 \/ 10 + 3 <= 0 \/ 0 + 3 <= 10) by lia.
  assert (H2 : 10 = 20 \/ 10 + 3 <= 20 \/ 20 + 3 <= 10) by lia.
  split; [exact H1|]. split; [exact H2|].
  exact (proj1 (proj2 (proj2 (@generations_agree ramp_device 0 3 10 20 2%R 3%R 4%R H1 H2)))).
Defined.

(* ================================================================== *)
(** ** Launch shapes and single-tile transposition                    *)
(* ================================================================== *)

(** X16.  The launch shape that [setKernelDim1D] gives for [threads >= 1]
    threads, starting from default shapes: the block has between 1 and
    1024 threads and grid times block covers [threads]; up to 1024
    threads there is one block, a multiple of 32 with fewer than 32 idle
    threads; above 1024 the blocks have 1024 threads and there are
    [threads / 1024 + 1] of them, so at most one block's worth of threads
    is idle, and when [threads] is a multiple of 1024 the last block is
    idle altogether. *)
Theorem setKernelDim1D_shape (threads : Z) :
  1 <= threads ->
  let gb := MyThrust.setKernelDim1D threads (MyThrust.dim3_ None None None)
                                            (MyThrust.dim3_ None None None) in
  let g := MyThrust.dx (fst gb) in
  let b := MyThrust.dx (snd gb) in
  1 <= b <= 1024 /\ 1 <= g /\ threads <= g * b /\
  (threads <= 1024 -> g = 1 /\ b mod 32 = 0 /\ b < threads + 32) /\
  (1024 < threads -> b = 1024 /\ g = threads / 1024 + 1 /\ g * b <= threads + 1024) /\
  (1024 < threads -> threads mod 1024 = 0 -> (g - 1) * b = threads) /\
  MyThrust.dy (fst gb) = 1 /\ MyThrust.dz (fst gb) = 1 /\
  MyThrust.dy (snd gb) = 1 /\ MyThrust.dz (snd gb) = 1.
Proof.
  intros Ht. cbv zeta. unfold MyThrust.setKernelDim1D.
  destruct (Z.gtb_spec threads 1024) as [Hbig|Hsmall].
  - cbn [fst snd MyThrust.dx MyThrust.dy MyThrust.dz MyThrust.dim3_ dflt].
    rewrite Z.quot_div_nonneg by lia.
    pose proof (Z.div_mod threads 1024 ltac:(lia)).
    pose proof (Z.mod_pos_bound threads 1024 ltac:(lia)).
    repeat split; try lia.
  - destruct (Z.eqb_spec (Z.rem threads 32) 0) as [Hr|Hr];
      cbn [fst snd MyThrust.dx MyThrust.dy MyThrust.dz MyThrust.dim3_ dflt].
    + rewrite Z.rem_mod_nonneg in Hr by lia. repeat split; try lia.
    + rewrite Z.rem_mod_nonneg in Hr by lia. rewrite Z.quot_div_nonneg by lia.
      pose proof (Z.div_mod threads 32 ltac:(lia)).
      pose proof (Z.mod_pos_bound threads 32 ltac:(lia)).
      rewrite Z.mod_mul by lia.
      repeat split; try lia.
Qed.

Lemma setKernelDim1D_shape_witness :
  1 <= 2048 /\
  MyThrust.dx (fst (MyThrust.setKernelDim1D 2048 (MyThrust.dim3_ None None None)
                                                 (MyThrust.dim3_ None None None)))
  = 2048 / 1024 + 1.
Proof.
  assert (Ht : 1 <= 2048) by lia.
  split; [exact Ht|].
  assert (Hb : 1024 < 2048) by lia.
  exact (proj1 (proj2 (proj1 (proj2 (proj2 (proj2 (proj2
    (@setKernelDim1D_shape 2048 Ht))))) Hb))).
Defined.

(** X17.  [gpu_transpose_float] on a matrix whose two dimensions are at
    most 16 (one tile): the element of row [r] and column [c], stored at
    [in + c * row + r], arrives at [out + r * col + c]; no address outside
    the [row * col] elements of the output changes; and transposing the
    result back, as a [col] by [row] matrix, gives the elements of the
    original in their places. *)
Theorem gpu_transpose_float_within_one_tile {T : Type} (garbage : T) (d : device T)
    (in_ row col out back : Z) :
  0 <= row <= 16 -> 0 <= col <= 16 ->
  let d1 := exec (MyThrust.gpu_transpose_float garbage in_ row col out) d in
  let d2 := exec (MyThrust.gpu_transpose_float garbage out col row back) d1 in
  (forall r c, 0 <= r < row -> 0 <= c < col ->
     mem d1 (out + (r * col + c)) = mem d (in_ + (c * row + r))) /\
  (forall q, q < out \/ out + row * col <= q -> mem d1 q = mem d q) /\
  (forall r c, 0 <= r < row -> 0 <= c < col ->
     mem d2 (back + (c * row + r)) = mem d (in_ + (c * row + r))).
Proof.
  intros Hrow Hcol d1 d2.
  destruct (@gpu_transpose_float_single_tile T garbage d in_ row col out Hrow Hcol)
    as [H1 H2].
  split; [exact H1|]. split; [exact H2|].
  intros r c Hr Hc.
  now apply gpu_transpose_float_round_trip_single_tile.
Qed.

Lemma gpu_transpose_float_within_one_tile_witness :
  0 <= 3 <= 16 /\ 0 <= 2 <= 16 /\
  forall r c, 0 <= r < 3 -> 0 <= c < 2 ->
    mem (exec (MyThrust.gpu_transpose_float 0%R 0 3 2 100) ramp_device)
        (100 + (r * 2 + c))
    = mem ramp_device (0 + (c * 3 + r)).
Proof.
  assert (Hr : 0 <= 3 <= 16) by lia. assert (Hc : 0 <= 2 <= 16) by lia.
  split; [exact Hr|]. split; [exact Hc|].
  exact (proj1 (@gpu_transpose_float_within_one_tile R 0%R ramp_device 0 3 2 100 200
                  Hr Hc)).
Defined.

(* ================================================================== *)
(** ** The elementary functions over the reals                        *)
(* ================================================================== *)

Ltac relem :=
  cbn [s_add s_sub s_mul s_div s_neg s_of_Z s_ltb s_eqb s_half s_pi
       m_exp m_log m_tan m_fabs m_fmod R_Scalar].

Lemma signum_cases (x : R) :
  (0 < x -> signum x = 1)%R /\ (x < 0 -> signum x = -1)%R /\ (x = 0 -> signum x = 0)%R.
Proof.
  unfold signum. relem. unfold b2z.
  repeat split; intros Hx.
  - replace (Rltb 0 x) with true by (symmetry; now apply Rltb_true).
    replace (Rltb x 0) with false by (symmetry; apply Rltb_false; lra). reflexivity.
  - replace (Rltb 0 x) with false by (symmetry; apply Rltb_false; lra).
    replace (Rltb x 0) with true by (symmetry; now apply Rltb_true). reflexivity.
  - replace (Rltb 0 x) with false by (symmetry; apply Rltb_false; lra).
    replace (Rltb x 0) with false by (symmetry; apply Rltb_false; lra). reflexivity.
Qed.

(** X18.  Over the reals: [signum] is the sign (1, -1 or 0) and
    [signum x * |x| = x]; [rectified_linear] is [max(x, 0)], is its own
    fixed point when applied twice, and equals [x] times
    [rectified_linear_deriv x], which is 1 for positive [x] and 0
    otherwise (0 included). *)
Theorem signum_rectified_linear_facts (x : R) :
  ((0 < x -> signum x = 1) /\ (x < 0 -> signum x = -1) /\ (x = 0 -> signum x = 0))%R /\
  (signum x * Rabs x = x)%R /\
  rectified_linear x = Rmax x 0 /\
  rectified_linear (rectified_linear x) = rectified_linear x /\
  ((0 < x -> rectified_linear_deriv x = 1) /\
   (x <= 0 -> rectified_linear_deriv x = 0))%R /\
  (rectified_linear x = x * rectified_linear_deriv x)%R.
Proof.
  destruct (signum_cases x) as (Sp & Sn & Sz).
  split; [exact (signum_cases x)|].
  split.
  { destruct (Rtotal_order x 0) as [Hx|[Hx|Hx]].
    - rewrite Sn, Rabs_left by assumption. lra.
    - rewrite Sz by assumption. subst x. rewrite Rabs_R0. lra.
    - rewrite Sp, Rabs_right by lra. lra. }
  unfold rectified_linear, rectified_linear_deriv. relem.
  destruct (Rltb 0 x) eqn:E0; pose proof E0 as E.
  - apply Rltb_true in E. rewrite Rmax_left by lra. rewrite E0.
    split; [reflexivity|]. split; [reflexivity|].
    split; [split; intros; lra | lra].
  - apply Rltb_false in E. rewrite Rmax_right by lra.
    replace (Rltb 0 0) with false by (symmetry; apply Rltb_false; lra).
    split; [reflexivity|]. split; [reflexivity|].
    split; [split; intros; lra | lra].
Qed.

Lemma sigmoid_real (x : R) : sigmoid x = (1 / (1 + exp (- x)))%R.
Proof. reflexivity. Qed.

(** X19.  Over the reals [sigmoid] takes values strictly between 0 and 1,
    is increasing, satisfies [sigmoid(-x) = 1 - sigmoid(x)], and its
    derivative at [x] is [sigmoid_deriv] applied to [sigmoid x]. *)
Theorem sigmoid_facts (x : R) :
  (0 < sigmoid x < 1)%R /\
  sigmoid (- x)%R = (1 - sigmoid x)%R /\
  (forall y, (x < y)%R -> (sigmoid x < sigmoid y)%R) /\
  derivable_pt_lim (fun t : R => sigmoid t) x (sigmoid_deriv (sigmoid x)).
Proof.
  rewrite !sigmoid_real.
  pose proof (exp_pos (- x)) as He.
  split; [|split; [|split]].
  - split.
    + apply Rdiv_lt_0_compat; lra.
    + apply Rmult_lt_reg_r with (1 + exp (- x))%R; [lra|].
      replace (1 / (1 + exp (- x)) * (1 + exp (- x)))%R with 1%R by (field; lra). lra.
  - rewrite Ropp_involutive.
    assert (Hx : exp x = (/ exp (- x))%R).
    { rewrite exp_Ropp, Rinv_inv. reflexivity. }
    rewrite Hx. field. lra.
  - intros y Hy. rewrite sigmoid_real.
    pose proof (exp_pos (- y)) as Hey.
    assert (Hlt : (exp (- y) < exp (- x))%R) by (apply exp_increasing; lra).
    unfold Rdiv. rewrite !Rmult_1_l. apply Rinv_lt_contravar; [nra | lra].
  - unfold sigmoid_deriv. relem.
    replace (1 / (1 + exp (- x)) * (1 - 1 / (1 + exp (- x))))%R
      with ((0 * (1 + exp (- x)) - (0 + exp (- x) * -1) * 1)
            / Rsqr (1 + exp (- x)))%R
      by (unfold Rsqr; field; lra).
    change (fun t : R => sigmoid t)
      with (div_fct (fct_cte 1) (plus_fct (fct_cte 1) (comp exp (opp_fct id)))).
    apply (derivable_pt_lim_div (fct_cte 1)
             (plus_fct (fct_cte 1) (comp exp (opp_fct id))) x 0
             (0 + exp (- x) * -1)).
    + apply derivable_pt_lim_const.
    + apply derivable_pt_lim_plus; [apply derivable_pt_lim_const|].
      apply (derivable_pt_lim_comp (opp_fct id) exp x (-1) (exp (- x))).
      * apply derivable_pt_lim_opp, derivable_pt_lim_id.
      * apply derivable_pt_lim_exp.
    + unfold plus_fct, fct_cte, comp, opp_fct, id. lra.
Qed.

Lemma Rfmod_2_floor (a : R) :
  (0 <= a)%R -> Rfmod a 2 = (a - 2 * IZR (Int_part (a / 2)))%R.
Proof.
  intros Ha. unfold Rfmod, Rtrunc, Rfloor.
  destruct (Rle_dec 0 (a / 2)) as [_|Hn]; [ring|].
  exfalso. apply Hn. unfold Rdiv. apply Rmult_le_pos; lra.
Qed.

Lemma Rfmod_2_range (a : R) : (0 <= a)%R -> (0 <= Rfmod a 2 < 2)%R.
Proof.
  intros Ha. rewrite Rfmod_2_floor by assumption.
  pose proof (base_Int_part (a / 2)) as [H1 H2].
  replace a with (2 * (a / 2))%R at 1 3 by field. lra.
Qed.

Lemma Rfmod_2_small (a : R) : (0 <= a < 2)%R -> Rfmod a 2 = a.
Proof.
  intros Ha. rewrite Rfmod_2_floor by lra.
  replace (Int_part (a / 2)) with 0%Z; [lra|].
  apply Int_part_spec. lra.
Qed.

Lemma Rfmod_2_period (a : R) : (0 <= a)%R -> Rfmod (a + 2) 2 = Rfmod a 2.
Proof.
  intros Ha. rewrite !Rfmod_2_floor by lra.
  replace (Int_part ((a + 2) / 2)) with (Int_part (a / 2) + 1)%Z.
  - rewrite plus_IZR. lra.
  - apply Int_part_spec. rewrite plus_IZR.
    pose proof (base_Int_part (a / 2)) as [H1 H2].
    replace ((a + 2) / 2)%R with (a / 2 + 1)%R by field. lra.
Qed.

Lemma triangular_wave_real (x : R) :
  triangular_wave x = (2 * Rabs (Rfmod (Rabs x) 2 - 1) - 1)%R /\
  triangular_wave_positive x = Rabs (Rfmod (Rabs x) 2 - 1).
Proof. split; reflexivity. Qed.

(** X20.  Over the reals [triangular_wave] is an even function with values
    in [-1, 1] and period 2 that falls linearly from 1 at 0 to -1 at 1
    and rises back to 1 at 2; [triangular_wave_positive] is the same
    wave rescaled to [0, 1]. *)
Theorem triangular_wave_facts (x : R) :
  triangular_wave (- x)%R = triangular_wave x /\
  (-1 <= triangular_wave x <= 1)%R /\
  (0 <= triangular_wave_positive x <= 1)%R /\
  (triangular_wave x = 2 * triangular_wave_positive x - 1)%R /\
  triangular_wave (Rabs x + 2)%R = triangular_wave x /\
  ((Rabs x <= 1)%R -> triangular_wave x = (1 - 2 * Rabs x)%R) /\
  ((1 <= Rabs x <= 2)%R -> triangular_wave x = (2 * Rabs x - 3)%R).
Proof.
  pose proof (Rabs_pos x) as Hx.
  pose proof (Rfmod_2_range Hx) as Hr.
  destruct (triangular_wave_real x) as [Ew Ep].
  assert (Hp : (0 <= Rabs (Rfmod (Rabs x) 2 - 1) <= 1)%R).
  { split; [apply Rabs_pos|]. apply Rabs_le. lra. }
  split; [|split; [|split; [|split; [|split; [|split]]]]].
  - destruct (triangular_wave_real (- x)) as [Ew' _].
    rewrite Ew', Ew, Rabs_Ropp. reflexivity.
  - rewrite Ew. lra.
  - rewrite Ep. exact Hp.
  - rewrite Ew, Ep. reflexivity.
  - destruct (triangular_wave_real (Rabs x + 2)) as [Ew' _].
    rewrite Ew', Ew. rewrite (Rabs_right (Rabs x + 2)) by lra.
    rewrite Rfmod_2_period by assumption. reflexivity.
  - intros H1. rewrite Ew, Rfmod_2_small by lra.
    rewrite Rabs_left1 by lra. lra.
  - intros [H1 H2]. rewrite Ew.
    destruct (Rle_lt_or_eq_dec _ _ H2) as [Hlt|Heq].
    + rewrite Rfmod_2_small by lra. rewrite Rabs_right by lra. lra.
    + rewrite Heq.
      assert (E2 : Rfmod 2 2 = 0%R).
      { replace 2%R with (0 + 2)%R at 1 by lra.
        rewrite Rfmod_2_period, Rfmod_2_small by lra. reflexivity. }
      rewrite E2, Rabs_left by lra. lra.
Qed.

Lemma triangular_wave_facts_witness :
  (Rabs (/ 2) <= 1)%R /\ triangular_wave (/ 2)%R = (1 - 2 * Rabs (/ 2))%R.
Proof.
  assert (H1 : (Rabs (/ 2) <= 1)%R) by (rewrite Rabs_right; lra).
  split; [exact H1|].
  exact (proj1 (proj2 (proj2 (proj2 (proj2 (proj2
    (triangular_wave_facts (/ 2)))))) ) H1).
Defined.

Lemma laplacian_real (u : R) :
  laplacian u = (- signum (u - / 2) * ln (1 - 2 * Rabs (u - / 2)))%R.
Proof. reflexivity. Qed.

Lemma cauchy_real (u : R) : cauchy u = tan (PI * (u - / 2)).
Proof. reflexivity. Qed.

(** X21.  [laplacian] and [cauchy] are quantile functions: for a
    probability [u] strictly between 0 and 1, the standard Laplace
    distribution function at [laplacian u] and the standard Cauchy
    distribution function at [cauchy u] are both [u]; and both are odd
    about the median, [f (1 - u) = - f u]. *)
Theorem quantile_round_trips (u : R) (Hu : (0 < u < 1)%R) :
  laplace_cdf (laplacian u) = u /\
  cauchy_cdf (cauchy u) = u /\
  laplacian (1 - u)%R = (- laplacian u)%R /\
  cauchy (1 - u)%R = (- cauchy u)%R.
Proof.
  assert (Hlap : forall v, (0 < v < 1)%R ->
            laplacian v = (if Rlt_dec v (/ 2) then ln (2 * v)
                           else - ln (2 * (1 - v)))%R).
  { intros v Hv. rewrite laplacian_real.
    destruct (signum_cases (v - / 2)) as (Sp & Sn & Sz).
    destruct (Rlt_dec v (/ 2)) as [Hlt|Hge].
    - rewrite Sn, Rabs_left by lra.
      replace (1 - 2 * - (v - / 2))%R with (2 * v)%R by field. lra.
    - destruct (Req_dec v (/ 2)) as [He|Hne].
      + rewrite Sz by lra. subst v.
        replace (2 * (1 - / 2))%R with 1%R by field. rewrite ln_1. lra.
      + rewrite Sp, Rabs_right by lra.
        replace (1 - 2 * (v - / 2))%R with (2 * (1 - v))%R by field. lra. }
  split; [|split; [|split]].
  - rewrite Hlap by assumption. unfold laplace_cdf.
    destruct (Rlt_dec u (/ 2)) as [Hlt|Hge].
    + assert (Hneg : (ln (2 * u) < 0)%R).
      { rewrite <- ln_1. apply ln_increasing; lra. }
      destruct (Rlt_dec (ln (2 * u)) 0) as [_|Hn]; [|contradiction].
      rewrite exp_ln by lra. field.
    + assert (Hpos : (ln (2 * (1 - u)) <= 0)%R).
      { rewrite <- ln_1. destruct (Req_dec u (/ 2)) as [He|Hne].
        - subst u. replace (2 * (1 - / 2))%R with 1%R by field. lra.
        - left. apply ln_increasing; lra. }
      destruct (Rlt_dec (- ln (2 * (1 - u))) 0) as [Hn|_]; [lra|].
      rewrite Ropp_involutive, exp_ln by lra. field.
  - rewrite cauchy_real. unfold cauchy_cdf.
    pose proof PI_RGT_0 as Hpi.
    rewrite atan_tan.
    + field. lra.
    + split; nra.
  - rewrite !Hlap by lra.
    destruct (Rlt_dec (1 - u) (/ 2)) as [H1|H1];
      destruct (Rlt_dec u (/ 2)) as [H2|H2]; try lra.
    + replace (1 - (1 - u))%R with u by ring. lra.
    + assert (u = / 2)%R by lra. subst u.
      replace (2 * (1 - (1 - / 2)))%R with 1%R by field.
      replace (2 * (1 - / 2))%R with 1%R by field. rewrite ln_1. lra.
  - rewrite !cauchy_real.
    replace (PI * (1 - u - / 2))%R with (- (PI * (u - / 2)))%R by field.
    apply tan_neg.
Qed.

Lemma quantile_round_trips_witness :
  (0 < / 4 < 1)%R /\ laplace_cdf (laplacian (/ 4)%R) = (/ 4)%R.
Proof.
  assert (Hu : (0 < / 4 < 1)%R) by lra.
  split; [exact Hu|].
  exact (proj1 (@quantile_round_trips (/ 4)%R Hu)).
Defined.

(* ================================================================== *)
(** ** Single elements, columns and rows                              *)
(* ================================================================== *)

Lemma gpu_incr_single_mem {T : Type} `{Scalar T} (d : device T)
    (begin offset : Z) (v : T) (q : Z) :
  mem (exec (GpuSrc.gpu_incr_single begin offset v) d) q =
  if q =? begin + offset then (mem d (begin + offset) + v)%S else mem d q.
Proof.
  unfold GpuSrc.gpu_incr_single.
  rewrite exec_bind, exec_load, eval_load, mem_store. reflexivity.
Qed.

(** X22.  [gpu_incr_single] adds the increment to the one element at
    [begin + offset] and [gpu_set_single] overwrites it; both leave every
    other address alone and launch no kernel.  Over the reals, an
    increment followed by the opposite increment restores the memory,
    and an increment after a set is a set of the sum. *)
Theorem single_element_perturbation (d : device R) (begin offset : Z) (v e : R) :
  let d1 := exec (GpuSrc.gpu_incr_single begin offset e) d in
  mem d1 (begin + offset) = (mem d (begin + offset) + e)%R /\
  (forall q, q <> begin + offset ->
     mem d1 q = mem d q /\
     mem (exec (GpuSrc.gpu_set_single begin offset v) d) q = mem d q) /\
  (forall q, mem (exec (GpuSrc.gpu_incr_single begin offset (- e)%R) d1) q
             = mem d q) /\
  (forall q, mem (exec (GpuSrc.gpu_incr_single begin offset e)
                    (exec (GpuSrc.gpu_set_single begin offset v) d)) q
             = mem (exec (GpuSrc.gpu_set_single begin offset (v + e)%R) d) q) /\
  launches d1 = launches d /\
  launches (exec (GpuSrc.gpu_set_single begin offset v) d) = launches d.
Proof.
  intros d1. unfold d1.
  split; [|split; [|split; [|split; [|split]]]].
  - rewrite gpu_incr_single_mem, Z.eqb_refl. reflexivity.
  - intros q Hq. rewrite gpu_incr_single_mem.
    unfold GpuSrc.gpu_set_single. rewrite mem_store.
    destruct (Z.eqb_spec q (begin + offset)); [contradiction|]. split; reflexivity.
  - intros q. rewrite !gpu_incr_single_mem, Z.eqb_refl.
    destruct (Z.eqb_spec q (begin + offset)) as [->|]; [|reflexivity].
    cbn [s_add R_Scalar]. lra.
  - intros q. rewrite gpu_incr_single_mem.
    unfold GpuSrc.gpu_set_single. rewrite !mem_store, Z.eqb_refl.
    destruct (Z.eqb_spec q (begin + offset)); reflexivity.
  - reflexivity.
  - reflexivity.
Qed.

Lemma single_element_perturbation_witness :
  (1 <> 0 + 2)%Z /\
  mem (exec (GpuSrc.gpu_incr_single 0 2 5%R) ramp_device) 1 = mem ramp_device 1.
Proof.
  assert (Hq : (1 <> 0 + 2)%Z) by lia.
  split; [exact Hq|].
  exact (proj1 (proj1 (proj2 (single_element_perturbation ramp_device 0 2 0%R 5%R))
                  1 Hq)).
Defined.

(** X23.  On a column-major [row] x [col] matrix at [begin], with the
    element of row [i] and column [j] at [begin + row * j + i]:
    [gpu_fill_row_float] with row index [r] sets exactly the elements
    with [i = r], [gpu_fill_col_float] with column index [c] sets exactly
    the elements with [j = c], neither touches an address outside the
    matrix, and a column fill after a row fill leaves the column's value
    at the crossing. *)
Theorem fill_col_row_matrix_view {T : Type} (d : device T)
    (begin row col r c : Z) (a b : T) :
  0 <= r < row -> 0 <= c < col ->
  let at_ (i j : Z) := begin + (row * j + i) in
  let dr := exec (MyThrust.gpu_fill_row_float begin row col r a) d in
  let dc := exec (MyThrust.gpu_fill_col_float begin row col c b) d in
  (forall i j, 0 <= i < row -> 0 <= j < col ->
     mem dr (at_ i j) = (if i =? r then a else mem d (at_ i j)) /\
     mem dc (at_ i j) = (if j =? c then b else mem d (at_ i j)) /\
     mem (exec (MyThrust.gpu_fill_col_float begin row col c b) dr) (at_ i j)
     = (if j =? c then b else if i =? r then a else mem d (at_ i j))) /\
  (forall q, q < begin \/ begin + row * col <= q ->
     mem dr q = mem d q /\ mem dc q = mem d q).
Proof.
  intros Hr Hc at_ dr dc.
  pose proof (gpu_fill_row_float_fills a begin row col r) as F.
  cbv zeta in F. destruct (Z.ltb_spec r 0) as [|_]; [lia|].
  assert (Hrow : forall i j, 0 <= i < row -> 0 <= j < col ->
            mem dr (at_ i j) = (if i =? r then a else mem d (at_ i j))).
  { intros i j Hi Hj. unfold dr, at_.
    destruct (F d (begin + (row * j + i))) as [[(j' & Hj' & E) ->]|[HnA ->]].
    - assert (i = r) by (destruct (Z.lt_trichotomy j j') as [|[|]]; nia).
      subst i. now rewrite Z.eqb_refl.
    - destruct (Z.eqb_spec i r) as [->|]; [|reflexivity].
      exfalso. apply HnA. exists j. split; [lia | reflexivity]. }
  assert (Hcol : forall d0 i j, 0 <= i < row -> 0 <= j < col ->
            mem (exec (MyThrust.gpu_fill_col_float begin row col c b) d0) (at_ i j)
            = (if j =? c then b else mem d0 (at_ i j))).
  { intros d0 i j Hi Hj. unfold at_.
    rewrite gpu_fill_col_float_mem. cbv zeta.
    destruct (Z.ltb_spec c 0) as [|_]; [lia|].
    rewrite Z.max_r by lia.
    destruct (Z.eqb_spec j c) as [->|Hne].
    - destruct (Z.leb_spec (begin + row * c) (begin + (row * c + i))); [|lia].
      destruct (Z.ltb_spec (begin + (row * c + i)) (begin + row * c + row)); [|lia].
      reflexivity.
    - destruct (Z.leb_spec (begin + row * c) (begin + (row * j + i)));
        destruct (Z.ltb_spec (begin + (row * j + i)) (begin + row * c + row));
        cbn [andb]; try reflexivity.
      exfalso. apply Hne. destruct (Z.lt_trichotomy j c) as [|[|]]; nia. }
  split.
  - intros i j Hi Hj. split; [|split].
    + apply Hrow; assumption.
    + unfold dc. apply Hcol; assumption.
    + rewrite Hcol by assumption. rewrite Hrow by assumption. reflexivity.
  - intros q Hq. split.
    + unfold dr. destruct (F d q) as [[(j' & Hj' & E) _]|[_ ->]]; [|reflexivity].
      exfalso. nia.
    + unfold dc. rewrite gpu_fill_col_float_mem. cbv zeta.
      destruct (Z.ltb_spec c 0) as [|_]; [lia|].
      rewrite Z.max_r by lia.
      destruct (Z.leb_spec (begin + row * c) q);
        destruct (Z.ltb_spec q (begin + row * c + row));
        cbn [andb]; try reflexivity.
      exfalso. nia.
Qed.

Lemma fill_col_row_matrix_view_witness :
  0 <= 1 < 3 /\ 0 <= 0 < 2 /\
  forall q, q < 0 \/ 0 + 3 * 2 <= q ->
    mem (exec (MyThrust.gpu_fill_row_float 0 3 2 1 7%R) ramp_device) q
    = mem ramp_device q.
Proof.
  assert (Hr : 0 <= 1 < 3) by lia.
  assert (Hc : 0 <= 0 < 2) by lia.
  split; [exact Hr|]. split; [exact Hc|].
  intros q Hq.
  exact (proj1 (proj2 (@fill_col_row_matrix_view R ramp_device 0 3 2 1 0 7%R 7%R Hr Hc)
                  q Hq)).
Defined.

(* ================================================================== *)
(** ** The random fill under a schedule                               *)
(* ================================================================== *)

Lemma concat_singletons {A B : Type} (g : A -> B) (l : list A) :
  concat (map (fun k => [g k]) l) = map g l.
Proof. induction l as [|x l IH]; [reflexivity | cbn; now rewrite IH]. Qed.

Lemma in_counting (first j : Z) (n : nat) :
  In j (map (fun k => first + Z.of_nat k) (seq 0 n))
  <-> first <= j < first + Z.of_nat n.
Proof.
  rewrite in_map_iff. split.
  - intros (k & <- & Hk). apply in_seq in Hk. lia.
  - intros Hj. exists (Z.to_nat (j - first)). split; [lia | apply in_seq; lia].
Qed.

Lemma NoDup_counting (first : Z) (n : nat) : forall a,
  NoDup (map (fun k => first + Z.of_nat k) (seq a n)).
Proof.
  induction n as [|n IH]; intros a; cbn [seq map]; constructor; [|apply IH].
  rewrite in_map_iff. intros (k & E & Hk). apply in_seq in Hk. lia.
Qed.

Lemma sampled_position_one_index_per_copy (first i : Z) (n : nat) : forall a,
  first + Z.of_nat a <= i < first + Z.of_nat a + Z.of_nat n ->
  sampled_position (map (fun k => [first + Z.of_nat k]) (seq a n)) i
  = Some (Z.to_nat i).
Proof.
  induction n as [|n IH]; intros a Hi; [lia|].
  cbn [seq map sampled_position copy_position].
  destruct (Z.eqb_spec (first + Z.of_nat a) i) as [->|Hne]; [reflexivity|].
  apply IH. lia.
Qed.

(** With one copy of the functor per index, the fill writes, at every
    offset of the array, the sample at the stream position of that
    offset. *)
Lemma gpu_fill_rand_normal_one_index_per_copy_mem {T : Type} `{Scalar T}
    (normal_deviate : Z -> T) (d : device T) (begin size : Z) (mean stddev : T)
    (q : Z) :
  mem (exec (GpuSrc.gpu_fill_rand_normal normal_deviate one_index_per_copy
               begin size mean stddev) d) q =
  if (begin <=? q) && (q <? begin + Z.max 0 size)
  then (mean + stddev * normal_deviate (stream_value (Z.to_nat (q - begin))))%S
  else mem d q.
Proof.
  unfold GpuSrc.gpu_fill_rand_normal, thrust_transform_counting.
  rewrite exec_bind. unfold one_index_per_copy.
  replace (size - 0) with size by lia.
  destruct (Z.leb_spec begin q) as [H1|H1];
    [destruct (Z.ltb_spec q (begin + Z.max 0 size)) as [H2|H2]|]; cbn [andb].
  - replace q with (begin + ((q - begin) - 0)) at 1 by lia.
    apply serve_copies_sample.
    + rewrite concat_singletons. apply NoDup_counting.
    + apply sampled_position_one_index_per_copy. lia.
  - rewrite serve_copies_frame; [reflexivity|].
    intros j Hj. rewrite concat_singletons in Hj. apply in_counting in Hj. lia.
  - rewrite serve_copies_frame; [reflexivity|].
    intros j Hj. rewrite concat_singletons in Hj. apply in_counting in Hj. lia.
Qed.

(** X24.  When Thrust gives every index a copy of the functor of its
    own, [gpu_fill_rand_normal] leaves at index [i] the sample that the
    normal distribution draws from engine state [48271^(i+1) mod
    (2^31 - 1)], the value after [i] discarded draws; two calls with
    the same [(mean, stddev)] then leave the same number at the same
    index whatever the arrays, their sizes and the previous contents
    are, a second fill changes nothing, and indices less than one
    period apart draw different engine values.  Addresses outside the
    array are kept and one kernel is launched. *)
Theorem gpu_fill_rand_normal_repeats {T : Type} `{Scalar T}
    (normal_deviate : Z -> T) (d1 d2 : device T)
    (begin1 size1 begin2 size2 : Z) (mean stddev : T) :
  let fill1 := GpuSrc.gpu_fill_rand_normal normal_deviate one_index_per_copy
                 begin1 size1 mean stddev in
  let fill2 := GpuSrc.gpu_fill_rand_normal normal_deviate one_index_per_copy
                 begin2 size2 mean stddev in
  (forall i, 0 <= i < size1 ->
     sampled_position (one_index_per_copy 0 size1) i = Some (Z.to_nat i) /\
     mem (exec fill1 d1) (begin1 + i)
     = (mean + stddev * normal_deviate (48271 ^ (i + 1) mod 2147483647))%S) /\
  (forall i, 0 <= i < size1 -> 0 <= i < size2 ->
     mem (exec fill1 d1) (begin1 + i) = mem (exec fill2 d2) (begin2 + i)) /\
  (forall i j, 0 <= i < j -> j - i < 2147483646 ->
     stream_value (Z.to_nat i) <> stream_value (Z.to_nat j)) /\
  (forall q, mem (exec fill1 (exec fill1 d1)) q = mem (exec fill1 d1) q) /\
  (forall q, q < begin1 \/ begin1 + size1 <= q -> mem (exec fill1 d1) q = mem d1 q) /\
  launches (exec fill1 d1) = S (launches d1).
Proof.
  intros fill1 fill2. unfold fill1, fill2.
  split; [|split; [|split; [|split; [|split]]]].
  - intros i Hi. split.
    + unfold one_index_per_copy.
      apply sampled_position_one_index_per_copy. lia.
    + rewrite gpu_fill_rand_normal_one_index_per_copy_mem.
      rewrite in_range_offset by assumption.
      replace (begin1 + i - begin1) with i by lia.
      rewrite stream_value_power, Z2Nat.id by lia. reflexivity.
  - intros i H1 H2. rewrite !gpu_fill_rand_normal_one_index_per_copy_mem.
    rewrite !in_range_offset by assumption.
    replace (begin1 + i - begin1) with i by lia.
    replace (begin2 + i - begin2) with i by lia. reflexivity.
  - intros i j Hij Hper. apply stream_values_distinct; lia.
  - intros q. rewrite !gpu_fill_rand_normal_one_index_per_copy_mem.
    destruct ((begin1 <=? q) && (q <? begin1 + Z.max 0 size1)); reflexivity.
  - intros q Hq. rewrite gpu_fill_rand_normal_one_index_per_copy_mem.
    destruct (Z.leb_spec begin1 q); destruct (Z.ltb_spec q (begin1 + Z.max 0 size1));
      cbn [andb]; try reflexivity.
    exfalso. lia.
  - unfold GpuSrc.gpu_fill_rand_normal, thrust_transform_counting.
    rewrite exec_bind, serve_copies_launches. apply launches_launch.
Qed.

Lemma gpu_fill_rand_normal_repeats_witness :
  0 <= 1 < 3 /\ 0 <= 1 < 5 /\
  mem (exec (GpuSrc.gpu_fill_rand_normal IZR one_index_per_copy 0 3 0%R 1%R)
         ramp_device) (0 + 1)
  = mem (exec (GpuSrc.gpu_fill_rand_normal IZR one_index_per_copy 10 5 0%R 1%R)
           (list_device [3; 1; 2]%R)) (10 + 1).
Proof.
  assert (H1 : 0 <= 1 < 3) by lia.
  assert (H2 : 0 <= 1 < 5) by lia.
  split; [exact H1|]. split; [exact H2|].
  exact (proj1 (proj2 (@gpu_fill_rand_normal_repeats R _ IZR ramp_device
                  (list_device [3; 1; 2]%R) 0 3 10 5 0%R 1%R)) 1 H1 H2).
Defined.

Lemma copy_position_after (pre post : list Z) (i : Z) : forall pos,
  ~ In i pre ->
  copy_position pos (pre ++ i :: post) i
  = Some (pos + fold_right (fun j a => Z.to_nat j + 1 + a) 0 pre + Z.to_nat i)%nat.
Proof.
  induction pre as [|j pre IH]; intros pos Hin; cbn [app copy_position fold_right].
  - rewrite Z.eqb_refl. f_equal. lia.
  - destruct (Z.eqb_spec j i) as [->|Hne]; [exfalso; apply Hin; now left|].
    rewrite IH by (intros Hi; apply Hin; now right). f_equal. lia.
Qed.

(** X25.  Under any way of dividing the indices among copies of the
    functor that serves every index once: the element at index [i] is
    the sample drawn from engine state [48271^(p+1) mod (2^31 - 1)],
    where the position [p] is [i] plus, for every index [j] that the
    same copy served before, [j + 1]; it depends on the schedule,
    [(mean, stddev)] and [i] only, not on the array or the previous
    contents of the device; addresses that no index is stored at are
    kept, and one kernel is launched. *)
Theorem gpu_fill_rand_normal_sample {T : Type} `{Scalar T}
    (normal_deviate : Z -> T) (schedule : Z -> Z -> list (list Z))
    (d : device T) (begin size : Z) (mean stddev : T) (i : Z) (p : nat) :
  NoDup (concat (schedule 0 size)) ->
  sampled_position (schedule 0 size) i = Some p ->
  let fill b := GpuSrc.gpu_fill_rand_normal normal_deviate schedule b size mean stddev in
  mem (exec (fill begin) d) (begin + i)
  = (mean + stddev * normal_deviate (48271 ^ (Z.of_nat p + 1) mod 2147483647))%S /\
  (forall (d2 : device T) (begin2 : Z),
     mem (exec (fill begin2) d2) (begin2 + i) = mem (exec (fill begin) d) (begin + i)) /\
  (forall pre post pos, ~ In i pre ->
     copy_position pos (pre ++ i :: post) i
     = Some (pos + fold_right (fun j a => Z.to_nat j + 1 + a) 0 pre + Z.to_nat i)%nat) /\
  (forall q, (forall j, In j (concat (schedule 0 size)) -> q <> begin + j) ->
     mem (exec (fill begin) d) q = mem d q) /\
  launches (exec (fill begin) d) = S (launches d).
Proof.
  intros Hnd Hp fill.
  assert (Hmem : forall d0 b,
            mem (exec (fill b) d0) (b + i)
            = (mean + stddev * normal_deviate (stream_value p))%S).
  { intros d0 b. unfold fill, GpuSrc.gpu_fill_rand_normal, thrust_transform_counting.
    rewrite exec_bind. replace (b + i) with (b + (i - 0)) by lia.
    apply serve_copies_sample; assumption. }
  split; [|split; [|split; [|split]]].
  - rewrite Hmem, stream_value_power. reflexivity.
  - intros d2 begin2. now rewrite !Hmem.
  - intros pre post pos Hin. now apply copy_position_after.
  - intros q Hq. unfold fill, GpuSrc.gpu_fill_rand_normal, thrust_transform_counting.
    rewrite exec_bind, serve_copies_frame; [reflexivity|].
    intros j Hj. replace (j - 0) with j by lia. now apply Hq.
  - unfold fill, GpuSrc.gpu_fill_rand_normal, thrust_transform_counting.
    rewrite exec_bind, serve_copies_launches. apply launches_launch.
Qed.

(** Two threads with two items each: the second item of thread 0,
    index 2, is sampled from position 3. *)
Lemma gpu_fill_rand_normal_sample_witness :
  NoDup (concat (tiled 2 2 0 4)) /\
  sampled_position (tiled 2 2 0 4) 2 = Some 3%nat /\
  mem (exec (GpuSrc.gpu_fill_rand_normal IZR (tiled 2 2) 0 4 0%R 1%R) ramp_device)
      (0 + 2)
  = (0 + 1 * IZR (48271 ^ (Z.of_nat 3 + 1) mod 2147483647))%R.
Proof.
  assert (Hnd : NoDup (concat (tiled 2 2 0 4)))
    by (apply distinctb_NoDup; vm_compute; reflexivity).
  assert (Hp : sampled_position (tiled 2 2 0 4) 2 = Some 3%nat)
    by (vm_compute; reflexivity).
  split; [exact Hnd|]. split; [exact Hp|].
  exact (proj1 (@gpu_fill_rand_normal_sample R _ IZR (tiled 2 2) ramp_device
                  0 4 0%R 1%R 2 3%nat Hnd Hp)).
Defined.
